(** * safeps: a shallow embedding of [es6/lib/safeps.js]

    The development follows the source file top to bottom: JavaScript string
    helpers, the values the module handles (buffers, errors, results,
    options), the effect monad (process-wide caches, observable events,
    exceptions), the executable verifier, result finalization, the blocking
    and the non-blocking invocation, the batch runners and the path
    resolvers.  Everything the module obtains from Node (environment,
    file-system checks, child processes, [path]) is a field of [World]. *)

From stdpp Require Import base option list gmap strings.
From Stdlib Require Import Ascii ZArith Lia.

Open Scope Z_scope.

(* ===================================================================== *)
(** ** JavaScript strings *)
(* ===================================================================== *)

(** Strings are sequences of code units below 256; [+:+] is [+]. *)

Module Js.

(** [s === ''] is what makes a string falsy. *)
Definition is_empty (s : string) : bool :=
  match s with EmptyString => true | String _ _ => false end.

Definition truthy (s : string) : bool := negb (is_empty s).

(** White space and line terminators that [String.prototype.trim] strips
    (tab, LF, VT, FF, CR, space, NBSP). *)
Definition is_white (c : ascii) : bool :=
  match c with
  | "009" | "010" | "011" | "012" | "013" | " " | "160" => true
  | _ => false
  end%char.

Fixpoint trim_start (s : string) : string :=
  match s with
  | String c s' => if is_white c then trim_start s' else s
  | EmptyString => EmptyString
  end.

(** [s.trim()] *)
Definition trim (s : string) : string :=
  String.rev (trim_start (String.rev (trim_start s))).

(** The text put in the place of one match by [s.replace(pattern, by)]
    when the pattern has no groups: in [by], [$$] stands for one dollar,
    [$&] for the match, [$`] for what comes before the match in [s] and
    [$'] for what comes after it; a dollar before anything else, a digit
    included, stands for itself. *)
Fixpoint substitution (matched before after by_ : string) : string :=
  match by_ with
  | EmptyString => EmptyString
  | String c rest =>
      if Ascii.eqb c "$"%char then
        match rest with
        | String d rest' =>
            if Ascii.eqb d "$"%char
            then String "$"%char (substitution matched before after rest')
            else if Ascii.eqb d "&"%char
            then matched +:+ substitution matched before after rest'
            else if Ascii.eqb d "`"%char
            then before +:+ substitution matched before after rest'
            else if Ascii.eqb d "'"%char
            then after +:+ substitution matched before after rest'
            else String c (substitution matched before after rest)
        | EmptyString => String c EmptyString
        end
      else String c (substitution matched before after rest)
  end.

(** [s.replace(/\n/g, by)], with [before] what has been passed of [s]. *)
Fixpoint replace_newlines_from (by_ before s : string) : string :=
  match s with
  | EmptyString => EmptyString
  | String c s' =>
      if Ascii.eqb c "010"%char
      then substitution (String "010"%char EmptyString) before s' by_
           +:+ replace_newlines_from by_ (before +:+ String c EmptyString) s'
      else String c
             (replace_newlines_from by_ (before +:+ String c EmptyString) s')
  end.

Definition replace_newlines (by_ : string) (s : string) : string :=
  replace_newlines_from by_ EmptyString s.

(** [s.split(sep)] for a one-character separator: cut at every occurrence,
    keeping empty pieces; the result is never the empty array. *)
Fixpoint split_go (sep : ascii) (cur : string) (s : string) : list string :=
  match s with
  | EmptyString => [String.rev cur]
  | String c s' =>
      if Ascii.eqb c sep then String.rev cur :: split_go sep EmptyString s'
      else split_go sep (String c cur) s'
  end.

Definition split (sep : ascii) (s : string) : list string :=
  split_go sep EmptyString s.

(** [s.indexOf(c) !== -1] for a one-character needle. *)
Fixpoint has_char (c : ascii) (s : string) : bool :=
  match s with
  | EmptyString => false
  | String d s' => Ascii.eqb c d || has_char c s'
  end.

(** [s.indexOf(pat) === 0] *)
Definition starts_with (pat s : string) : bool := String.prefix pat s.

(** [/lit/.test(s)] for a literal pattern: [lit] occurs somewhere in [s]. *)
Fixpoint includes (pat s : string) : bool :=
  String.prefix pat s ||
  match s with
  | EmptyString => false
  | String _ s' => includes pat s'
  end.

(** [s.substr(i, 1)]: the code unit at [i], or [''] past the end. *)
Definition substr1 (i : nat) (s : string) : string :=
  match String.get i s with
  | Some c => String c EmptyString
  | None => EmptyString
  end.

(** [c.toUpperCase()] on one code unit: a-z are shifted, the Latin-1
    lower-case letters as well; everything else is kept.  (The three code
    units below 256 whose upper case is not a single code unit below 256
    are kept too; the name built from them names no method either way.) *)
Definition upper (c : ascii) : ascii :=
  let n := nat_of_ascii c in
  if ((97 <=? n) && (n <=? 122))%nat then ascii_of_nat (n - 32)
  else if ((224 <=? n) && (n <=? 254) && negb (n =? 247))%nat
       then ascii_of_nat (n - 32)
  else c.

(** [a || b] on possibly missing strings: the first truthy one. *)
Definition or_else (a b : option string) : option string :=
  match a with
  | Some s => if truthy s then a else b
  | None => b
  end.

(** [!!v] for a possibly missing string. *)
Definition truthy_opt (a : option string) : bool :=
  match a with Some s => truthy s | None => false end.

End Js.

(* ===================================================================== *)
(** ** Values *)
(* ===================================================================== *)

(** [err.code]: absent, a number (an exit code) or a string (an errno name). *)
Inductive ErrCode :=
| CodeNone
| CodeNum (n : Z)
| CodeStr (s : string).

(** An [Error] object; objects are always truthy.  [child_process] puts
    the exit code of a failed command on the error it reports: [exec] as
    [err.code], [execSync] as [err.status]. *)
Record JsError := mkError {
  message : string;
  code : ErrCode;
  err_status : option Z
}.

(** [new Error(msg)] *)
Definition newError (msg : string) : JsError := mkError msg CodeNone None.

(** The [TypeError] the engine raises on a property access on [null] or
    [undefined], and Node on a non-string argument. *)
Definition typeError (what : string) : JsError := mkError what CodeNone None.

(** Captured output: a [Buffer] (always truthy) or, from [exec], a string. *)
Inductive Data :=
| Buffer (bytes : string)
| Str (s : string).

Definition data_toString (d : Data) : string :=
  match d with Buffer b => b | Str s => s end.

Definition data_truthy (d : Data) : bool :=
  match d with Buffer _ => true | Str s => Js.truthy s end.

(** [Buffer.concat([a, b])] *)
Definition data_concat (a b : Data) : Data :=
  Buffer (data_toString a +:+ data_toString b).

(** The result object [{pid, stdout, stderr, status, signal, error}];
    [None] stands for [null] and for a property that is not there. *)
Record ExecResult := mkResult {
  pid : option Z;
  stdout : option Data;
  stderr : option Data;
  status : option Z;
  signal : option string;
  error : option JsError
}.

(** [opts.env]: unset, [false], [null] or an environment. *)
Inductive EnvOpt :=
| EnvUnset
| EnvFalse
| EnvNull
| EnvMap (m : gmap string string).

(** The option bag; [None] is an option that is [null] or [undefined]. *)
Record Opts := mkOpts {
  o_stdin : option string;
  o_stdio : option string;
  o_safe : option bool;
  o_read : option bool;
  o_output : option bool;
  o_outputPrefix : option string;
  o_env : EnvOpt;
  o_cache : option bool;
  o_sync : option bool;
  o_concurrency : option nat
}.

Definition noOpts : Opts :=
  mkOpts None None None None None None EnvUnset None None None.

(** [!!v] for a possibly missing boolean option. *)
Definition flag (b : option bool) : bool := default false b.

Inductive Channel := ChStdout | ChStderr.

(** What a child does, as its parent sees it: chunks on its two streams,
    ['close'] with exit status and signal, and ['error'], of the child when
    it cannot be started or of one of its streams.  Nothing listens for
    ['error']: it is raised in the domain of the task that runs the child. *)
Inductive ChildEvent :=
| ChildData (ch : Channel) (chunk : Data)
| ChildClose (st : option Z) (sg : option string)
| ChildError (err : JsError).

(** What [child_process.exec] hands to its callback. *)
Record ExecReply := mkExecReply {
  x_error : option JsError;
  x_stdout : option Data;
  x_stderr : option Data
}.

(* ===================================================================== *)
(** ** The world outside the module *)
(* ===================================================================== *)

Record World := mkWorld {
  (** [process.platform], [process.env], [process.cwd()], [process.execPath] *)
  platform : string;
  env : gmap string string;
  cwd : string;
  execPath : string;
  (** [path.delimiter], [path.join(a, b)], [path.resolve(...segments)] *)
  delimiter : ascii;
  path_join : string → string → string;
  path_resolve : list string → string;
  (** [fs.access] and [fs.accessSync] with [X_OK], when Node has them:
      [true] is "no error" *)
  fs_access : option (string → bool);
  fs_accessSync : option (string → bool);
  (** [child_process]: [exec] calls back, [execSync] returns stdout or
      throws, [spawnSync] returns a result object, [spawn] returns a child
      that emits events *)
  cp_exec : string → ExecReply;
  cp_execSync : string → JsError + option Data;
  cp_spawnSync : string → list string → ExecResult;
  cp_spawn : string → list string → list ChildEvent
}.

(** [const isWindows = (process.platform || '').indexOf('win') === 0] *)
Definition isWindows (w : World) : bool := Js.starts_with "win" (platform w).

(** [process.env.NAME] *)
Definition getenv (w : World) (name : string) : option string := env w !! name.

(* ===================================================================== *)
(** ** Effects: caches, events, exceptions *)
(* ===================================================================== *)

(** [safeps.execPathCache] and the five [safeps.cached...Path] slots. *)
Record Caches := mkCaches {
  execPathCache : gmap string string;
  cachedHomePath : option string;
  cachedTmpPath : option string;
  cachedGitPath : option string;
  cachedNodePath : option string;
  cachedNpmPath : option string
}.

Definition noCaches : Caches := mkCaches ∅ None None None None None.

Inductive Slot :=
| SlotExec (name : string)
| SlotHome
| SlotTmp
| SlotGit
| SlotNode
| SlotNpm.

(** What a run does that can be seen from outside. *)
Inductive Event :=
| EvCacheRead (s : Slot)
| EvCacheWrite (s : Slot) (v : option string)
| EvVerify (path : string) (ok : bool)
| EvWrite (ch : Channel) (text : string)
| EvSpawn (file : string) (args : list string)
| EvStdin (text : string).

Inductive Res (A : Type) :=
| Ok (a : A)
| Throw (e : JsError).
Arguments Ok {A} a.
Arguments Throw {A} e.

Record Run (A : Type) := mkRun {
  value : Res A;
  store : Caches;
  events : list Event
}.
Arguments mkRun {A} value store events.
Arguments value {A} r.
Arguments store {A} r.
Arguments events {A} r.

(** A computation reads and writes the caches, emits events in order, and
    returns or throws; what happened before a throw stays. *)
Definition M (A : Type) : Type := Caches → Run A.

Definition ret {A} (a : A) : M A := λ c, mkRun (Ok a) c [].

Definition throw {A} (e : JsError) : M A := λ c, mkRun (Throw e) c [].

Definition bind {A B} (m : M A) (k : A → M B) : M B := λ c,
  let r := m c in
  match value r with
  | Ok a => let r' := k a (store r) in
            mkRun (value r') (store r') (events r ++ events r')
  | Throw e => mkRun (Throw e) (store r) (events r)
  end.

Definition emit (e : Event) : M unit := λ c, mkRun (Ok tt) c [e].

Definition getCaches : M Caches := λ c, mkRun (Ok c) c [].

Definition setCaches (c' : Caches) : M unit := λ _, mkRun (Ok tt) c' [].

Notation "x <- m ;; k" := (bind m (λ x, k))
  (at level 100, m at next level, right associativity).
Notation "m ;;; k" := (bind m (λ _, k))
  (at level 100, right associativity).

(** [process[channel].write(text)] *)
Definition write (ch : Channel) (text : string) : M unit :=
  emit (EvWrite ch text).

(* ===================================================================== *)
(** ** Executable helpers *)
(* ===================================================================== *)

(** The classification of a failed [--version] probe:
    [err.code !== 127 && (/EACCESS|Permission denied/).test(err.message) === false] *)
Definition code_is_127 (c : ErrCode) : bool :=
  match c with CodeNum n => n =? 127 | _ => false end.

Definition message_denied (msg : string) : bool :=
  Js.includes "EACCESS" msg || Js.includes "Permission denied" msg.

Definition probeVerdict (err : JsError) : bool :=
  negb (code_is_127 (code err)) && negb (message_denied (message err)).

(** The shim branch of [isExecutable]: [exec(path + ' --version', cb)]. *)
Definition probe (w : World) (path : string) : bool :=
  match x_error (cp_exec w (path +:+ " --version")) with
  | None => true
  | Some err => probeVerdict err
  end.

(** The shim branch of [isExecutableSync]: [execSync] in a [try]. *)
Definition probeSync (w : World) (path : string) : bool :=
  match cp_execSync w (path +:+ " --version") with
  | inr _ => true
  | inl err => probeVerdict err
  end.

(** The answer of [isExecutableSync], before it is reported. *)
Definition checkSync (w : World) (path : string) : bool :=
  match fs_accessSync w with
  | Some accessSync => accessSync path
  | None => probeSync w path
  end.

(** The answer of the non-blocking branches of [isExecutable]. *)
Definition checkAsync (w : World) (path : string) : bool :=
  match fs_access w with
  | Some access => access path
  | None => probe w path
  end.

(** [isExecutableSync(path, opts, next)]: the answer, returned or passed
    to [next]. *)
Definition isExecutableSync (w : World) (path : string) : M bool :=
  let isExecutable := checkSync w path in
  emit (EvVerify path isExecutable) ;;; ret isExecutable.

(** The answer [isExecutable] gives under [opts]. *)
Definition verdict (w : World) (opts : Opts) (path : string) : bool :=
  if flag (o_sync opts) then checkSync w path else checkAsync w path.

(** [isExecutable(path, opts, next)]; the value is what [next] receives as
    [isExecutable], the error it receives is always [null]. *)
Definition isExecutable (w : World) (path : string) (opts : Opts) : M bool :=
  if flag (o_sync opts) then isExecutableSync w path
  else
    let isExecutable := checkAsync w path in
    emit (EvVerify path isExecutable) ;;; ret isExecutable.

(** [prepareExecutableOptions(opts)] *)
Definition prepareExecutableOptions (w : World) (opts : Opts) : Opts :=
  let safe := Some (default true (o_safe opts)) in
  let env' :=
    match o_env opts with
    | EnvUnset | EnvNull => EnvMap (env w)
    | EnvFalse => EnvNull
    | EnvMap m => EnvMap m
    end in
  if Js.truthy_opt (o_stdio opts) then
    mkOpts (o_stdin opts) (o_stdio opts) safe (Some false) (Some false) None
           env' (o_cache opts) (o_sync opts) (o_concurrency opts)
  else
    let output :=
      match o_output opts with
      | Some b => Some b
      | None => Some (Js.truthy_opt (o_outputPrefix opts))
      end in
    mkOpts (o_stdin opts) (o_stdio opts) safe
           (Some (default true (o_read opts))) output (o_outputPrefix opts)
           env' (o_cache opts) (o_sync opts) (o_concurrency opts).

Definition nl : string := String "010"%char EmptyString.

(** The default of [prefixData]'s second parameter, ['>\t']. *)
Definition defaultPrefix : string := String ">"%char (String "009"%char EmptyString).

(** [prefixData(data, prefix)] *)
Definition prefixData (data : option Data) (prefix : string) : string :=
  let data :=
    match data with
    | Some d => if data_truthy d then data_toString d else EmptyString
    | None => EmptyString
    end in
  if Js.truthy prefix && Js.truthy data
  then prefix +:+ Js.replace_newlines (nl +:+ prefix) (Js.trim data) +:+ nl
  else data.

(** [outputData(data, channel, prefix)]; [data.toString()] needs a value. *)
Definition outputData (data : option Data) (channel : Channel)
    (prefix : option string) : M unit :=
  match data with
  | None => throw (typeError "Cannot read property 'toString' of null")
  | Some d =>
      if Js.is_empty (Js.trim (data_toString d)) then ret tt
      else
        match prefix with
        | Some p =>
            if Js.truthy p then write channel (prefixData data p)
            else write channel (data_toString d)
        | None => write channel (data_toString d)
        end
  end.

Definition setError (result : ExecResult) (e : option JsError) : ExecResult :=
  mkResult (pid result) (stdout result) (stderr result) (status result)
           (signal result) e.

(** The message of the error synthesized from a non-zero status. *)
Definition statusMessage (result : ExecResult) : string :=
  let message := "Command exited with a non-zero status code." in
  let message :=
    match stdout result with
    | Some d =>
        if data_truthy d then
          let tmp := prefixData (stdout result) defaultPrefix in
          if Js.truthy tmp
          then message +:+ nl +:+ "The command's stdout output:" +:+ nl +:+ tmp
          else message
        else message
    | None => message
    end in
  match stderr result with
  | Some d =>
      if data_truthy d then
        let tmp := prefixData (stderr result) defaultPrefix in
        if Js.truthy tmp
        then message +:+ nl +:+ "The command's stderr output:" +:+ nl +:+ tmp
        else message
      else message
  | None => message
  end.

(** [result.status != null && result.status !== 0] *)
Definition failedStatus (st : option Z) : bool :=
  match st with Some n => negb (n =? 0) | None => false end.

(** [updateExecutableResult(result, opts)] *)
Definition updateExecutableResult (result : ExecResult) (opts : Opts)
    : M ExecResult :=
  (if flag (o_output opts) then
     outputData (stdout result) ChStdout (o_outputPrefix opts) ;;;
     outputData (stderr result) ChStderr (o_outputPrefix opts)
   else ret tt) ;;;
  match error result with
  | Some _ => ret result
  | None =>
      if failedStatus (status result)
      then ret (setError result (Some (newError (statusMessage result))))
      else ret result
  end.

(* ===================================================================== *)
(** ** Paths *)
(* ===================================================================== *)

(** What a resolver hands to [next] as the path: a string, or, when the
    cache object is read at a key it only inherits, that inherited member. *)
Inductive PathVal :=
| PStr (s : string)
| PInherited (key : string).

(** One call of [next]: [next(err)] or [next(null, path)].  A resolver
    returns the calls it makes as a pair: the first one and any further. *)
Inductive Reply :=
| ReplyErr (e : JsError)
| ReplyPath (p : option PathVal).

(** [determineExecPath(possibleExecPaths, opts, next)]: the tasks of the
    group run one after the other in the order they were added; none of them
    completes with an error, so [next] receives [null] and [execPath]. *)
Fixpoint determineExecPath_from (w : World) (opts : Opts)
    (possibleExecPaths : list string) (execPath : option string)
    : M (option string) :=
  match possibleExecPaths with
  | [] => ret execPath
  | possibleExecPath :: rest =>
      if Js.is_empty possibleExecPath
      then determineExecPath_from w opts rest execPath
      else if Js.truthy_opt execPath
      then determineExecPath_from w opts rest execPath
      else
        let possibleExecPath := path_resolve w [possibleExecPath] in
        isExecutable <- isExecutable w possibleExecPath opts ;;
        determineExecPath_from w opts rest
          (if isExecutable then Some possibleExecPath else execPath)
  end.

Definition determineExecPath (w : World) (possibleExecPaths : list string)
    (opts : Opts) : M (option string) :=
  determineExecPath_from w opts possibleExecPaths None.

(** [getEnvironmentPaths()]; [split] needs [process.env.PATH] to be there. *)
Definition getEnvironmentPaths (w : World) : M (list string) :=
  match getenv w "PATH" with
  | Some p => ret (Js.split (delimiter w) p)
  | None => throw (typeError "Cannot read property 'split' of undefined")
  end.

(** [getStandardExecPaths(execName)] *)
Definition getStandardExecPaths (w : World) (execName : string)
    : M (list string) :=
  environmentPaths <- getEnvironmentPaths w ;;
  let standardExecPaths := cwd w :: environmentPaths in
  if Js.truthy execName
  then ret ((λ path, path_join w path execName) <$> standardExecPaths)
  else ret standardExecPaths.

(** The four entries pushed for one standard path on Windows. *)
Definition windowsVariants (standardExecPath : string) : list string :=
  [ standardExecPath;
    standardExecPath +:+ ".exe";
    standardExecPath +:+ ".cmd";
    standardExecPath +:+ ".bat" ].

(** [getPossibleExecPaths(execName)] *)
Definition getPossibleExecPaths (w : World) (execName : string)
    : M (list string) :=
  if isWindows w && negb (Js.has_char "."%char execName) then
    standardExecPaths <- getStandardExecPaths w execName ;;
    ret (standardExecPaths ≫= windowsVariants)
  else getStandardExecPaths w execName.

(** The members every object literal inherits from [Object.prototype]. *)
Definition objectPrototypeKeys : list string :=
  [ "constructor"; "toString"; "toLocaleString"; "valueOf"; "hasOwnProperty";
    "isPrototypeOf"; "propertyIsEnumerable"; "__defineGetter__";
    "__defineSetter__"; "__lookupGetter__"; "__lookupSetter__"; "__proto__" ].

(** [safeps.execPathCache[execName]]: [__proto__] is an accessor of the
    prototype that assignment cannot shadow; for the other keys the
    object's own entries come first, then what it inherits (all truthy). *)
Definition execPathCache_get (c : Caches) (execName : string)
    : option PathVal :=
  if bool_decide (execName = "__proto__") then Some (PInherited execName)
  else
    match execPathCache c !! execName with
    | Some p => Some (PStr p)
    | None =>
        if bool_decide (execName ∈ objectPrototypeKeys)
        then Some (PInherited execName) else None
    end.

Definition pathVal_truthy (v : option PathVal) : bool :=
  match v with
  | Some (PStr s) => Js.truthy s
  | Some (PInherited _) => true
  | None => false
  end.

(** Reading and writing a cache: [safeps.execPathCache[name]] or one of
    [safeps.cached<Tool>Path].  Assigning a string to the [__proto__] key of
    an object changes nothing. *)
Definition slot_get (s : Slot) (c : Caches) : option string :=
  match s with
  | SlotExec name => execPathCache c !! name
  | SlotHome => cachedHomePath c
  | SlotTmp => cachedTmpPath c
  | SlotGit => cachedGitPath c
  | SlotNode => cachedNodePath c
  | SlotNpm => cachedNpmPath c
  end.

Definition slot_put (s : Slot) (v : option string) (c : Caches) : Caches :=
  match s with
  | SlotExec name =>
      match v with
      | Some p =>
          if bool_decide (name = "__proto__") then c
          else mkCaches (<[name := p]> (execPathCache c)) (cachedHomePath c)
                        (cachedTmpPath c) (cachedGitPath c)
                        (cachedNodePath c) (cachedNpmPath c)
      | None => c
      end
  | SlotHome =>
      mkCaches (execPathCache c) v (cachedTmpPath c) (cachedGitPath c)
               (cachedNodePath c) (cachedNpmPath c)
  | SlotTmp =>
      mkCaches (execPathCache c) (cachedHomePath c) v (cachedGitPath c)
               (cachedNodePath c) (cachedNpmPath c)
  | SlotGit =>
      mkCaches (execPathCache c) (cachedHomePath c) (cachedTmpPath c) v
               (cachedNodePath c) (cachedNpmPath c)
  | SlotNode =>
      mkCaches (execPathCache c) (cachedHomePath c) (cachedTmpPath c)
               (cachedGitPath c) v (cachedNpmPath c)
  | SlotNpm =>
      mkCaches (execPathCache c) (cachedHomePath c) (cachedTmpPath c)
               (cachedGitPath c) (cachedNodePath c) v
  end.

Definition readSlot (s : Slot) : M (option string) :=
  c <- getCaches ;; emit (EvCacheRead s) ;;; ret (slot_get s c).

Definition writeSlot (s : Slot) (v : option string) : M unit :=
  c <- getCaches ;; setCaches (slot_put s v c) ;;; emit (EvCacheWrite s v).

(** [if ( opts.cache == null )  opts.cache = true] *)
Definition cacheOn (opts : Opts) : bool := default true (o_cache opts).

(** [a || b || null]: the first truthy value, else [null]. *)
Definition firstTruthy (vs : list (option string)) : option string :=
  let v := foldr Js.or_else None vs in
  if Js.truthy_opt v then v else None.

(** [getHomePath(opts, next)], as the value [next] receives. *)
Definition homePath (w : World) (opts : Opts) : M (option string) :=
  let cache := cacheOn opts in
  cached <- (if cache then readSlot SlotHome else ret None) ;;
  if cache && Js.truthy_opt cached then ret cached
  else
    let homePath := firstTruthy [getenv w "USERPROFILE"; getenv w "HOME"] in
    (if cache then writeSlot SlotHome homePath else ret tt) ;;;
    ret homePath.

Definition getHomePath (w : World) (opts : Opts) : M (Reply * list Reply) :=
  homePath <- homePath w opts ;; ret (ReplyPath (PStr <$> homePath), []).

(** [pathUtil.resolve(homePath, tmpDirName)]: a [null] argument throws. *)
Definition resolveIn (w : World) (dir : option string) (name : string)
    : M string :=
  match dir with
  | Some d => ret (path_resolve w [d; name])
  | None => throw (typeError "Arguments to path.resolve must be strings")
  end.

(** [getTmpPath(opts, next)]; when nothing is found [next] is called with
    the error and, as there is no [return], the code after it runs too. *)
Definition getTmpPath (w : World) (opts : Opts) : M (Reply * list Reply) :=
  let cache := cacheOn opts in
  cached <- (if cache then readSlot SlotTmp else ret None) ;;
  if cache && Js.truthy_opt cached then ret (ReplyPath (PStr <$> cached), [])
  else
    let tmpDirName := if isWindows w then "temp" else "tmp" in
    let tmpPath :=
      firstTruthy [getenv w "TMPDIR"; getenv w "TMP"; getenv w "TEMP"] in
    tmpPath <-
      (if Js.truthy_opt tmpPath then ret tmpPath
       else
         homePath <- homePath w opts ;;
         tmpPath <- resolveIn w homePath tmpDirName ;;
         if Js.truthy tmpPath then ret (Some tmpPath)
         else if isWindows w then
           ret (Some (path_resolve w
                  [default "C:\Windows" (Js.or_else (getenv w "windir")
                                                    (Some "C:\Windows"));
                   tmpDirName]))
         else ret (Some "/tmp")) ;;
    (if cache then writeSlot SlotTmp tmpPath else ret tt) ;;;
    if Js.truthy_opt tmpPath then ret (ReplyPath (PStr <$> tmpPath), [])
    else ret (ReplyErr (newError "Wan't able to find a temporary path"),
              [ReplyPath (PStr <$> tmpPath)]).

(** The callback the tool resolvers give to [determineExecPath]: fail with
    [notFound] when nothing verified, else write the cache (when enabled)
    and hand the path on. *)
Definition located (opts : Opts) (slot : Slot) (notFound : string)
    (execPath : option string) : M (Reply * list Reply) :=
  if negb (Js.truthy_opt execPath) then ret (ReplyErr (newError notFound), [])
  else
    (if cacheOn opts then writeSlot slot execPath else ret tt) ;;;
    ret (ReplyPath (PStr <$> execPath), []).

(** [if ( v )  possibleExecPaths.push(v)] *)
Definition pushIf (v : option string) : list string :=
  match v with
  | Some s => if Js.truthy s then [s] else []
  | None => []
  end.

(** The search shared by the resolvers: build the candidates, run
    [determineExecPath] on them, and treat what it found with [located]. *)
Definition locate (w : World) (opts : Opts) (slot : Slot)
    (notFound : string) (possibleExecPaths : M (list string))
    : M (Reply * list Reply) :=
  possibleExecPaths <- possibleExecPaths ;;
  execPath <- determineExecPath w possibleExecPaths opts ;;
  located opts slot notFound execPath.

(** A resolver with a single-slot cache: answer from the slot when caching
    is on and the slot is truthy, else search. *)
Definition cachedOr (w : World) (opts : Opts) (slot : Slot)
    (notFound : string) (possibleExecPaths : M (list string))
    : M (Reply * list Reply) :=
  let cache := cacheOn opts in
  cached <- (if cache then readSlot slot else ret None) ;;
  if cache && Js.truthy_opt cached then ret (ReplyPath (PStr <$> cached), [])
  else locate w opts slot notFound possibleExecPaths.

(** [getGitPath(opts, next)] *)
Definition getGitPath (w : World) (opts : Opts) : M (Reply * list Reply) :=
  cachedOr w opts SlotGit "Could not locate git binary"
    (let execName := if isWindows w then "git.exe" else "git" in
     standard <- getStandardExecPaths w execName ;;
     ret (pushIf (getenv w "GIT_PATH") ++ pushIf (getenv w "GITPATH")
          ++ standard
          ++ (if isWindows w then
                [ "/Program Files (x64)/Git/bin/" +:+ execName;
                  "/Program Files (x86)/Git/bin/" +:+ execName;
                  "/Program Files/Git/bin/" +:+ execName ]
              else
                [ "/usr/local/bin/" +:+ execName;
                  "/usr/bin/" +:+ execName;
                  "~/bin/" +:+ execName ]))).

(** [/node(.exe)?$/] on [process.execPath]: the length of the match at the
    end of the string, if there is one ([.] is any code unit but a line
    terminator). *)
Definition nodeSuffix (p : string) : option nat :=
  match String.rev p with
  | String "e" (String "d" (String "o" (String "n" _))) => Some 4%nat
  | String "e" (String "x" (String "e" (String c
      (String "e" (String "d" (String "o" (String "n" _))))))) =>
      if Ascii.eqb c "010" || Ascii.eqb c "013" then None else Some 8%nat
  | _ => None
  end%char.

(** [p.replace(/node(.exe)?$/, by)] when the pattern matches [k] units. *)
Definition replaceSuffix (k : nat) (by_ p : string) : string :=
  String.substring 0 (String.length p - k) p +:+ by_.

(** [getNodePath(opts, next)] *)
Definition getNodePath (w : World) (opts : Opts) : M (Reply * list Reply) :=
  cachedOr w opts SlotNode "Could not locate node binary"
    (let execName := if isWindows w then "node.exe" else "node" in
     standard <- getStandardExecPaths w execName ;;
     ret (pushIf (getenv w "NODE_PATH") ++ pushIf (getenv w "NODEPATH")
          ++ (if nodeSuffix (execPath w) is Some _ then [execPath w] else [])
          ++ standard
          ++ (if isWindows w then
                [ "/Program Files (x64)/nodejs/" +:+ execName;
                  "/Program Files (x86)/nodejs/" +:+ execName;
                  "/Program Files/nodejs/" +:+ execName ]
              else
                [ "/usr/local/bin/" +:+ execName;
                  "/usr/bin/" +:+ execName;
                  "~/bin/" +:+ execName ]))).

(** [getNpmPath(opts, next)] *)
Definition getNpmPath (w : World) (opts : Opts) : M (Reply * list Reply) :=
  cachedOr w opts SlotNpm "Could not locate npm binary"
    (let execName := if isWindows w then "npm.cmd" else "npm" in
     standard <- getStandardExecPaths w execName ;;
     ret (pushIf (getenv w "NPM_PATH") ++ pushIf (getenv w "NPMPATH")
          ++ match nodeSuffix (execPath w) with
             | Some k => [replaceSuffix k execName (execPath w)]
             | None => []
             end
          ++ standard
          ++ (if isWindows w then
                [ "/Program Files (x64)/nodejs/" +:+ execName;
                  "/Program Files (x86)/nodejs/" +:+ execName;
                  "/Program Files/nodejs/" +:+ execName ]
              else
                [ "/usr/local/bin/" +:+ execName;
                  "/usr/bin/" +:+ execName;
                  "~/node_modules/.bin/" +:+ execName ]))).

(** [execName.substr(0, 1) === '/' || execName.substr(1, 1) === ':'] *)
Definition isAbsolute (execName : string) : bool :=
  bool_decide (Js.substr1 0 execName = "/")
  || bool_decide (Js.substr1 1 execName = ":").

(** The members of [safeps] whose name is [get<Something>Path]. *)
Inductive Special := SpExec | SpHome | SpTmp | SpGit | SpNode | SpNpm.

(** [safeps[getExecMethodName]] *)
Definition specialMethod (getExecMethodName : string) : option Special :=
  if bool_decide (getExecMethodName = "getExecPath") then Some SpExec
  else if bool_decide (getExecMethodName = "getHomePath") then Some SpHome
  else if bool_decide (getExecMethodName = "getTmpPath") then Some SpTmp
  else if bool_decide (getExecMethodName = "getGitPath") then Some SpGit
  else if bool_decide (getExecMethodName = "getNodePath") then Some SpNode
  else if bool_decide (getExecMethodName = "getNpmPath") then Some SpNpm
  else None.

(** ['get' + execName[0].toUpperCase() + execName.substr(1) + 'Path'];
    [execName[0]] of the empty string is [undefined]. *)
Definition getExecMethodName (execName : string) : M string :=
  match execName with
  | EmptyString =>
      throw (typeError "Cannot read property 'toUpperCase' of undefined")
  | String c rest => ret ("get" +:+ String (Js.upper c) rest +:+ "Path")
  end.

(** [opts.cache && safeps.execPathCache[execName]] *)
Definition readExecPathCache (opts : Opts) (execName : string)
    : M (option PathVal) :=
  if cacheOn opts then
    c <- getCaches ;;
    emit (EvCacheRead (SlotExec execName)) ;;;
    ret (execPathCache_get c execName)
  else ret None.

Definition notLocated (execName : string) : string :=
  "Could not locate the " +:+ execName +:+ " executable path".

(** The [else] branch of [getExecPath]: cache, candidates, verification. *)
Definition getExecPath_generic (w : World) (execName : string) (opts : Opts)
    : M (Reply * list Reply) :=
  cached <- readExecPathCache opts execName ;;
  if pathVal_truthy cached then ret (ReplyPath cached, [])
  else
    locate w opts (SlotExec execName) (notLocated execName)
      (getPossibleExecPaths w execName).

(** [getExecPath(execName, opts, next)].  The method found for the name
    [exec] is [getExecPath] itself, called with [opts] in the place of the
    name: [execName.substr] is then not a function. *)
Definition getExecPath (w : World) (execName : string) (opts : Opts)
    : M (Reply * list Reply) :=
  if isAbsolute execName then ret (ReplyPath (Some (PStr execName)), [])
  else
    getExecMethodName <- getExecMethodName execName ;;
    match specialMethod getExecMethodName with
    | Some SpExec => throw (typeError "execName.substr is not a function")
    | Some SpHome => getHomePath w opts
    | Some SpTmp => getTmpPath w opts
    | Some SpGit => getGitPath w opts
    | Some SpNode => getNodePath w opts
    | Some SpNpm => getNpmPath w opts
    | None => getExecPath_generic w execName opts
    end.

(* ===================================================================== *)
(** ** Spawn *)
(* ===================================================================== *)

(** A command is a command line or an argv array. *)
Inductive Command :=
| CmdString (line : string)
| CmdArray (argv : list string).

(** [if ( typeChecker.isString(command) )  command = command.split(' ')] *)
Definition normalizeCommand (command : Command) : list string :=
  match command with
  | CmdString line => Js.split " "%char line
  | CmdArray argv => argv
  end.

(** [command[0]] and [command.slice(1)] *)
Definition executableName (argv : list string) : option string := head argv.
Definition arguments (argv : list string) : list string := tail argv.

(** What the completion callback receives:
    [next(error, stdout, stderr, status, signal)]. *)
Record Outcome := mkOutcome {
  c_error : option JsError;
  c_stdout : option Data;
  c_stderr : option Data;
  c_status : option Z;
  c_signal : option string
}.

Definition callbackArgs (err : option JsError) (result : ExecResult)
    : Outcome :=
  mkOutcome (match err with Some e => Some e | None => error result end)
            (stdout result) (stderr result) (status result) (signal result).

(** Run [m]; a throw becomes a value. *)
Definition try_ {A} (m : M A) : M (JsError + A) := λ c,
  let r := m c in
  mkRun (Ok (match value r with Ok a => inr a | Throw e => inl e end))
        (store r) (events r).

(** The callback [spawnSync] gives to [getExecPath], run on each call:
    [if ( err )  return; command[0] = execPath; wasSync = 1]. *)
Definition syncResolved (replies : Reply * list Reply)
    (file : option PathVal) : option PathVal * bool :=
  foldl (λ acc reply,
           match reply with
           | ReplyErr _ => acc
           | ReplyPath execPath => (execPath, true)
           end)
        (file, false) (replies.1 :: replies.2).

(** [getExecPath(command[0], ...)]: [command[0]] of an empty array is
    [undefined], and [undefined.substr] throws. *)
Definition getExecPathOf (w : World) (file : option string) (opts : Opts)
    : M (Reply * list Reply) :=
  match file with
  | Some execName => getExecPath w execName opts
  | None => throw (typeError "Cannot read property 'substr' of undefined")
  end.

(** [child_process.spawnSync(command[0], command.slice(1), opts)]; the file
    has to be a string. *)
Definition childSpawnSync (w : World) (file : option PathVal)
    (args : list string) : M ExecResult :=
  match file with
  | Some (PStr f) => emit (EvSpawn f args) ;;; ret (cp_spawnSync w f args)
  | _ => throw (typeError "Bad argument")
  end.

Definition setSync (opts : Opts) : Opts :=
  mkOpts (o_stdin opts) (o_stdio opts) (o_safe opts) (o_read opts)
         (o_output opts) (o_outputPrefix opts) (o_env opts) (o_cache opts)
         (Some true) (o_concurrency opts).

(** [spawnSync(command, opts, next)]: the finalized result, which is
    returned, or spread over the arguments of [next]. *)
Definition spawnSync (w : World) (command : Command) (opts : Opts)
    : M ExecResult :=
  let opts := setSync (prepareExecutableOptions w opts) in
  let command := normalizeCommand command in
  file <-
    (if flag (o_safe opts) then
       replies <- getExecPathOf w (executableName command) opts ;;
       let '(file, wasSync) :=
         syncResolved replies (PStr <$> executableName command) in
       (if wasSync then ret tt
        else write ChStderr
          "safeps.spawnSync: was unable to get the executable path synchronously") ;;;
       ret file
     else ret (PStr <$> executableName command)) ;;
  result <- childSpawnSync w file (arguments command) ;;
  updateExecutableResult result opts.

(** The state of one non-blocking [spawn]: the [result] object, the [opts]
    object (which the close handler writes to), the [exited] flag, and the
    calls made to [next] so far. *)
Record SpawnState := mkSpawn {
  s_result : ExecResult;
  s_opts : Opts;
  s_exited : bool;
  s_calls : list Outcome
}.

Definition emptyResult : ExecResult := mkResult None None None None None None.

(** [result.stdout = result.stdout ? Buffer.concat([result.stdout, data]) : data],
    and the same for stderr. *)
Definition accumulate (old : option Data) (data : Data) : option Data :=
  match old with
  | Some o => if data_truthy o then Some (data_concat o data) else Some data
  | None => Some data
  end.

Definition capture (ch : Channel) (data : Data) (r : ExecResult)
    : ExecResult :=
  match ch with
  | ChStdout =>
      mkResult (pid r) (accumulate (stdout r) data) (stderr r) (status r)
               (signal r) (error r)
  | ChStderr =>
      mkResult (pid r) (stdout r) (accumulate (stderr r) data) (status r)
               (signal r) (error r)
  end.

(** The ['data'] listeners of the child's streams. *)
Definition onData (ch : Channel) (data : Data) (s : SpawnState)
    : M SpawnState :=
  (if flag (o_output (s_opts s))
   then outputData (Some data) ch (o_outputPrefix (s_opts s))
   else ret tt) ;;;
  ret (mkSpawn (capture ch data (s_result s)) (s_opts s) (s_exited s)
               (s_calls s)).

(** The completion listener of the task group of [spawn]:
    [exited = true; closeProcess(); next(err || result.error, ...)]. *)
Definition tasksDone (err : option JsError) (s : SpawnState) : SpawnState :=
  mkSpawn (s_result s) (s_opts s) true
          (s_calls s ++ [callbackArgs err (s_result s)]).

Definition setOutput (opts : Opts) (b : option bool) : Opts :=
  mkOpts (o_stdin opts) (o_stdio opts) (o_safe opts) (o_read opts) b
         (o_outputPrefix opts) (o_env opts) (o_cache opts) (o_sync opts)
         (o_concurrency opts).

(** The ['close'] listener of the child. *)
Definition onClose (st : option Z) (sg : option string) (s : SpawnState)
    : M SpawnState :=
  let result :=
    mkResult (pid (s_result s)) (stdout (s_result s)) (stderr (s_result s))
             st sg (error (s_result s)) in
  if s_exited s then ret (mkSpawn result (s_opts s) (s_exited s) (s_calls s))
  else
    let opts := setOutput (s_opts s) (Some false) in
    result <- updateExecutableResult result opts ;;
    ret (tasksDone (error result) (mkSpawn result opts (s_exited s) (s_calls s))).

(** An ['error'] raised while the task of the child runs: the task, and
    with it the group, ends with that error, so the completion listener
    calls [next] with it and with the result as it stands.  The listener is
    attached with [done], which fires once: an error that comes when the
    group has ended calls nothing. *)
Definition onError (err : JsError) (s : SpawnState) : M SpawnState :=
  if s_exited s then ret s else ret (tasksDone (Some err) s).

(** The child's events, delivered in order to the listeners; the stream
    listeners are only there when [opts.read] is set. *)
Fixpoint childEvents (evs : list ChildEvent) (s : SpawnState)
    : M SpawnState :=
  match evs with
  | [] => ret s
  | ChildData ch data :: rest =>
      s <- (if flag (o_read (s_opts s)) then onData ch data s else ret s) ;;
      childEvents rest s
  | ChildClose st sg :: rest =>
      s <- onClose st sg s ;; childEvents rest s
  | ChildError err :: rest =>
      s <- onError err s ;; childEvents rest s
  end.

(** [child_process.spawn(command[0], command.slice(1), opts)] *)
Definition childSpawn (w : World) (file : option PathVal)
    (args : list string) : M (list ChildEvent) :=
  match file with
  | Some (PStr f) => emit (EvSpawn f args) ;;; ret (cp_spawn w f args)
  | _ => throw (typeError "Bad argument")
  end.

(** [result.pid.stdin]: the child has a stdin stream unless [stdio] gives
    it something else than a pipe. *)
Definition hasStdin (opts : Opts) : bool :=
  match o_stdio opts with
  | Some stdio => negb (Js.truthy stdio) || bool_decide (stdio = "pipe")
  | None => true
  end.

(** [if ( opts.stdin && result.pid.stdin )]: write the text and end the
    stream. *)
Definition writeStdin (opts : Opts) : M unit :=
  match o_stdin opts with
  | Some text =>
      if Js.truthy text && hasStdin opts then emit (EvStdin text) else ret tt
  | None => ret tt
  end.

(** [spawn(command, opts, next)]: the calls made to [next].  The two tasks
    of the group run one after the other; a task that throws or completes
    with an error ends the group with that error.  Waiting for a slot of the
    global pool only delays the start and is not modelled. *)
Definition spawn (w : World) (command : Command) (opts : Opts)
    : M (list Outcome) :=
  let opts := prepareExecutableOptions w opts in
  if flag (o_sync opts) then
    result <- spawnSync w command opts ;; ret [callbackArgs None result]
  else
    let command := normalizeCommand command in
    let s := mkSpawn emptyResult opts false [] in
    resolved <-
      (if flag (o_safe opts) then
         found <- try_ (getExecPathOf w (executableName command) opts) ;;
         match found with
         | inl err => ret (inl err)
         | inr (ReplyErr err, _) => ret (inl err)
         | inr (ReplyPath execPath, _) => ret (inr execPath)
         end
       else ret (inr (PStr <$> executableName command))) ;;
    match resolved with
    | inl err => ret (s_calls (tasksDone (Some err) s))
    | inr file =>
        child <- try_ (childSpawn w file (arguments command)) ;;
        match child with
        | inl err => ret (s_calls (tasksDone (Some err) s))
        | inr evs =>
            writeStdin opts ;;; s <- childEvents evs s ;; ret (s_calls s)
        end
    end.

(* ===================================================================== *)
(** ** Exec *)
(* ===================================================================== *)

(** [if ( opts.output === true && !opts.outputPrefix )] the child inherits
    the parent's streams and nothing is mirrored. *)
Definition inheritOutput (opts : Opts) : Opts :=
  if bool_decide (o_output opts = Some true)
     && negb (Js.truthy_opt (o_outputPrefix opts))
  then mkOpts (o_stdin opts) (Some "inherit") (o_safe opts) (o_read opts)
              None (o_outputPrefix opts) (o_env opts) (o_cache opts)
              (o_sync opts) (o_concurrency opts)
  else opts.

(** [execSync(command, opts, next)] *)
Definition execSync (w : World) (command : string) (opts : Opts)
    : M ExecResult :=
  let opts := inheritOutput (setSync (prepareExecutableOptions w opts)) in
  let result :=
    match cp_execSync w command with
    | inr out => mkResult None out None None None None
    | inl err => mkResult None None None None None (Some err)
    end in
  updateExecutableResult result opts.

(** [exec(command, opts, next)]: the calls made to [next]. *)
Definition exec (w : World) (command : string) (opts : Opts)
    : M (list Outcome) :=
  let opts := prepareExecutableOptions w opts in
  if flag (o_sync opts) then
    result <- execSync w command opts ;; ret [callbackArgs None result]
  else
    let opts := inheritOutput opts in
    let reply := cp_exec w command in
    let result :=
      mkResult None (x_stdout reply) (x_stderr reply) None None
               (x_error reply) in
    result <- updateExecutableResult result opts ;;
    ret [callbackArgs None result].

(* ===================================================================== *)
(** ** Batches *)
(* ===================================================================== *)

(** The part of the [taskgroup] package that the batch runners rely on: a
    group holds the items not yet started and the items in flight; it
    starts items in the order they were added while a slot is free
    ([concurrency] 0 is "no bound"); an item completes at a moment the
    group does not choose; the first error an item completes with is kept,
    and from then on nothing more is started ([onError: 'exit'], the
    default); the group is done when nothing is in flight and nothing more
    is to be started.

    The batch runners add one item per command.  An item runs the command
    and, when the command calls back with [args], does
    [results.push(args); complete(args[0] || null)]. *)
Section Batch.

Context {Cmd Args : Type}.

(** What the invocation of a command calls back with, and [args[0]]. *)
Variable invoke : Cmd → Args.
Variable failure : Args → option JsError.

Record Group := mkGroup {
  remaining : list Cmd;
  running : list Cmd;
  groupError : option JsError;
  results : list Args
}.

Definition hasSlots (concurrency : nat) (g : Group) : bool :=
  (concurrency =? 0)%nat || (length (running g) <? concurrency)%nat.

Definition shouldPause (g : Group) : bool :=
  match groupError g with Some _ => true | None => false end.

(** Start items while the group may: not paused, something remaining, a
    slot free. *)
Fixpoint fireNextItems (concurrency : nat) (todo : list Cmd) (g : Group)
    : Group :=
  match todo with
  | [] => mkGroup [] (running g) (groupError g) (results g)
  | item :: rest =>
      if negb (shouldPause g) && hasSlots concurrency g
      then fireNextItems concurrency rest
             (mkGroup rest (running g ++ [item]) (groupError g) (results g))
      else mkGroup todo (running g) (groupError g) (results g)
  end.

Definition fire (concurrency : nat) (g : Group) : Group :=
  fireNextItems concurrency (remaining g) g.

(** The [i]-th item in flight calls back. *)
Definition itemCompleted (concurrency : nat) (i : nat) (g : Group)
    : Group :=
  match running g !! i with
  | None => g
  | Some command =>
      let args := invoke command in
      let results := results g ++ [args] in
      let err :=
        match groupError g with
        | Some e => Some e
        | None => failure args
        end in
      fire concurrency
        (mkGroup (remaining g) (delete i (running g)) err results)
  end.

(** Run the group to its end.  [choose n k] is the position, among the
    [k] items in flight, of the one that completes at step [n]: every
    completion order is some [choose]. *)
Fixpoint runGroup (concurrency : nat) (choose : nat → nat → nat)
    (fuel : nat) (step : nat) (g : Group) : Group :=
  match fuel with
  | O => g
  | S fuel =>
      match running g with
      | [] => g
      | _ :: _ =>
          let i := (choose step (length (running g))
                    `mod` length (running g))%nat in
          runGroup concurrency choose fuel (S step)
            (itemCompleted concurrency i g)
      end
  end.

(** The body shared by [spawnMultiple] and [execMultiple]: what the
    completion listener of the group passes on, [next(err, results)]. *)
Definition runMultiple (commands : list Cmd) (concurrency : option nat)
    (choose : nat → nat → nat) : option JsError * list Args :=
  let concurrency := default 1%nat concurrency in
  let g :=
    runGroup concurrency choose (length commands) 0%nat
      (fire concurrency (mkGroup commands [] None [])) in
  (groupError g, results g).


End Batch.

(** [commands] is an array of commands, or one command line:
    [if ( !typeChecker.isArray(commands) )  commands = [commands]]. *)
Inductive Commands (Cmd : Type) :=
| OneCommand (line : string)
| ManyCommands (commands : list Cmd).
Arguments OneCommand {Cmd} line.
Arguments ManyCommands {Cmd} commands.

Definition commandList {Cmd} (ofLine : string → Cmd)
    (commands : Commands Cmd) : list Cmd :=
  match commands with
  | OneCommand line => [ofLine line]
  | ManyCommands commands => commands
  end.

(** [spawnMultiple(commands, opts, next)]; [spawned] is what [safeps.spawn]
    calls back with for a command. *)
Definition spawnMultiple (spawned : Command → Outcome)
    (commands : Commands Command) (opts : Opts) (choose : nat → nat → nat)
    : option JsError * list Outcome :=
  runMultiple spawned c_error (commandList CmdString commands)
    (o_concurrency opts)
    choose.


(* ===================================================================== *)
(** ** Notions used in the statements *)
(* ===================================================================== *)

(** The error a failed probe reports, in each of the two forms. *)
Definition probeError (w : World) (path : string) : option JsError :=
  x_error (cp_exec w (path +:+ " --version")).

Definition probeSyncError (w : World) (path : string) : option JsError :=
  match cp_execSync w (path +:+ " --version") with
  | inl err => Some err
  | inr _ => None
  end.

(** [pat] occurs in [s]. *)
Definition occursIn (pat s : string) : Prop :=
  ∃ before after, s = before +:+ pat +:+ after.

(** The exit code of a command that failed, read where [child_process]
    puts it: [exec] hands it over as [err.code], [execSync] as
    [err.status]. *)
Definition exitCode (blocking : bool) (err : JsError) : option Z :=
  if blocking then err_status err
  else match code err with CodeNum n => Some n | _ => None end.

(** What the probe takes for "could not be run": the number 127 as
    [err.code], or a message that holds [EACCESS] or [Permission denied]. *)
Definition couldNotRun (err : JsError) : Prop :=
  code err = CodeNum 127
  ∨ occursIn "EACCESS" (message err)
  ∨ occursIn "Permission denied" (message err).

(** The statement of the specification for a command line, "split on
    whitespace": the tokens are the maximal runs of characters that are not
    white space. *)
Fixpoint whitespaceTokens_from (cur : string) (line : string) : list string :=
  let flush := if Js.is_empty cur then [] else [String.rev cur] in
  match line with
  | EmptyString => flush
  | String c rest =>
      if Js.is_white c then flush ++ whitespaceTokens_from EmptyString rest
      else whitespaceTokens_from (String c cur) rest
  end.

Definition whitespaceTokens (line : string) : list string :=
  whitespaceTokens_from EmptyString line.

(** [tokens.join(' ')] *)
Fixpoint joinSpace (tokens : list string) : string :=
  match tokens with
  | [] => EmptyString
  | [t] => t
  | t :: rest => t +:+ " " +:+ joinSpace rest
  end.

(** The part of [updateExecutableResult] after the mirroring. *)
Definition classify (result : ExecResult) : ExecResult :=
  match error result with
  | Some _ => result
  | None =>
      if failedStatus (status result)
      then setError result (Some (newError (statusMessage result)))
      else result
  end.

(** A computation that touches no cache and emits nothing. *)
Definition pureM {A} (m : M A) : Prop := ∃ v, ∀ c, m c = mkRun v c [].

(** The standard path of a directory: [path.join(dir, execName)], or the
    directory itself when there is no name. *)
Definition standardPath (w : World) (execName dir : string) : string :=
  if Js.truthy execName then path_join w dir execName else dir.

(** The first candidate, in list order, that the verifier accepts.  A
    candidate is made absolute with [path.resolve] before it is tested, and
    it is in that form that it is returned. *)
Fixpoint firstVerified (w : World) (opts : Opts) (candidates : list string)
    : option string :=
  match candidates with
  | [] => None
  | candidate :: rest =>
      if Js.truthy candidate && verdict w opts (path_resolve w [candidate])
      then Some (path_resolve w [candidate])
      else firstVerified w opts rest
  end.

(** The slots that hold the path of an executable. *)
Definition executableSlot (s : Slot) : bool :=
  match s with
  | SlotExec _ | SlotGit | SlotNode | SlotNpm => true
  | SlotHome | SlotTmp => false
  end.

(** Events that only read a cache or write the home or temp slot. *)
Definition homeTmpOnly (e : Event) : bool :=
  match e with
  | EvCacheRead _ => true
  | EvCacheWrite s _ => negb (executableSlot s)
  | _ => false
  end.

(** Every write, to a slot selected by [only], of a run stores a path that
    the verifier accepted earlier in that run; [seen] are the paths accepted
    so far. *)
Fixpoint writesVerified (only : Slot → bool) (seen : list string)
    (evs : list Event) : bool :=
  match evs with
  | [] => true
  | EvVerify path true :: rest => writesVerified only (path :: seen) rest
  | EvCacheWrite s v :: rest =>
      (negb (only s)
       || match v with
          | Some path => bool_decide (path ∈ seen)
          | None => false
          end)
      && writesVerified only seen rest
  | _ :: rest => writesVerified only seen rest
  end.

Definition isVerify (e : Event) : bool :=
  match e with EvVerify _ _ => true | _ => false end.

(** The events of a child up to the ['close'] that ends its run.  When an
    ['error'] has ended the run first, the ['close'] handler finds the run
    over and leaves everything as it is, so no event that follows is cut
    off. *)
Fixpoint beforeClose (evs : list ChildEvent) : list ChildEvent :=
  match evs with
  | ChildData ch data :: rest => ChildData ch data :: beforeClose rest
  | ChildError err :: rest => ChildError err :: rest
  | _ => []
  end.

(** What reaches the parent's streams when an event of the child arrives
    under [opts]: a chunk that is not blank is written once, with the
    prefix on every line when there is one. *)
Definition mirrored (opts : Opts) (ev : ChildEvent) : list Event :=
  match ev with
  | ChildData ch data =>
      if flag (o_read opts) && flag (o_output opts)
         && negb (Js.is_empty (Js.trim (data_toString data)))
      then
        [EvWrite ch
           (if Js.truthy_opt (o_outputPrefix opts)
            then prefixData (Some data) (default EmptyString (o_outputPrefix opts))
            else data_toString data)]
      else []
  | ChildClose _ _ => []
  | ChildError _ => []
  end.

Section BatchNotions.

Context {Cmd Args : Type}.
Variable invoke : Cmd → Args.
Variable failure : Args → option JsError.

(** The commands a strictly sequential batch gets to run: all of them up
    to and including the first one that fails. *)
Fixpoint throughFirstFailure (commands : list Cmd) : list Cmd :=
  match commands with
  | [] => []
  | command :: rest =>
      match failure (invoke command) with
      | Some _ => [command]
      | None => command :: throughFirstFailure rest
      end
  end.

(** The first error in a list of outcomes. *)
Fixpoint firstFailure (outcomes : list Args) : option JsError :=
  match outcomes with
  | [] => None
  | args :: rest =>
      match failure args with
      | Some e => Some e
      | None => firstFailure rest
      end
  end.

(** The error of the group is the first error among the outcomes
    collected so far, in the order they were collected. *)
Definition errorIsFirst (g : @Group Cmd Args) : Prop :=
  groupError g = firstFailure (results g).

End BatchNotions.

(* ===================================================================== *)
(** ** A small POSIX world, for examples *)
(* ===================================================================== *)

(** [/usr/bin/ls] and [/opt/tools/bin/deploy] are executable, nothing else
    is; [PATH] is [/usr/bin:/opt/tools/bin]; the home is [/home/u]. *)
Definition posixJoin (dir name : string) : string := dir +:+ "/" +:+ name.

Definition posixResolve (segments : list string) : string :=
  foldl (λ acc seg,
           if Js.starts_with "/" seg then seg
           else if Js.is_empty seg then acc
           else acc +:+ "/" +:+ seg)
        "/work" segments.

Definition posixExecutable (path : string) : bool :=
  bool_decide (path = "/usr/bin/ls")
  || bool_decide (path = "/opt/tools/bin/deploy").

Definition outcomeOf (line : string) : Outcome :=
  mkOutcome None (Some (Buffer line)) None (Some 0) None.

Definition posixWorld : World :=
  mkWorld "linux"
    (<["PATH" := "/usr/bin:/opt/tools/bin"]> (<["HOME" := "/home/u"]> ∅))
    "/work" "/usr/bin/node" ":"%char posixJoin posixResolve
    (Some posixExecutable) (Some posixExecutable)
    (λ _, mkExecReply None None None)
    (λ _, inr None)
    (λ _ _, mkResult (Some 1) (Some (Buffer "")) (Some (Buffer "")) (Some 0)
                     None None)
    (λ _ _, [ChildClose (Some 0) None]).

(** The same machine on a Node without [fs.access]: the verifier probes.
    Launching anything but [/usr/bin/ls] fails in the shell, which exits
    with 127; [exec] reports that as [err.code], [execSync] as
    [err.status]. *)
Definition shimWorld : World :=
  mkWorld "linux"
    (<["PATH" := "/usr/bin:/opt/tools/bin"]> (<["HOME" := "/home/u"]> ∅))
    "/work" "/usr/bin/node" ":"%char posixJoin posixResolve
    None None
    (λ cmd, if bool_decide (cmd = "/usr/bin/ls --version")
            then mkExecReply None None None
            else mkExecReply
                   (Some (mkError ("Command failed: " +:+ cmd) (CodeNum 127)
                                  None))
                   None None)
    (λ cmd, if bool_decide (cmd = "/usr/bin/ls --version")
            then inr None
            else inl (mkError ("Command failed: " +:+ cmd) CodeNone
                              (Some 127)))
    (λ _ _, mkResult (Some 1) (Some (Buffer "")) (Some (Buffer "")) (Some 0)
                     None None)
    (λ _ _, [ChildClose (Some 0) None]).

(** [path.join] of a Windows directory and a name. *)
Definition win32Join (dir name : string) : string :=
  if Js.starts_with "\" name then dir +:+ name else dir +:+ "\" +:+ name.

(** A Windows machine with two [PATH] entries and no program on it. *)
Definition windowsWorld : World :=
  mkWorld "win32"
    (<["PATH" := "C:\bin;C:\tools"]> ∅)
    "C:\work" "C:\node\node.exe" ";"%char
    win32Join (λ segments, default "C:\work" (last segments))
    (Some (λ _, false)) (Some (λ _, false))
    (λ _, mkExecReply None None None)
    (λ _, inr None)
    (λ _ _, emptyResult)
    (λ _ _, []).

(** The same machine with [PATH] deleted from the environment. *)
Definition pathlessWindows : World :=
  mkWorld "win32" ∅
    "C:\work" "C:\node\node.exe" ";"%char
    win32Join (λ segments, default "C:\work" (last segments))
    (Some (λ _, false)) (Some (λ _, false))
    (λ _, mkExecReply None None None)
    (λ _, inr None)
    (λ _ _, emptyResult)
    (λ _ _, []).

(* ===================================================================== *)
(** ** Further notions: what a resolution touches *)
(* ===================================================================== *)

(** The cache slots that belong to a name: the slot of its own resolver
    (the temp resolver also asks the home resolver), or its entry of
    [execPathCache]. *)
Definition slotsOf (execName : string) (s : Slot) : bool :=
  match execName with
  | EmptyString => false
  | String c rest =>
      match specialMethod ("get" +:+ String (Js.upper c) rest +:+ "Path") with
      | Some SpExec => false
      | Some SpHome => match s with SlotHome => true | _ => false end
      | Some SpTmp => match s with SlotTmp | SlotHome => true | _ => false end
      | Some SpGit => match s with SlotGit => true | _ => false end
      | Some SpNode => match s with SlotNode => true | _ => false end
      | Some SpNpm => match s with SlotNpm => true | _ => false end
      | None =>
          match s with
          | SlotExec n => bool_decide (n = execName)
          | _ => false
          end
      end
  end.

(** What a resolution may do when the slots [own] are its own: verify
    anything; with caching on, read its slots and write them, the path of
    an executable only when it is not empty; nothing else. *)
Definition resolutionEvent (cache : bool) (own : Slot → bool) (e : Event)
    : bool :=
  match e with
  | EvVerify _ _ => true
  | EvCacheRead s => cache && own s
  | EvCacheWrite s v =>
      cache && own s && (negb (executableSlot s) || Js.truthy_opt v)
  | EvWrite _ _ | EvSpawn _ _ | EvStdin _ => false
  end.

(** The caches after the writes of a run, replayed in order. *)
Fixpoint replay (evs : list Event) (c : Caches) : Caches :=
  match evs with
  | [] => c
  | EvCacheWrite s v :: rest => replay rest (slot_put s v c)
  | _ :: rest => replay rest c
  end.

(** A computation whose every change of the caches is in its events. *)
Definition recorded {A} (m : M A) : Prop :=
  ∀ c, store (m c) = replay (events (m c)) c.

(** No entry of [execPathCache] is the empty string. *)
Definition noEmptyEntry (c : Caches) : Prop :=
  ∀ name, execPathCache c !! name ≠ Some EmptyString.

(** The paths [determineExecPath] shows to the verifier: the candidates
    that are not empty, made absolute, up to and including the first one
    that is accepted. *)
Fixpoint testedPaths (w : World) (opts : Opts) (candidates : list string)
    : list string :=
  match candidates with
  | [] => []
  | candidate :: rest =>
      if Js.is_empty candidate then testedPaths w opts rest
      else
        let path := path_resolve w [candidate] in
        if verdict w opts path then [path]
        else path :: testedPaths w opts rest
  end.

(** The machine of [posixWorld] with no [PATH] and no home. *)
Definition bareWorld : World :=
  mkWorld "linux" ∅ "/work" "/usr/bin/node" ":"%char posixJoin posixResolve
    (Some posixExecutable) (Some posixExecutable)
    (λ _, mkExecReply None None None)
    (λ _, inr None)
    (λ _ _, mkResult (Some 1) (Some (Buffer "")) (Some (Buffer "")) (Some 0)
                     None None)
    (λ _ _, [ChildClose (Some 0) None]).

(* ===================================================================== *)
(** ** Further notions: the life of a child *)
(* ===================================================================== *)

(** How the run of a child ends for its parent: with the first ['close']
    or the first ['error'], whichever comes first. *)
Inductive ChildEnd :=
| EndClose (st : option Z) (sg : option string)
| EndError (err : JsError).

Fixpoint firstEnd (evs : list ChildEvent) : option ChildEnd :=
  match evs with
  | [] => None
  | ChildClose st sg :: _ => Some (EndClose st sg)
  | ChildError err :: _ => Some (EndError err)
  | ChildData _ _ :: rest => firstEnd rest
  end.

Definition sameChannel (a b : Channel) : bool :=
  match a, b with
  | ChStdout, ChStdout | ChStderr, ChStderr => true
  | _, _ => false
  end.

(** The chunks a child wrote to one of its streams before its run ended. *)
Fixpoint chunksBefore (ch : Channel) (evs : list ChildEvent) : list Data :=
  match evs with
  | ChildData ch' data :: rest =>
      if sameChannel ch ch' then data :: chunksBefore ch rest
      else chunksBefore ch rest
  | _ => []
  end.

(** The text of a sequence of chunks: nothing when there is no chunk, else
    their contents one after the other. *)
Definition textOf (chunks : list Data) : option string :=
  match chunks with
  | [] => None
  | _ :: _ => Some (foldr (λ d s, data_toString d +:+ s) EmptyString chunks)
  end.

(** The warning of [spawnSync]. *)
Definition syncWarning : string :=
  "safeps.spawnSync: was unable to get the executable path synchronously".

Definition isSpawnEvent (e : Event) : bool :=
  match e with EvSpawn _ _ => true | _ => false end.

(* ===================================================================== *)
(** ** Environments *)
(* ===================================================================== *)

(** The line terminators among the code units below 256: LF and CR.  The
    [.] of a regular expression matches any code unit but these. *)
Definition lineTerminator (c : ascii) : bool :=
  (Ascii.eqb c "010" || Ascii.eqb c "013")%char.

(** What is left of [s] after the longest run [.*] can match at its
    start. *)
Fixpoint afterLine (s : string) : string :=
  match s with
  | String c s' => if lineTerminator c then s else afterLine s'
  | EmptyString => EmptyString
  end.

(** [s.replace(/\..+/, '')]: the first dot that has something after it on
    its line is removed, with the rest of that line. *)
Fixpoint stripEncoding (s : string) : string :=
  match s with
  | EmptyString => EmptyString
  | String c s' =>
      if Ascii.eqb c "."%char then
        match s' with
        | String d _ =>
            if lineTerminator d then String c (stripEncoding s')
            else afterLine s'
        | EmptyString => s
        end
      else String c (stripEncoding s')
  end.

(** [s.replace('-', '_')]: a string pattern replaces its first occurrence
    only. *)
Fixpoint underscoreFirst (s : string) : string :=
  match s with
  | EmptyString => EmptyString
  | String c s' =>
      if Ascii.eqb c "-"%char then String "_"%char s'
      else String c (underscoreFirst s')
  end.

(** [c.toLowerCase()] on one code unit: A-Z are shifted, the Latin-1
    upper-case letters as well; everything else is kept. *)
Definition lower (c : ascii) : ascii :=
  let n := nat_of_ascii c in
  if ((65 <=? n) && (n <=? 90))%nat then ascii_of_nat (n + 32)
  else if ((192 <=? n) && (n <=? 222) && negb (n =? 215))%nat
       then ascii_of_nat (n + 32)
  else c.

(** [s.toLowerCase()] *)
Fixpoint toLowerCase (s : string) : string :=
  match s with
  | EmptyString => EmptyString
  | String c s' => String (lower c) (toLowerCase s')
  end.

(** [v || null] for a string *)
Definition orNull (s : string) : option string :=
  if Js.truthy s then Some s else None.

(** [getLocaleCode(lang)] *)
Definition getLocaleCode (w : World) (lang : option string) : option string :=
  let lang :=
    default EmptyString
      (Js.or_else (Js.or_else lang (getenv w "LANG")) (Some EmptyString)) in
  orNull (toLowerCase (underscoreFirst (stripEncoding lang))).

(** What [[a-z]] matches under the [i] flag: the ASCII letters. *)
Definition letter (c : ascii) : bool :=
  let n := nat_of_ascii c in
  ((65 <=? n) && (n <=? 90) || (97 <=? n) && (n <=? 122))%nat.

(** The letters at the start of [s], and what follows them. *)
Fixpoint lettersPrefix (s : string) : string * string :=
  match s with
  | String c s' =>
      if letter c then
        let '(a, r) := lettersPrefix s' in (String c a, r)
      else (EmptyString, s)
  | EmptyString => (EmptyString, EmptyString)
  end.

(** [s] is made of letters, at least one: [/^[a-z]+$/i]. *)
Fixpoint word (s : string) : bool :=
  match s with
  | EmptyString => false
  | String c EmptyString => letter c
  | String c s' => letter c && word s'
  end.

(** The groups of [/^([a-z]+)[_-]([a-z]+)$/i] on [s], when it matches. *)
Definition localeParts (s : string) : option (string * string) :=
  let '(a, r) := lettersPrefix s in
  match r with
  | String sep b =>
      if (Ascii.eqb sep "_" || Ascii.eqb sep "-")%char && word a && word b
      then Some (a, b) else None
  | EmptyString => None
  end.

(** [getLanguageCode(localeCode)] *)
Definition getLanguageCode (w : World) (localeCode : option string)
    : option string :=
  let localeCode := default EmptyString (getLocaleCode w localeCode) in
  orNull (toLowerCase
            match localeParts localeCode with
            | Some (language, _) => language
            | None => localeCode
            end).

(** [getCountryCode(localeCode)] *)
Definition getCountryCode (w : World) (localeCode : option string)
    : option string :=
  let localeCode := default EmptyString (getLocaleCode w localeCode) in
  orNull (toLowerCase
            match localeParts localeCode with
            | Some (_, country) => country
            | None => localeCode
            end).

(** A word in lower case: [/^[a-z]+$/]. *)
Definition lowerLetter (c : ascii) : bool :=
  let n := nat_of_ascii c in ((97 <=? n) && (n <=? 122))%nat.

Fixpoint lowerWord (s : string) : bool :=
  match s with
  | EmptyString => false
  | String c EmptyString => lowerLetter c
  | String c s' => lowerLetter c && lowerWord s'
  end.

(** No line terminator in [s]. *)
Fixpoint oneLine (s : string) : bool :=
  match s with
  | EmptyString => true
  | String c s' => negb (lineTerminator c) && oneLine s'
  end.

(* ===================================================================== *)
(** ** Special commands *)
(* ===================================================================== *)

(** The options [initGitRepo] reads for itself. *)
Record GitOpts := mkGitOpts {
  g_remote : option string;
  g_branch : option string;
  g_url : option string
}.

(** [if ( !opts.remote )  opts.remote = 'origin'] and the like *)
Definition orDefault (v : option string) (d : string) : string :=
  match v with
  | Some s => if Js.truthy s then s else d
  | None => d
  end.

(** The commands [initGitRepo] prepares. *)
Definition gitCommands (g : GitOpts) : list Command :=
  let remote := orDefault (g_remote g) "origin" in
  let branch := orDefault (g_branch g) "master" in
  [CmdArray ["git"; "init"]]
  ++ match g_url g with
     | Some url =>
         if Js.truthy url
         then [CmdArray ["git"; "remote"; "add"; remote; url]] else []
     | None => []
     end
  ++ [ CmdArray ["git"; "fetch"; remote];
       CmdArray ["git"; "pull"; remote; branch];
       CmdArray ["git"; "submodule"; "init"];
       CmdArray ["git"; "submodule"; "update"; "--recursive"] ].

(** [initGitRepo(opts, next)]: what [next] receives. *)
Definition initGitRepo (spawned : Command → Outcome) (g : GitOpts)
    (opts : Opts) (choose : nat → nat → nat)
    : option JsError * list Outcome :=
  spawnMultiple spawned (ManyCommands (gitCommands g)) opts choose.

(* ===================================================================== *)
(** ** Further fixtures *)
(* ===================================================================== *)

(** The machine of [posixWorld] with [GIT_PATH] pointing at a program. *)
Definition overrideWorld : World :=
  mkWorld "linux"
    (<["GIT_PATH" := "/opt/tools/bin/deploy"]>
       (<["PATH" := "/usr/bin:/opt/tools/bin"]> (<["HOME" := "/home/u"]> ∅)))
    "/work" "/usr/bin/node" ":"%char posixJoin posixResolve
    (Some posixExecutable) (Some posixExecutable)
    (λ _, mkExecReply None None None)
    (λ _, inr None)
    (λ _ _, mkResult (Some 1) (Some (Buffer "")) (Some (Buffer "")) (Some 0)
                     None None)
    (λ _ _, [ChildClose (Some 0) None]).

(** A machine on which no program can be started: the child raises
    ['error'], and closes after it with the status of a failed launch. *)
Definition brokenWorld : World :=
  mkWorld "linux"
    (<["PATH" := "/usr/bin:/opt/tools/bin"]> (<["HOME" := "/home/u"]> ∅))
    "/work" "/usr/bin/node" ":"%char posixJoin posixResolve
    (Some posixExecutable) (Some posixExecutable)
    (λ _, mkExecReply None None None)
    (λ _, inr None)
    (λ _ _, emptyResult)
    (λ file _, [ChildError (mkError ("spawn " +:+ file +:+ " ENOENT")
                                    (CodeStr "ENOENT") None);
                ChildClose (Some (-2)) None]).

(** A machine whose children are cut short: a stream of the child raises
    ['error'] after the first chunk. *)
Definition interruptedWorld : World :=
  mkWorld "linux"
    (<["PATH" := "/usr/bin:/opt/tools/bin"]> (<["HOME" := "/home/u"]> ∅))
    "/work" "/usr/bin/node" ":"%char posixJoin posixResolve
    (Some posixExecutable) (Some posixExecutable)
    (λ _, mkExecReply None None None)
    (λ _, inr None)
    (λ _ _, emptyResult)
    (λ _ _, [ChildData ChStdout (Buffer "partial");
             ChildError (mkError "write EPIPE" (CodeStr "EPIPE") None);
             ChildData ChStdout (Buffer " rest");
             ChildData ChStderr (Buffer "late");
             ChildClose (Some 0) None]).

(** A machine whose children write before they close. *)
Definition chattyWorld : World :=
  mkWorld "linux"
    (<["PATH" := "/usr/bin:/opt/tools/bin"]> (<["HOME" := "/home/u"]> ∅))
    "/work" "/usr/bin/node" ":"%char posixJoin posixResolve
    (Some posixExecutable) (Some posixExecutable)
    (λ _, mkExecReply None None None)
    (λ _, inr (Some (Buffer "listing")))
    (λ _ _, mkResult (Some 1) (Some (Buffer "listing"))
                     (Some (Buffer "warning")) (Some 0) None None)
    (λ _ _, [ChildData ChStdout (Buffer "one ");
             ChildData ChStderr (Buffer "oops");
             ChildData ChStdout (Buffer "two");
             ChildClose (Some 3) None;
             ChildData ChStdout (Buffer "late");
             ChildClose (Some 0) None]).

(* ===================================================================== *)
(** ** Notions of the specification: paths *)
(* ===================================================================== *)

(** The statement of the specification, "already an absolute path": what
    [path.isAbsolute] of the platform calls absolute.  On POSIX that is a
    path that starts with a slash; on Windows, a path that starts with a
    slash or a backslash, or with a drive letter, a colon and a slash or a
    backslash. *)
Definition separator (c : ascii) : bool :=
  (Ascii.eqb c "/" || Ascii.eqb c "\")%char.

Definition posixAbsolute (path : string) : bool :=
  match path with
  | String c _ => Ascii.eqb c "/"%char
  | EmptyString => false
  end.

Definition win32Absolute (path : string) : bool :=
  match path with
  | String c0 rest =>
      separator c0
      || match rest with
         | String c1 (String c2 _) =>
             letter c0 && Ascii.eqb c1 ":"%char && separator c2
         | _ => false
         end
  | EmptyString => false
  end.

Definition absolutePath (w : World) (path : string) : bool :=
  if isWindows w then win32Absolute path else posixAbsolute path.

(** The statement of the specification, "each PATH directory in listed
    order": [PATH] lists directories, with the delimiter of the platform
    between one and the next. *)
Fixpoint joinBy (sep : ascii) (parts : list string) : string :=
  match parts with
  | [] => EmptyString
  | [part] => part
  | part :: rest => part +:+ String sep (joinBy sep rest)
  end.

(* ===================================================================== *)
(** ** Laws of the effect monad *)
(* ===================================================================== *)

Lemma bind_ok {A B} (m : M A) (k : A → M B) (c : Caches) (a : A) :
  value (m c) = Ok a →
  bind m k c =
    mkRun (value (k a (store (m c)))) (store (k a (store (m c))))
          (events (m c) ++ events (k a (store (m c)))).
Proof. intros H. unfold bind. by rewrite H. Qed.

Lemma bind_throw {A B} (m : M A) (k : A → M B) (c : Caches) (e : JsError) :
  value (m c) = Throw e →
  bind m k c = mkRun (Throw e) (store (m c)) (events (m c)).
Proof. intros H. unfold bind. by rewrite H. Qed.

Lemma bind_ret {A B} (a : A) (k : A → M B) (c : Caches) :
  bind (ret a) k c = k a c.
Proof. unfold bind, ret. simpl. by destruct (k a c). Qed.

(* ===================================================================== *)
(** ** Result finalization *)
(* ===================================================================== *)

Lemma failedStatus_spec (st : option Z) :
  failedStatus st = true ↔ ∃ n, st = Some n ∧ n ≠ 0.
Proof.
  destruct st as [n|]; simpl.
  - rewrite negb_true_iff, Z.eqb_neq. split.
    + intros Hn. exists n. done.
    + intros (m & Hm & Hne). by inversion Hm; subst.
  - split; [done | by intros (n & Hn & _)].
Qed.

(** Mirroring a buffer that is there never throws and leaves the caches. *)
Lemma outputData_some (d : Data) (ch : Channel) (prefix : option string)
    (c : Caches) :
  value (outputData (Some d) ch prefix c) = Ok tt
  ∧ store (outputData (Some d) ch prefix c) = c.
Proof.
  unfold outputData.
  destruct (Js.is_empty _); [done |].
  destruct prefix as [p|]; [destruct (Js.truthy p) |]; done.
Qed.

Lemma classify_error (result : ExecResult) :
  (error (classify result) ≠ None ↔
     error result ≠ None ∨ ∃ n, status result = Some n ∧ n ≠ 0)
  ∧ (∀ e, error result = Some e → error (classify result) = Some e)
  ∧ (error result = None →
     status result = Some 0 ∨ status result = None →
     error (classify result) = None)
  ∧ status (classify result) = status result
  ∧ signal (classify result) = signal result
  ∧ stdout (classify result) = stdout result
  ∧ stderr (classify result) = stderr result.
Proof.
  unfold classify.
  destruct (error result) as [e|] eqn:He; simpl.
  - rewrite He. repeat split; try done. intros _. by left.
  - destruct (failedStatus (status result)) eqn:Hst; simpl.
    + apply failedStatus_spec in Hst as (n & Hn & Hne).
      repeat split; try done.
      * intros _. right. by exists n.
      * intros _ [H0 | H0]; rewrite Hn in H0; [by inversion H0 | done].
    + rewrite He. repeat split; try done.
      intros [H | (n & Hn & Hne)]; [done |].
      assert (failedStatus (status result) = true) as Ht
        by (apply failedStatus_spec; by exists n).
      congruence.
Qed.

Lemma updateExecutableResult_unfold (result : ExecResult) (opts : Opts) :
  updateExecutableResult result opts =
    ((if flag (o_output opts) then
        outputData (stdout result) ChStdout (o_outputPrefix opts) ;;;
        outputData (stderr result) ChStderr (o_outputPrefix opts)
      else ret tt) ;;;
     ret (classify result)).
Proof.
  unfold updateExecutableResult, classify.
  destruct (error result); [done |].
  by destruct (failedStatus (status result)).
Qed.

(** Without mirroring, finalization is [classify] and nothing else. *)
Lemma updateExecutableResult_quiet (result : ExecResult) (opts : Opts)
    (c : Caches) :
  flag (o_output opts) = false →
  updateExecutableResult result opts c = mkRun (Ok (classify result)) c [].
Proof.
  intros Hout. rewrite updateExecutableResult_unfold, Hout.
  by rewrite bind_ret.
Qed.

(** C1. For every result passed through [updateExecutableResult]: when the
    call returns, the error is set afterwards exactly if an error was set
    before or the status is a number other than zero; an error that was set
    before is the one that stays; a result without an error whose status is
    0 or [null] (signal only) ends without an error; the other fields are
    kept.  The call returns unless it is asked to mirror a buffer that is
    not there. *)
Theorem updateExecutableResult_error (result : ExecResult) (opts : Opts)
    (c : Caches) :
  match value (updateExecutableResult result opts c) with
  | Ok result' =>
      (error result' ≠ None ↔
         error result ≠ None ∨ ∃ n, status result = Some n ∧ n ≠ 0)
      ∧ (∀ e, error result = Some e → error result' = Some e)
      ∧ (error result = None →
         status result = Some 0 ∨ status result = None →
         error result' = None)
      ∧ status result' = status result
      ∧ signal result' = signal result
      ∧ stdout result' = stdout result
      ∧ stderr result' = stderr result
  | Throw _ =>
      flag (o_output opts) = true
      ∧ (stdout result = None ∨ stderr result = None)
  end.
Proof.
  rewrite updateExecutableResult_unfold.
  destruct (flag (o_output opts)) eqn:Hout.
  - destruct (stdout result) as [out|] eqn:Hso;
      [destruct (stderr result) as [err|] eqn:Hse |].
    + destruct (outputData_some out ChStdout (o_outputPrefix opts) c)
        as [Hv1 Hs1].
      destruct (outputData_some err ChStderr (o_outputPrefix opts) c)
        as [Hv2 Hs2].
      rewrite (bind_ok _ _ _ tt); cbn [value store events].
      * rewrite <- Hso, <- Hse. apply classify_error.
      * rewrite (bind_ok _ _ _ tt Hv1). cbn [value store events].
        by rewrite Hs1.
    + destruct (outputData_some out ChStdout (o_outputPrefix opts) c)
        as [Hv1 Hs1].
      rewrite (bind_throw _ _ _
                 (typeError "Cannot read property 'toString' of null")).
      * cbn [value]. auto.
      * rewrite (bind_ok _ _ _ tt Hv1). done.
    + rewrite (bind_throw _ _ _
                 (typeError "Cannot read property 'toString' of null")).
      * cbn [value]. auto.
      * done.
  - rewrite bind_ret. cbn [value ret]. apply classify_error.
Qed.

(* ===================================================================== *)
(** ** Strings *)
(* ===================================================================== *)

Lemma str_app_cons (c : ascii) (s t : string) :
  String c s +:+ t = String c (s +:+ t).
Proof. reflexivity. Qed.

Lemma str_app_nil_r (s : string) : s +:+ "" = s.
Proof. induction s as [|c s IH]; [done |]. by rewrite str_app_cons, IH. Qed.

Lemma str_app_assoc (s t u : string) : (s +:+ t) +:+ u = s +:+ (t +:+ u).
Proof.
  induction s as [|c s IH]; [done |]. by rewrite !str_app_cons, IH.
Qed.

Lemma str_rev_app (s t : string) : String.rev_app s t = String.rev s +:+ t.
Proof.
  unfold String.rev. revert t.
  induction s as [|c s IH]; intros t; [done |].
  cbn [String.rev_app]. rewrite IH, (IH (String c "")).
  by rewrite str_app_assoc.
Qed.

Lemma str_rev_cons (c : ascii) (s : string) :
  String.rev (String c s) = String.rev s +:+ String c "".
Proof. unfold String.rev at 1. cbn [String.rev_app]. apply str_rev_app. Qed.

Lemma has_char_app (c : ascii) (s t : string) :
  Js.has_char c (s +:+ t) = Js.has_char c s || Js.has_char c t.
Proof.
  induction s as [|d s IH]; [done |].
  rewrite str_app_cons. cbn [Js.has_char]. by rewrite IH, orb_assoc.
Qed.

(* ===================================================================== *)
(** ** The executable verifier *)
(* ===================================================================== *)

Lemma prefix_occurs (pat s : string) :
  String.prefix pat s = true ↔ ∃ after, s = pat +:+ after.
Proof.
  revert s. induction pat as [|a pat IH]; intros s.
  - split; [intros _; by exists s | by destruct s].
  - destruct s as [|b s]; cbn [String.prefix].
    + split; [done | by intros [after H]].
    + destruct (ascii_dec a b) as [-> | Hne].
      * rewrite IH. split.
        -- intros [after ->]. by exists after.
        -- intros [after H]. rewrite str_app_cons in H.
           injection H as ->. by exists after.
      * split; [done |]. intros [after H]. rewrite str_app_cons in H.
        injection H as H _. by subst.
Qed.

(** [/lit/.test(s)] says whether [lit] occurs in [s]. *)
Lemma includes_occurs (pat s : string) :
  Js.includes pat s = true ↔ occursIn pat s.
Proof.
  unfold occursIn. split.
  - induction s as [|c s IH].
    + cbn [Js.includes]. rewrite orb_false_r. intros H.
      apply prefix_occurs in H as [after H]. by exists "", after.
    + cbn [Js.includes]. intros [H | H]%orb_true_iff.
      * apply prefix_occurs in H as [after H]. by exists "", after.
      * destruct (IH H) as (before & after & ->).
        by exists (String c before), after.
  - intros (before & after & ->).
    induction before as [|c before IH].
    + assert (H : String.prefix pat (pat +:+ after) = true)
        by (apply prefix_occurs; by exists after).
      change ("" +:+ pat +:+ after) with (pat +:+ after).
      destruct (pat +:+ after); cbn [Js.includes]; by rewrite H.
    + rewrite str_app_cons. cbn [Js.includes]. by rewrite IH, orb_true_r.
Qed.

Lemma probeVerdict_false (err : JsError) :
  probeVerdict err = false ↔ couldNotRun err.
Proof.
  unfold probeVerdict, couldNotRun, message_denied, code_is_127.
  rewrite andb_false_iff, !negb_false_iff, orb_true_iff, !includes_occurs.
  split.
  - intros [Hc | Hm]; [left | right; done].
    destruct (code err) as [|n|]; try done.
    apply Z.eqb_eq in Hc. by subst.
  - intros [Hc | Hm]; [left | right; done].
    by rewrite Hc.
Qed.

Lemma isExecutableSync_run (w : World) (path : string) (c : Caches) :
  isExecutableSync w path c =
    mkRun (Ok (checkSync w path)) c [EvVerify path (checkSync w path)].
Proof. reflexivity. Qed.

Lemma isExecutable_run (w : World) (path : string) (opts : Opts)
    (c : Caches) :
  isExecutable w path opts c =
    mkRun (Ok (verdict w opts path)) c [EvVerify path (verdict w opts path)].
Proof.
  unfold isExecutable, verdict.
  destruct (flag (o_sync opts)); reflexivity.
Qed.

(** What the two probes answer without [fs.access] and [fs.accessSync]:
    [false] exactly for a failure that [couldNotRun] describes. *)
Lemma checkAsync_false (w : World) (path : string) :
  fs_access w = None →
  checkAsync w path = false ↔
    ∃ err, probeError w path = Some err ∧ couldNotRun err.
Proof.
  intros Hshim. unfold checkAsync, probe, probeError. rewrite Hshim.
  destruct (x_error _) as [err |].
  - rewrite probeVerdict_false. split.
    + intros H. by exists err.
    + intros (e & He & H). by inversion He; subst.
  - split; [done | by intros (e & He & _)].
Qed.

Lemma checkSync_false (w : World) (path : string) :
  fs_accessSync w = None →
  checkSync w path = false ↔
    ∃ err, probeSyncError w path = Some err ∧ couldNotRun err.
Proof.
  intros Hshim. unfold checkSync, probeSync, probeSyncError. rewrite Hshim.
  destruct (cp_execSync w _) as [err | out].
  - rewrite probeVerdict_false. split.
    + intros H. by exists err.
    + intros (e & He & H). by inversion He; subst.
  - split; [done | by intros (e & He & _)].
Qed.

(** C7. What the fallback probe answers, and where it misses the
    not-found code.  Without [fs.access], the non-blocking [isExecutable]
    answers [false] exactly when [exec] reports a failure whose exit code
    is 127 or whose message holds [EACCESS] or [Permission denied]; every
    other failure, and no failure, gives [true].  Without
    [fs.accessSync], the blocking probe ([isExecutableSync], and
    [isExecutable] with [sync]) makes the same test on the error that
    [execSync] throws; but [execSync] hands the exit code over as
    [err.status], and the test reads [err.code]: a launch that failed with
    exit code 127 is answered [true] unless its message holds one of the
    two texts.  So for a program that is not there the blocking probe says
    "executable" where the non-blocking one says "not executable".  (The
    first of the two texts has an S too many for the errno [EACCES]: a
    message that names the errno and nothing else passes as well.) *)
Theorem fallback_probe_verdict (w : World) (path : string) :
  (fs_access w = None →
   ∀ opts c,
     flag (o_sync opts) = false →
     ∃ b, value (isExecutable w path opts c) = Ok b
          ∧ (b = false ↔
               ∃ err, probeError w path = Some err
                      ∧ (exitCode false err = Some 127
                         ∨ occursIn "EACCESS" (message err)
                         ∨ occursIn "Permission denied" (message err))))
  ∧ (fs_accessSync w = None →
     ∀ opts c,
       (∃ b, value (isExecutableSync w path c) = Ok b
             ∧ (b = false ↔
                  ∃ err, probeSyncError w path = Some err
                         ∧ couldNotRun err))
       ∧ (flag (o_sync opts) = true →
          isExecutable w path opts c = isExecutableSync w path c))
  ∧ (fs_accessSync w = None →
     ∀ err c,
       probeSyncError w path = Some err →
       exitCode true err = Some 127 →
       code err ≠ CodeNum 127 →
       ¬ occursIn "EACCESS" (message err) →
       ¬ occursIn "Permission denied" (message err) →
       value (isExecutableSync w path c) = Ok true)
  ∧ (isExecutableSync shimWorld "/usr/bin/nothere" noCaches
       = mkRun (Ok true) noCaches [EvVerify "/usr/bin/nothere" true]
     ∧ isExecutable shimWorld "/usr/bin/nothere" noOpts noCaches
       = mkRun (Ok false) noCaches [EvVerify "/usr/bin/nothere" false]
     ∧ probeVerdict (mkError "spawn /bin/sh EACCES" (CodeStr "EACCES") None)
       = true).
Proof.
  split; [| split; [| split]].
  - intros Hshim opts c Hasync.
    exists (checkAsync w path). rewrite isExecutable_run.
    unfold verdict. rewrite Hasync. split; [done |].
    rewrite (checkAsync_false w path Hshim).
    split; intros (err & Herr & Hrun); exists err; (split; [done |]).
    + unfold couldNotRun in Hrun. unfold exitCode.
      destruct Hrun as [-> | Hmessage]; [by left | by right].
    + unfold couldNotRun. unfold exitCode in Hrun.
      destruct Hrun as [Hcode | Hmessage]; [left | by right].
      destruct (code err) as [|n|]; try done. by injection Hcode as ->.
  - intros Hshim opts c. split.
    + exists (checkSync w path). rewrite isExecutableSync_run.
      split; [done |]. by apply checkSync_false.
    + intros Hsync. unfold isExecutable. by rewrite Hsync.
  - intros Hshim err c Herr _ Hcode Haccess Hdenied.
    rewrite isExecutableSync_run. cbn [value]. f_equal.
    destruct (checkSync w path) eqn:Hcheck; [done |].
    apply (checkSync_false w path Hshim) in Hcheck as (err' & Herr' & Hrun).
    rewrite Herr in Herr'. injection Herr' as <-.
    by destruct Hrun as [H | [H | H]].
  - repeat split; reflexivity.
Qed.

Lemma fallback_probe_verdict_witness :
  exitCode true (mkError "Command failed: /usr/bin/nothere --version"
                         CodeNone (Some 127)) = Some 127
  ∧ value (isExecutableSync shimWorld "/usr/bin/nothere" noCaches) = Ok true.
Proof.
  split; [reflexivity |].
  destruct (fallback_probe_verdict shimWorld "/usr/bin/nothere")
    as (_ & _ & Hmissed & _).
  apply (Hmissed eq_refl
           (mkError "Command failed: /usr/bin/nothere --version" CodeNone
                    (Some 127)) noCaches eq_refl eq_refl).
  - discriminate.
  - intros H. apply includes_occurs in H. discriminate H.
  - intros H. apply includes_occurs in H. discriminate H.
Defined.

(* ===================================================================== *)
(** ** Command lines *)
(* ===================================================================== *)

Lemma joinSpace_cons (t : string) (tokens : list string) :
  tokens ≠ [] → joinSpace (t :: tokens) = t +:+ " " +:+ joinSpace tokens.
Proof. by destruct tokens. Qed.

Lemma split_go_nonempty (sep : ascii) (cur line : string) :
  Js.split_go sep cur line ≠ [].
Proof.
  revert cur. induction line as [|c line IH]; intros cur; [done |].
  cbn [Js.split_go]. destruct (Ascii.eqb c sep); [done | apply IH].
Qed.

(** Gluing the pieces back with the separator gives the text that was cut. *)
Lemma split_go_join (cur line : string) :
  joinSpace (Js.split_go " " cur line) = String.rev cur +:+ line.
Proof.
  revert cur. induction line as [|c line IH]; intros cur.
  - cbn [Js.split_go joinSpace]. by rewrite str_app_nil_r.
  - cbn [Js.split_go]. destruct (Ascii.eqb c " ") eqn:Hc.
    + apply Ascii.eqb_eq in Hc as ->.
      rewrite joinSpace_cons by apply split_go_nonempty.
      by rewrite IH.
    + rewrite IH, str_rev_cons, str_app_assoc. done.
Qed.

Lemma split_go_no_space (cur line : string) :
  Js.has_char " " (String.rev cur) = false →
  Forall (λ t, Js.has_char " " t = false) (Js.split_go " " cur line).
Proof.
  revert cur. induction line as [|c line IH]; intros cur Hcur.
  - cbn [Js.split_go]. by constructor.
  - cbn [Js.split_go]. destruct (Ascii.eqb c " ") eqn:Hc.
    + constructor; [done |]. by apply IH.
    + apply IH. rewrite str_rev_cons, has_char_app, Hcur.
      cbn [Js.has_char]. rewrite Ascii.eqb_sym, Hc. done.
Qed.

(** The claim as the specification words it fails on a tab, which is white
    space but does not separate anything for [split(' ')]: the whole line
    becomes the executable name. *)
Lemma normalizeCommand_not_whitespace :
  let line := "ls" +:+ String "009" "-l" in
  normalizeCommand (CmdString line) ≠ whitespaceTokens line
  ∧ whitespaceTokens line = ["ls"; "-l"]
  ∧ normalizeCommand (CmdString line) = [line]
  ∧ executableName (normalizeCommand (CmdString line)) = Some line.
Proof. by vm_compute. Qed.

Lemma prepared_safe (w : World) (opts : Opts) :
  o_safe (prepareExecutableOptions w opts) = Some (default true (o_safe opts))
  ∧ o_sync (prepareExecutableOptions w opts) = o_sync opts.
Proof.
  unfold prepareExecutableOptions.
  by destruct (Js.truthy_opt (o_stdio opts)).
Qed.

(** Without path resolution, the blocking spawn starts the child on the
    first token, with the other tokens as its arguments. *)
Lemma spawnSync_unsafe (w : World) (line file : string) (args : list string)
    (opts : Opts) (c : Caches) :
  o_safe opts = Some false →
  normalizeCommand (CmdString line) = file :: args →
  ∃ rest,
    events (spawnSync w (CmdString line) opts c) = EvSpawn file args :: rest.
Proof.
  intros Hsafe Hsplit. unfold spawnSync.
  destruct (prepared_safe w opts) as [Hs _].
  assert (Hflag : flag (o_safe (setSync (prepareExecutableOptions w opts)))
                  = false) by (cbn [setSync o_safe]; by rewrite Hs, Hsafe).
  rewrite Hflag, Hsplit, bind_ret.
  cbn [executableName arguments head tail fmap option_fmap option_map
       childSpawnSync].
  unfold bind at 1.
  cbn [emit bind ret value store events app].
  by eexists.
Qed.

(** The same for the non-blocking spawn. *)
Lemma spawn_unsafe (w : World) (line file : string) (args : list string)
    (opts : Opts) (c : Caches) :
  o_safe opts = Some false →
  flag (o_sync opts) = false →
  normalizeCommand (CmdString line) = file :: args →
  ∃ rest, events (spawn w (CmdString line) opts c) = EvSpawn file args :: rest.
Proof.
  intros Hsafe Hsync Hsplit. unfold spawn.
  destruct (prepared_safe w opts) as [Hs Hy].
  rewrite Hy, Hsync, Hs, Hsafe, Hsplit.
  cbn [default from_option id flag]. rewrite bind_ret.
  cbn [executableName arguments head tail fmap option_fmap option_map
       childSpawn].
  unfold bind at 1. unfold try_ at 1.
  cbn [emit bind ret value store events app].
  unfold try_ at 1. cbn [emit bind ret value store events app].
  by eexists.
Qed.

(** C8 (amended). A command given as a string is cut at every space
    character and nowhere else: the tokens contain no space, put together
    with single spaces they give the string back (so two spaces in a row
    give an empty token, and a tab or a newline stays inside its token), and
    the first token, which always exists, is the executable name.  When
    path resolution is turned off, that token is the file [spawnSync] and
    [spawn] start the child on, with the other tokens as arguments. *)
Theorem normalizeCommand_string (line : string) :
  joinSpace (normalizeCommand (CmdString line)) = line
  ∧ Forall (λ t, Js.has_char " " t = false) (normalizeCommand (CmdString line))
  ∧ ∃ file args,
      normalizeCommand (CmdString line) = file :: args
      ∧ executableName (normalizeCommand (CmdString line)) = Some file
      ∧ arguments (normalizeCommand (CmdString line)) = args
      ∧ (∀ w opts c,
           o_safe opts = Some false →
           ∃ rest, events (spawnSync w (CmdString line) opts c)
                   = EvSpawn file args :: rest)
      ∧ (∀ w opts c,
           o_safe opts = Some false →
           flag (o_sync opts) = false →
           ∃ rest, events (spawn w (CmdString line) opts c)
                   = EvSpawn file args :: rest).
Proof.
  split; [| split].
  - unfold normalizeCommand, Js.split. by rewrite split_go_join.
  - unfold normalizeCommand, Js.split. by apply split_go_no_space.
  - destruct (normalizeCommand (CmdString line)) as [|file args] eqn:Hs.
    + unfold normalizeCommand, Js.split in Hs.
      by apply split_go_nonempty in Hs.
    + exists file, args. repeat split; try done.
      * intros w opts c Hsafe. by apply spawnSync_unsafe.
      * intros w opts c Hsafe Hsync. by apply spawn_unsafe.
Qed.

(* ===================================================================== *)
(** ** Candidate paths *)
(* ===================================================================== *)

Lemma pureM_ret {A} (a : A) : pureM (ret a).
Proof. by exists (Ok a). Qed.

Lemma pureM_throw {A} (e : JsError) : pureM (throw (A := A) e).
Proof. by exists (Throw e). Qed.

Lemma pureM_bind {A B} (m : M A) (k : A → M B) :
  pureM m → (∀ a, pureM (k a)) → pureM (bind m k).
Proof.
  intros [v Hm] Hk. destruct v as [a | e].
  - destruct (Hk a) as [v' Hka]. exists v'. intros c.
    rewrite (bind_ok _ _ _ a) by by rewrite Hm.
    rewrite Hm. cbn [value store events]. by rewrite Hka.
  - exists (Throw e). intros c.
    rewrite (bind_throw _ _ _ e) by by rewrite Hm.
    by rewrite Hm.
Qed.

Lemma getStandardExecPaths_set (w : World) (execName path : string)
    (c : Caches) :
  getenv w "PATH" = Some path →
  getStandardExecPaths w execName c =
    mkRun (Ok (standardPath w execName
                 <$> cwd w :: Js.split (delimiter w) path)) c [].
Proof.
  intros Hpath. unfold getStandardExecPaths, getEnvironmentPaths.
  rewrite Hpath, bind_ret. unfold standardPath.
  destruct (Js.truthy execName); [done |].
  by rewrite list_fmap_id.
Qed.

Lemma getStandardExecPaths_pure (w : World) (execName : string) :
  pureM (getStandardExecPaths w execName).
Proof.
  unfold getStandardExecPaths, getEnvironmentPaths.
  apply pureM_bind.
  - destruct (getenv w "PATH"); [apply pureM_ret | apply pureM_throw].
  - intros paths. destruct (Js.truthy execName); apply pureM_ret.
Qed.

Lemma getPossibleExecPaths_pure (w : World) (execName : string) :
  pureM (getPossibleExecPaths w execName).
Proof.
  unfold getPossibleExecPaths.
  destruct (isWindows w && negb (Js.has_char "." execName)).
  - apply pureM_bind; [apply getStandardExecPaths_pure |].
    intros paths. apply pureM_ret.
  - apply getStandardExecPaths_pure.
Qed.

(* ===================================================================== *)
(** ** Resolution *)
(* ===================================================================== *)

(** What the test of [getExecPath] lets through: a name that starts with
    a slash, or that has a colon in second place. *)
Lemma isAbsolute_spec (execName : string) :
  isAbsolute execName = true ↔
    (∃ rest, execName = String "/" rest)
    ∨ (∃ c rest, execName = String c (String ":" rest)).
Proof.
  unfold isAbsolute. rewrite orb_true_iff, !bool_decide_eq_true.
  destruct execName as [|c0 [|c1 rest]]; cbn [Js.substr1 String.get].
  - split.
    + intros [H | H]; discriminate H.
    + intros [[r H] | (x & r & H)]; discriminate H.
  - split.
    + intros [H | H]; [| discriminate H]. injection H as ->.
      left. by exists "".
    + intros [[r H] | (x & r & H)]; [| discriminate H].
      injection H as -> _. by left.
  - split.
    + intros [H | H]; injection H as ->; [left; by eexists |].
      right. by eexists _, _.
    + intros [[r H] | (x & r & H)].
      * injection H as -> _. by left.
      * injection H as _ -> _. by right.
Qed.

(** An absolute path of the platform is let through, unless it is a
    Windows path that starts with a backslash. *)
Lemma absolute_recognised (w : World) (execName : string) :
  absolutePath w execName = true →
  Js.starts_with "\" execName = false →
  isAbsolute execName = true.
Proof.
  unfold absolutePath, posixAbsolute, win32Absolute, separator.
  intros Habs Hback. apply isAbsolute_spec.
  destruct execName as [|c0 rest]; [by destruct (isWindows w) |].
  assert (Hc0 : Ascii.eqb c0 "\" = false).
  { destruct (Ascii.eqb_spec c0 "\") as [-> | Hne]; [| done].
    unfold Js.starts_with in Hback. cbn [String.prefix] in Hback.
    destruct (ascii_dec "\" "\"); [by destruct rest | done]. }
  destruct (isWindows w).
  - rewrite Hc0, orb_false_r in Habs.
    apply orb_true_iff in Habs as [H | H].
    + apply Ascii.eqb_eq in H as ->. left. by eexists.
    + destruct rest as [|c1 [|c2 rest]]; try done.
      apply andb_true_iff in H as [[_ H]%andb_true_iff _].
      apply Ascii.eqb_eq in H as ->. right. by eexists _, _.
  - apply Ascii.eqb_eq in Habs as ->. left. by eexists.
Qed.

(** C4. Which absolute paths [getExecPath] hands back as they are.  An
    absolute path of the platform ([path.isAbsolute]) that does not start
    with a backslash is handed back unchanged: no cache is read or
    written, the verifier is not called, nothing else happens.  But the
    test the code makes is "a slash first, or a colon second", and a
    Windows path that starts with a backslash (a rooted path, a UNC path)
    does not pass it, absolute as it is: it is taken for a name, looked up
    in the cache, joined to the working directory and to every [PATH]
    directory, shown to the verifier, and in the end reported as not
    found. *)
Theorem getExecPath_absolute (w : World) (execName : string) (opts : Opts)
    (c : Caches) :
  (absolutePath w execName = true →
   Js.starts_with "\" execName = false →
   getExecPath w execName opts c =
     mkRun (Ok (ReplyPath (Some (PStr execName)), [])) c [])
  ∧ (absolutePath windowsWorld "\tools\deploy.exe" = true
     ∧ getExecPath windowsWorld "\tools\deploy.exe" noOpts noCaches =
         mkRun
           (Ok (ReplyErr
                  (newError
                     "Could not locate the \tools\deploy.exe executable path"),
                []))
           noCaches
           [EvCacheRead (SlotExec "\tools\deploy.exe");
            EvVerify "C:\work\tools\deploy.exe" false;
            EvVerify "C:\bin\tools\deploy.exe" false;
            EvVerify "C:\tools\tools\deploy.exe" false]).
Proof.
  split.
  - intros Habs Hback. unfold getExecPath.
    by rewrite (absolute_recognised w execName Habs Hback).
  - split; reflexivity.
Qed.

Lemma getExecPath_absolute_witness :
  getExecPath posixWorld "/opt/tools/bin/deploy" noOpts noCaches =
    mkRun (Ok (ReplyPath (Some (PStr "/opt/tools/bin/deploy")), []))
          noCaches [].
Proof.
  destruct (getExecPath_absolute posixWorld "/opt/tools/bin/deploy" noOpts
              noCaches) as [H _].
  exact (H eq_refl eq_refl).
Defined.

Lemma determineExecPath_from_found (w : World) (opts : Opts)
    (candidates : list string) (execPath : option string) (c : Caches) :
  Js.truthy_opt execPath = true →
  determineExecPath_from w opts candidates execPath c =
    mkRun (Ok execPath) c [].
Proof.
  intros Hfound. induction candidates as [|p rest IH]; [done |].
  cbn [determineExecPath_from]. rewrite Hfound.
  by destruct (Js.is_empty p).
Qed.

Lemma truthy_nonempty (s : string) : s ≠ "" → Js.truthy s = true.
Proof. by destruct s. Qed.

(** With a [path.resolve] that never returns the empty string, the serial
    group of [determineExecPath] ends with the first verified candidate. *)
Lemma determineExecPath_from_first (w : World) (opts : Opts)
    (candidates : list string) (execPath : option string) (c : Caches) :
  (∀ p, path_resolve w [p] ≠ "") →
  Js.truthy_opt execPath = false →
  value (determineExecPath_from w opts candidates execPath c) =
    Ok (match firstVerified w opts candidates with
        | Some p => Some p
        | None => execPath
        end).
Proof.
  intros Hresolve.
  revert execPath c. induction candidates as [|p rest IH];
    intros execPath c Hnone; [done |].
  cbn [determineExecPath_from firstVerified]. rewrite Hnone.
  unfold Js.truthy. destruct (Js.is_empty p); cbn [negb andb].
  - by apply IH.
  - rewrite (bind_ok _ _ _ (verdict w opts (path_resolve w [p])))
      by by rewrite isExecutable_run.
    rewrite isExecutable_run. cbn [value store events].
    destruct (verdict w opts (path_resolve w [p])).
    + rewrite determineExecPath_from_found; [done |].
      cbn [Js.truthy_opt]. by apply truthy_nonempty.
    + by apply IH.
Qed.

Lemma firstVerified_truthy (w : World) (opts : Opts)
    (candidates : list string) (p : string) :
  (∀ p, path_resolve w [p] ≠ "") →
  firstVerified w opts candidates = Some p → Js.truthy p = true.
Proof.
  intros Hresolve. induction candidates as [|q rest IH]; [done |].
  cbn [firstVerified].
  destruct (Js.truthy q && verdict w opts (path_resolve w [q])); [| done].
  intros Heq. injection Heq as <-. by apply truthy_nonempty.
Qed.

Lemma located_value (opts : Opts) (slot : Slot) (notFound : string)
    (execPath : option string) (c : Caches) :
  value (located opts slot notFound execPath c) =
    Ok (if Js.truthy_opt execPath
        then (ReplyPath (PStr <$> execPath), [])
        else (ReplyErr (newError notFound), [])).
Proof.
  unfold located. destruct (Js.truthy_opt execPath); cbn [negb]; [| done].
  by destruct (cacheOn opts).
Qed.

(** Where the search of [getExecPath] can be made: the name is not empty
    and the candidates can be listed. *)
Lemma getExecPath_searches (w : World) (execName : string)
    (opts : Opts) (c : Caches) (method : string) (candidates : list string) :
  isAbsolute execName = false →
  value (getExecMethodName execName c) = Ok method →
  specialMethod method = None →
  cacheOn opts = false
  ∨ pathVal_truthy (execPathCache_get c execName) = false →
  value (getPossibleExecPaths w execName c) = Ok candidates →
  (∀ p, path_resolve w [p] ≠ "") →
  value (getExecPath w execName opts c) =
    Ok (match firstVerified w opts candidates with
        | Some p => (ReplyPath (Some (PStr p)), [])
        | None =>
            (ReplyErr
               (newError
                  ("Could not locate the " +:+ execName +:+ " executable path")),
             [])
        end).
Proof.
  intros Hrelative Hmethod Hgeneric Huncached Hcandidates Hresolve.
  unfold getExecPath. rewrite Hrelative.
  destruct execName as [|ch rest]; [done |].
  cbn [getExecMethodName] in *. rewrite bind_ret.
  injection Hmethod as <-. rewrite Hgeneric.
  unfold getExecPath_generic.
  assert (∃ v evs,
            readExecPathCache opts (String ch rest) c = mkRun (Ok v) c evs
            ∧ pathVal_truthy v = false) as (v & evs & Hread & Hv).
  { unfold readExecPathCache. destruct Huncached as [Hoff | Hmiss].
    - rewrite Hoff. by exists None, [].
    - destruct (cacheOn opts); [| by exists None, []].
      by exists (execPathCache_get c (String ch rest)),
                [EvCacheRead (SlotExec (String ch rest))]. }
  rewrite (bind_ok _ _ _ v) by by rewrite Hread.
  rewrite Hread. cbn [value store events]. rewrite Hv.
  destruct (getPossibleExecPaths_pure w (String ch rest)) as [pv Hpure].
  rewrite Hpure in Hcandidates. cbn [value] in Hcandidates. subst pv.
  unfold locate.
  rewrite (bind_ok _ _ _ candidates) by by rewrite Hpure.
  rewrite Hpure. cbn [value store events].
  pose proof (determineExecPath_from_first w opts candidates None c Hresolve
                eq_refl) as Hdet.
  unfold determineExecPath.
  rewrite (bind_ok _ _ _ _ Hdet). cbn [value].
  rewrite located_value. unfold notLocated.
  destruct (firstVerified w opts candidates) as [p|] eqn:Hfirst; [| done].
  cbn [Js.truthy_opt]. by rewrite (firstVerified_truthy w opts candidates p).
Qed.

(** A name that is not an absolute path of the platform and has no colon
    in second place does not pass the test of [getExecPath]. *)
Lemma relative_searched (w : World) (execName : string) :
  absolutePath w execName = false →
  Js.substr1 1 execName ≠ ":" →
  isAbsolute execName = false.
Proof.
  intros Hrelative Hcolon.
  destruct (isAbsolute execName) eqn:Habs; [| done].
  apply isAbsolute_spec in Habs as [[rest ->] | (ch & rest & ->)].
  - unfold absolutePath in Hrelative. by destruct (isWindows w).
  - done.
Qed.

(** C3. Where [getExecPath] gives the first verified candidate, and where
    it gives nothing.  For a name that is not an absolute path of the
    platform and has no colon in second place, that has no resolver of its
    own and is not answered from the cache: when the name is not empty and
    the candidates can be listed (which needs [PATH] to be set),
    [getExecPath] calls back with the first candidate, in list order, that
    the verifier accepts (made absolute by [path.resolve], which is how it
    is tested), and with the error "Could not locate the <name> executable
    path" and no path when there is none.  For the empty name, and for any
    such name when [PATH] is not set, it does neither: it throws a
    [TypeError], out of [execName[0].toUpperCase()] and out of
    [process.env.PATH.split], and never calls back. *)
Theorem getExecPath_first_verified (w : World) (execName : string)
    (opts : Opts) (c : Caches) :
  (∀ method candidates,
     absolutePath w execName = false →
     Js.substr1 1 execName ≠ ":" →
     value (getExecMethodName execName c) = Ok method →
     specialMethod method = None →
     cacheOn opts = false
     ∨ pathVal_truthy (execPathCache_get c execName) = false →
     value (getPossibleExecPaths w execName c) = Ok candidates →
     (∀ p, path_resolve w [p] ≠ "") →
     value (getExecPath w execName opts c) =
       Ok (match firstVerified w opts candidates with
           | Some p => (ReplyPath (Some (PStr p)), [])
           | None =>
               (ReplyErr
                  (newError
                     ("Could not locate the " +:+ execName
                      +:+ " executable path")),
                [])
           end))
  ∧ getExecPath w "" opts c =
      mkRun (Throw (typeError
                      "Cannot read property 'toUpperCase' of undefined"))
            c []
  ∧ getExecPath bareWorld "deploy" noOpts noCaches =
      mkRun (Throw (typeError "Cannot read property 'split' of undefined"))
            noCaches [EvCacheRead (SlotExec "deploy")].
Proof.
  split; [| split].
  - intros method candidates Hrelative Hcolon.
    apply getExecPath_searches. by apply (relative_searched w).
  - reflexivity.
  - reflexivity.
Qed.

Lemma getExecPath_first_verified_witness :
  value (getExecPath posixWorld "deploy" noOpts noCaches) =
    Ok (ReplyPath (Some (PStr "/opt/tools/bin/deploy")), []).
Proof.
  assert (Hresolve : ∀ p, path_resolve posixWorld [p] ≠ "").
  { intros p. cbn. destruct (Js.starts_with "/" p) eqn:Hp.
    - intros ->. done.
    - by destruct (Js.is_empty p). }
  destruct (getExecPath_first_verified posixWorld "deploy" noOpts noCaches)
    as [Hsearch _].
  refine (Hsearch "getDeployPath"
            ["/work/deploy"; "/usr/bin/deploy"; "/opt/tools/bin/deploy"]
            eq_refl _ eq_refl eq_refl (or_intror eq_refl) eq_refl Hresolve).
  discriminate.
Defined.

(* ===================================================================== *)
(** ** The shape of a search *)
(* ===================================================================== *)

Lemma readSlot_run (s : Slot) (c : Caches) :
  readSlot s c = mkRun (Ok (slot_get s c)) c [EvCacheRead s].
Proof. reflexivity. Qed.

Lemma writeSlot_run (s : Slot) (v : option string) (c : Caches) :
  writeSlot s v c = mkRun (Ok tt) (slot_put s v c) [EvCacheWrite s v].
Proof. reflexivity. Qed.

(** [determineExecPath] only verifies: it leaves the caches, never throws,
    and what it finds it has seen accepted. *)
Lemma determineExecPath_from_run (w : World) (opts : Opts)
    (candidates : list string) (execPath : option string) (c : Caches) :
  ∃ found evs,
    determineExecPath_from w opts candidates execPath c =
      mkRun (Ok found) c evs
    ∧ forallb isVerify evs = true
    ∧ (found = execPath ∨ ∃ p, found = Some p ∧ EvVerify p true ∈ evs).
Proof.
  revert execPath c. induction candidates as [|p rest IH]; intros execPath c.
  - exists execPath, []. cbn. auto.
  - cbn [determineExecPath_from].
    destruct (Js.is_empty p); [apply IH |].
    destruct (Js.truthy_opt execPath); [apply IH |].
    set (q := path_resolve w [p]).
    rewrite (bind_ok _ _ _ (verdict w opts q)) by by rewrite isExecutable_run.
    rewrite isExecutable_run. cbn [value store events].
    destruct (verdict w opts q) eqn:Hq.
    + destruct (IH (Some q) c) as (found & evs & Hrun & Hver & Hfound).
      exists found, (EvVerify q true :: evs). rewrite Hrun.
      cbn [value store events app forallb isVerify andb].
      split; [done |]. split; [done |]. right.
      destruct Hfound as [-> | (p' & -> & Hin)].
      * exists q. split; [done |]. apply list_elem_of_here.
      * exists p'. split; [done |]. by apply list_elem_of_further.
    + destruct (IH execPath c) as (found & evs & Hrun & Hver & Hfound).
      exists found, (EvVerify q false :: evs). rewrite Hrun.
      cbn [value store events app forallb isVerify andb].
      split; [done |]. split; [done |].
      destruct Hfound as [-> | (p' & -> & Hin)]; [by left |].
      right. exists p'. split; [done |]. by apply list_elem_of_further.
Qed.

(** The four ways a search can end. *)
Lemma locate_run (w : World) (opts : Opts) (slot : Slot) (notFound : string)
    (possibleExecPaths : M (list string)) (c : Caches) :
  pureM possibleExecPaths →
  (∃ e, locate w opts slot notFound possibleExecPaths c =
          mkRun (Throw e) c [])
  ∨ (∃ evs, locate w opts slot notFound possibleExecPaths c =
              mkRun (Ok (ReplyErr (newError notFound), [])) c evs
            ∧ forallb isVerify evs = true)
  ∨ (∃ p evs,
       locate w opts slot notFound possibleExecPaths c =
         mkRun (Ok (ReplyPath (Some (PStr p)), []))
               (if cacheOn opts then slot_put slot (Some p) c else c)
               (evs ++ if cacheOn opts then [EvCacheWrite slot (Some p)]
                       else [])
       ∧ Js.truthy p = true
       ∧ forallb isVerify evs = true
       ∧ EvVerify p true ∈ evs).
Proof.
  intros [pv Hpure]. unfold locate. destruct pv as [candidates | e].
  - rewrite (bind_ok _ _ _ candidates) by by rewrite Hpure.
    rewrite Hpure. cbn [value store events app].
    destruct (determineExecPath_from_run w opts candidates None c)
      as (found & evs & Hrun & Hver & Hfound).
    unfold determineExecPath.
    rewrite (bind_ok _ _ _ found) by by rewrite Hrun.
    rewrite Hrun. cbn [value store events].
    unfold located.
    destruct (Js.truthy_opt found) eqn:Htruthy; cbn [negb].
    + right. right.
      destruct Hfound as [-> | (p & -> & Hin)]; [done |].
      exists p, evs. split; [| done].
      destruct (cacheOn opts).
      * rewrite (bind_ok _ _ _ tt) by by rewrite writeSlot_run.
        by rewrite writeSlot_run.
      * rewrite bind_ret. cbn. by rewrite app_nil_r.
    + right. left. exists evs. split; [| done].
      cbn. by rewrite app_nil_r.
  - left. exists e.
    rewrite (bind_throw _ _ _ e) by by rewrite Hpure.
    by rewrite Hpure.
Qed.

(* ===================================================================== *)
(** ** Resolving a second time *)
(* ===================================================================== *)

Lemma slot_get_put (s : Slot) (v : option string) (c : Caches) :
  (∀ name, s ≠ SlotExec name) → slot_get s (slot_put s v c) = v.
Proof. intros Hs. destruct s; try done. by destruct (Hs name). Qed.

Lemma execPathCache_get_put (name p : string) (c : Caches) :
  name ≠ "__proto__" →
  execPathCache_get (slot_put (SlotExec name) (Some p) c) name
    = Some (PStr p).
Proof.
  intros Hname. unfold execPathCache_get, slot_put.
  rewrite !bool_decide_eq_false_2 by done.
  cbn [execPathCache]. by rewrite lookup_insert_eq.
Qed.

Lemma execPathCache_get_proto (c : Caches) :
  pathVal_truthy (execPathCache_get c "__proto__") = true.
Proof. reflexivity. Qed.

(** A resolver with a slot of its own: after a success, asking again is
    answered from the slot. *)
Lemma cachedOr_second (w : World) (opts : Opts) (slot : Slot)
    (notFound : string) (possibleExecPaths : M (list string)) (c : Caches)
    (p : option PathVal) :
  (∀ name, slot ≠ SlotExec name) →
  pureM possibleExecPaths →
  cacheOn opts = true →
  value (cachedOr w opts slot notFound possibleExecPaths c)
    = Ok (ReplyPath p, []) →
  cachedOr w opts slot notFound possibleExecPaths
      (store (cachedOr w opts slot notFound possibleExecPaths c))
    = mkRun (Ok (ReplyPath p, []))
        (store (cachedOr w opts slot notFound possibleExecPaths c))
        [EvCacheRead slot].
Proof.
  intros Hslot Hpure Hcache. unfold cachedOr. rewrite Hcache.
  cbn [andb].
  rewrite !(bind_ok _ _ c (slot_get slot c)) by by rewrite readSlot_run.
  rewrite readSlot_run. cbn [value store events].
  destruct (Js.truthy_opt (slot_get slot c)) eqn:Hhit.
  - cbn [ret value store events]. intros [= <-].
    rewrite (bind_ok _ _ c (slot_get slot c)) by by rewrite readSlot_run.
    rewrite readSlot_run. cbn [value store events]. by rewrite Hhit.
  - destruct (locate_run w opts slot notFound possibleExecPaths c Hpure)
      as [(e & Hrun) | [(evs & Hrun & _) | (q & evs & Hrun & Hq & _)]];
      rewrite Hrun; cbn [value store events]; try done.
    rewrite Hcache. intros [= <-].
    set (c' := slot_put slot (Some q) c).
    rewrite (bind_ok _ _ c' (slot_get slot c')) by by rewrite readSlot_run.
    rewrite readSlot_run. cbn [value store events].
    unfold c'. rewrite slot_get_put by done.
    cbn [Js.truthy_opt]. by rewrite Hq.
Qed.

Lemma homePath_second (w : World) (opts : Opts) (c : Caches) :
  cacheOn opts = true →
  ∃ v evs,
    value (homePath w opts c) = Ok v
    ∧ homePath w opts (store (homePath w opts c))
        = mkRun (Ok v) (store (homePath w opts c)) evs
    ∧ forallb (λ e, negb (isVerify e)) evs = true.
Proof.
  intros Hcache. unfold homePath. rewrite Hcache. cbn [andb].
  rewrite !(bind_ok _ _ c (slot_get SlotHome c)) by by rewrite readSlot_run.
  rewrite readSlot_run. cbn [value store events slot_get].
  destruct (Js.truthy_opt (cachedHomePath c)) eqn:Hhit.
  - exists (cachedHomePath c), [EvCacheRead SlotHome].
    cbn [ret value store events].
    rewrite (bind_ok _ _ c (slot_get SlotHome c)) by by rewrite readSlot_run.
    rewrite readSlot_run. cbn [value store events slot_get].
    by rewrite Hhit.
  - set (home := firstTruthy [getenv w "USERPROFILE"; getenv w "HOME"]).
    rewrite (bind_ok _ _ c tt) by by rewrite writeSlot_run.
    rewrite writeSlot_run. cbn [ret value store events].
    set (c' := slot_put SlotHome home c).
    rewrite (bind_ok _ _ c' (slot_get SlotHome c'))
      by by rewrite readSlot_run.
    rewrite readSlot_run. cbn [value store events].
    assert (Hget : slot_get SlotHome c' = home)
      by (unfold c'; by apply slot_get_put).
    rewrite !Hget.
    destruct (Js.truthy_opt home) eqn:Hhome.
    + exists home, [EvCacheRead SlotHome]. done.
    + exists home, [EvCacheRead SlotHome; EvCacheWrite SlotHome home].
      rewrite (bind_ok _ _ c' tt) by by rewrite writeSlot_run.
      rewrite writeSlot_run. cbn [ret value store events app].
      split; [done |]. split; [| done].
      f_equal.
Qed.

Lemma getTmpPath_second (w : World) (opts : Opts) (c : Caches)
    (p : option PathVal) :
  cacheOn opts = true →
  value (getTmpPath w opts c) = Ok (ReplyPath p, []) →
  getTmpPath w opts (store (getTmpPath w opts c))
    = mkRun (Ok (ReplyPath p, [])) (store (getTmpPath w opts c))
        [EvCacheRead SlotTmp].
Proof.
  intros Hcache. unfold getTmpPath. rewrite Hcache. cbn [andb].
  rewrite !(bind_ok _ _ c (slot_get SlotTmp c)) by by rewrite readSlot_run.
  rewrite readSlot_run. cbn [value store events].
  destruct (Js.truthy_opt (slot_get SlotTmp c)) eqn:Hhit.
  - cbn [ret value store events]. intros [= <-].
    rewrite (bind_ok _ _ c (slot_get SlotTmp c)) by by rewrite readSlot_run.
    rewrite readSlot_run. cbn [value store events]. by rewrite Hhit.
  - match goal with
    | |- value (bind ?m ?k c) = _ → _ => set (inner := m)
    end.
    destruct (value (inner c)) as [tmpPath | e] eqn:Hinner.
    + rewrite !(bind_ok _ _ c tmpPath Hinner). cbn [value store events].
      set (c1 := store (inner c)).
      rewrite !(bind_ok _ _ c1 tt) by by rewrite writeSlot_run.
      rewrite writeSlot_run. cbn [value store events].
      destruct (Js.truthy_opt tmpPath) eqn:Htmp; cbn [ret value store];
        [| done].
      intros [= <-].
      set (c2 := slot_put SlotTmp tmpPath c1).
      rewrite (bind_ok _ _ c2 (slot_get SlotTmp c2))
        by by rewrite readSlot_run.
      rewrite readSlot_run. cbn [value store events].
      assert (Hget : slot_get SlotTmp c2 = tmpPath)
        by (unfold c2; by apply slot_get_put).
      by rewrite !Hget, Htmp.
    + rewrite !(bind_throw _ _ c e Hinner). done.
Qed.

Lemma generic_second (w : World) (execName : string) (opts : Opts)
    (c : Caches) (p : option PathVal) :
  cacheOn opts = true →
  value (getExecPath_generic w execName opts c) = Ok (ReplyPath p, []) →
  getExecPath_generic w execName opts
      (store (getExecPath_generic w execName opts c))
    = mkRun (Ok (ReplyPath p, []))
        (store (getExecPath_generic w execName opts c))
        [EvCacheRead (SlotExec execName)].
Proof.
  intros Hcache. unfold getExecPath_generic, readExecPathCache.
  rewrite Hcache.
  assert (Hread : ∀ c0,
    (c1 <- getCaches ;;
     emit (EvCacheRead (SlotExec execName)) ;;;
     ret (execPathCache_get c1 execName)) c0
    = mkRun (Ok (execPathCache_get c0 execName)) c0
        [EvCacheRead (SlotExec execName)]) by done.
  rewrite !(bind_ok _ _ c (execPathCache_get c execName))
    by by rewrite Hread.
  rewrite Hread. cbn [value store events].
  destruct (pathVal_truthy (execPathCache_get c execName)) eqn:Hhit.
  - cbn [ret value store events]. intros [= <-].
    rewrite (bind_ok _ _ c (execPathCache_get c execName))
      by by rewrite Hread.
    rewrite Hread. cbn [value store events]. by rewrite Hhit.
  - destruct (locate_run w opts (SlotExec execName) (notLocated execName)
                (getPossibleExecPaths w execName) c
                (getPossibleExecPaths_pure w execName))
      as [(e & Hrun) | [(evs & Hrun & _) | (q & evs & Hrun & Hq & _)]];
      rewrite Hrun; cbn [value store events]; try done.
    rewrite Hcache. intros [= <-].
    set (c' := slot_put (SlotExec execName) (Some q) c).
    assert (Hname : execName ≠ "__proto__").
    { intros ->. by rewrite execPathCache_get_proto in Hhit. }
    rewrite (bind_ok _ _ c' (execPathCache_get c' execName))
      by by rewrite Hread.
    rewrite Hread. cbn [value store events].
    unfold c'. rewrite execPathCache_get_put by done.
    cbn [pathVal_truthy]. by rewrite Hq.
Qed.

Lemma toolPaths_pure (w : World) (execName : string)
    (k : list string → list string) :
  pureM (standard <- getStandardExecPaths w execName ;; ret (k standard)).
Proof.
  apply pureM_bind; [apply getStandardExecPaths_pure |].
  intros standard. apply pureM_ret.
Qed.

(** C5. With caching on, after [getExecPath] has called back with a path
    for a name, asking again for the same name with the same options calls
    back with the same path, and that second resolution does not call the
    verifier at all. *)
Theorem getExecPath_second_cached (w : World) (execName : string)
    (opts : Opts) (c : Caches) (p : option PathVal)
    (Hcache : cacheOn opts = true)
    (Hfirst : value (getExecPath w execName opts c) = Ok (ReplyPath p, [])) :
  let c' := store (getExecPath w execName opts c) in
  value (getExecPath w execName opts c') = Ok (ReplyPath p, [])
  ∧ forallb (λ e, negb (isVerify e)) (events (getExecPath w execName opts c'))
    = true.
Proof.
  revert Hfirst. unfold getExecPath.
  destruct (isAbsolute execName); [by intros [= <-] |].
  destruct execName as [|ch rest]; [done |].
  cbn [getExecMethodName]. rewrite !bind_ret.
  set (name := String ch rest).
  destruct (specialMethod _) as [[| | | | |]|].
  - done.
  - unfold getHomePath. intros Hfirst.
    destruct (homePath_second w opts c Hcache) as (v & evs & Hv & Hrun & Hevs).
    rewrite (bind_ok _ _ _ v Hv) in Hfirst |- *.
    cbn [ret value store events] in Hfirst |- *.
    injection Hfirst as <-.
    rewrite (bind_ok _ _ _ v) by by rewrite Hrun.
    rewrite Hrun. cbn [ret value store events]. by rewrite app_nil_r.
  - intros Hfirst. by rewrite (getTmpPath_second w opts c p Hcache Hfirst).
  - intros Hfirst. unfold getGitPath in *.
    rewrite (cachedOr_second w opts SlotGit _ _ c p); try done.
    apply toolPaths_pure.
  - intros Hfirst. unfold getNodePath in *.
    rewrite (cachedOr_second w opts SlotNode _ _ c p); try done.
    apply toolPaths_pure.
  - intros Hfirst. unfold getNpmPath in *.
    rewrite (cachedOr_second w opts SlotNpm _ _ c p); try done.
    apply toolPaths_pure.
  - intros Hfirst.
    by rewrite (generic_second w name opts c p Hcache Hfirst).
Qed.

Lemma getExecPath_second_cached_witness :
  let first := getExecPath posixWorld "ls" noOpts noCaches in
  value first = Ok (ReplyPath (Some (PStr "/usr/bin/ls")), [])
  ∧ value (getExecPath posixWorld "ls" noOpts (store first))
      = Ok (ReplyPath (Some (PStr "/usr/bin/ls")), [])
  ∧ forallb (λ e, negb (isVerify e))
      (events (getExecPath posixWorld "ls" noOpts (store first))) = true.
Proof.
  split; [reflexivity |].
  apply (getExecPath_second_cached posixWorld "ls" noOpts noCaches
           (Some (PStr "/usr/bin/ls")) eq_refl eq_refl).
Defined.

(* ===================================================================== *)
(** ** What the caches are written with *)
(* ===================================================================== *)

Lemma writesVerified_verifies (only : Slot → bool) (evs : list Event) :
  forallb isVerify evs = true →
  ∀ seen, writesVerified only seen evs = true.
Proof.
  induction evs as [|e evs IH]; [done |].
  cbn [forallb]. intros [He Hevs]%andb_true_iff seen.
  destruct e as [| | path ok | | |]; try done.
  cbn [writesVerified]. destruct ok; by apply IH.
Qed.

(** A write that follows the acceptance of its path is in order. *)
Lemma writesVerified_found (only : Slot → bool) (s : Slot) (p : string)
    (evs : list Event) :
  forallb isVerify evs = true →
  ∀ seen,
    p ∈ seen ∨ EvVerify p true ∈ evs →
    writesVerified only seen (evs ++ [EvCacheWrite s (Some p)]) = true.
Proof.
  induction evs as [|e evs IH].
  - intros _ seen [Hin | Hin].
    + cbn. rewrite bool_decide_eq_true_2 by done.
      by rewrite orb_true_r.
    + by apply elem_of_nil in Hin.
  - cbn [forallb]. intros [He Hevs]%andb_true_iff seen Hin.
    destruct e as [| | path ok | | |]; try done.
    cbn [app writesVerified].
    destruct ok.
    + apply IH; [done |]. destruct Hin as [Hin | Hin].
      * left. by apply list_elem_of_further.
      * apply elem_of_cons in Hin as [Heq | Hin].
        -- injection Heq as <-. left. apply list_elem_of_here.
        -- by right.
    + apply IH; [done |]. destruct Hin as [Hin | Hin]; [by left |].
      apply elem_of_cons in Hin as [Heq | Hin]; [done | by right].
Qed.

Lemma locate_writes (w : World) (opts : Opts) (slot : Slot)
    (notFound : string) (possibleExecPaths : M (list string)) (c : Caches)
    (only : Slot → bool) :
  pureM possibleExecPaths →
  writesVerified only []
    (events (locate w opts slot notFound possibleExecPaths c)) = true.
Proof.
  intros Hpure.
  destruct (locate_run w opts slot notFound possibleExecPaths c Hpure)
    as [(e & Hrun) | [(evs & Hrun & Hevs)
                     | (q & evs & Hrun & Hq & Hevs & Hin)]];
    rewrite Hrun; cbn [events].
  - done.
  - by apply writesVerified_verifies.
  - destruct (cacheOn opts).
    + apply writesVerified_found; auto.
    + rewrite app_nil_r. by apply writesVerified_verifies.
Qed.

Lemma cachedOr_writes (w : World) (opts : Opts) (slot : Slot)
    (notFound : string) (possibleExecPaths : M (list string)) (c : Caches)
    (only : Slot → bool) :
  pureM possibleExecPaths →
  writesVerified only []
    (events (cachedOr w opts slot notFound possibleExecPaths c)) = true.
Proof.
  intros Hpure. unfold cachedOr.
  destruct (cacheOn opts); cbn [andb].
  - rewrite (bind_ok _ _ c (slot_get slot c)) by by rewrite readSlot_run.
    rewrite readSlot_run. cbn [value store events app].
    destruct (Js.truthy_opt (slot_get slot c)); [done |].
    cbn [writesVerified]. by apply locate_writes.
  - rewrite bind_ret. by apply locate_writes.
Qed.

Lemma generic_writes (w : World) (execName : string) (opts : Opts)
    (c : Caches) (only : Slot → bool) :
  writesVerified only [] (events (getExecPath_generic w execName opts c))
    = true.
Proof.
  unfold getExecPath_generic, readExecPathCache.
  destruct (cacheOn opts).
  - assert (Hread :
      (c1 <- getCaches ;;
       emit (EvCacheRead (SlotExec execName)) ;;;
       ret (execPathCache_get c1 execName)) c
      = mkRun (Ok (execPathCache_get c execName)) c
          [EvCacheRead (SlotExec execName)]) by done.
    rewrite (bind_ok _ _ c (execPathCache_get c execName))
      by by rewrite Hread.
    rewrite Hread. cbn [value store events app].
    destruct (pathVal_truthy _); [done |].
    cbn [writesVerified].
    apply locate_writes, getPossibleExecPaths_pure.
  - rewrite bind_ret. cbn [pathVal_truthy].
    apply locate_writes, getPossibleExecPaths_pure.
Qed.

Lemma writesVerified_homeTmp (a b : list Event) (seen : list string) :
  forallb homeTmpOnly a = true →
  writesVerified executableSlot seen (a ++ b)
    = writesVerified executableSlot seen b.
Proof.
  induction a as [|e a IH]; [done |].
  cbn [forallb]. intros [He Ha]%andb_true_iff.
  destruct e as [s | s v | | | |]; try done; cbn [app writesVerified].
  - by apply IH.
  - cbn [homeTmpOnly] in He. rewrite He. cbn [orb andb]. by apply IH.
Qed.

(** The home resolver reads and writes its own slot and nothing else. *)
Lemma homePath_run (w : World) (opts : Opts) (c : Caches) :
  ∃ v c' evs,
    homePath w opts c = mkRun (Ok v) c' evs
    ∧ forallb homeTmpOnly evs = true.
Proof.
  unfold homePath. destruct (cacheOn opts); cbn [andb].
  - rewrite (bind_ok _ _ c (slot_get SlotHome c)) by by rewrite readSlot_run.
    rewrite readSlot_run. cbn [value store events].
    destruct (Js.truthy_opt _); [by eexists _, _, _ |].
    rewrite (bind_ok _ _ c tt) by by rewrite writeSlot_run.
    rewrite writeSlot_run. by eexists _, _, _.
  - rewrite !bind_ret. by eexists _, _, _.
Qed.

Lemma bind_events_homeTmp {A B} (m : M A) (k : A → M B) (c : Caches) :
  forallb homeTmpOnly (events (m c)) = true →
  (∀ a c', forallb homeTmpOnly (events (k a c')) = true) →
  forallb homeTmpOnly (events (bind m k c)) = true.
Proof.
  intros Hm Hk. unfold bind. destruct (value (m c)); cbn [events]; [| done].
  rewrite forallb_app, Hm. cbn [andb]. apply Hk.
Qed.

Lemma getTmpPath_homeTmp (w : World) (opts : Opts) (c : Caches) :
  forallb homeTmpOnly (events (getTmpPath w opts c)) = true.
Proof.
  unfold getTmpPath. apply bind_events_homeTmp.
  { by destruct (cacheOn opts). }
  intros cached c1.
  destruct (cacheOn opts && Js.truthy_opt cached); [done |].
  apply bind_events_homeTmp.
  - destruct (Js.truthy_opt (firstTruthy _)); [done |].
    apply bind_events_homeTmp.
    + destruct (homePath_run w opts c1) as (v & c' & evs & Hrun & Hevs).
      by rewrite Hrun.
    + intros home c2. apply bind_events_homeTmp.
      * by destruct home.
      * intros tmpPath c3. destruct (Js.truthy tmpPath); [done |].
        by destruct (isWindows w).
  - intros tmpPath c2. apply bind_events_homeTmp.
    + by destruct (cacheOn opts).
    + intros [] c3. by destruct (Js.truthy_opt tmpPath).
Qed.

(** The claim as the specification words it fails for the home directory:
    it is taken from the environment and written to its cache without ever
    being shown to the verifier. *)
Lemma home_cache_write_unverified :
  events (getExecPath posixWorld "home" noOpts noCaches)
    = [EvCacheRead SlotHome; EvCacheWrite SlotHome (Some "/home/u")]
  ∧ writesVerified (λ _, true) []
      (events (getExecPath posixWorld "home" noOpts noCaches)) = false
  ∧ writesVerified (λ _, true) []
      (events (getHomePath posixWorld noOpts noCaches)) = false
  ∧ writesVerified (λ _, true) []
      (events (getTmpPath posixWorld noOpts noCaches)) = false.
Proof. by vm_compute. Qed.

(** C9 (amended). Every write to [execPathCache] and to the git, node and
    npm slots stores a path that the verifier has accepted earlier in the
    same resolution; this holds for [getExecPath] on every name and for the
    three tool resolvers called directly. *)
Theorem executable_cache_writes_verified (w : World) (execName : string)
    (opts : Opts) (c : Caches) :
  writesVerified executableSlot [] (events (getExecPath w execName opts c))
    = true
  ∧ writesVerified executableSlot [] (events (getGitPath w opts c)) = true
  ∧ writesVerified executableSlot [] (events (getNodePath w opts c)) = true
  ∧ writesVerified executableSlot [] (events (getNpmPath w opts c)) = true.
Proof.
  assert (Hgit : writesVerified executableSlot []
                   (events (getGitPath w opts c)) = true)
    by apply cachedOr_writes, toolPaths_pure.
  assert (Hnode : writesVerified executableSlot []
                    (events (getNodePath w opts c)) = true)
    by apply cachedOr_writes, toolPaths_pure.
  assert (Hnpm : writesVerified executableSlot []
                   (events (getNpmPath w opts c)) = true)
    by apply cachedOr_writes, toolPaths_pure.
  split; [| done].
  unfold getExecPath.
  destruct (isAbsolute execName); [done |].
  destruct execName as [|ch rest]; [done |].
  cbn [getExecMethodName]. rewrite bind_ret.
  destruct (specialMethod _) as [[| | | | |]|]; try done.
  - unfold getHomePath.
    destruct (homePath_run w opts c) as (v & c' & evs & Hrun & Hevs).
    rewrite (bind_ok _ _ _ v) by by rewrite Hrun.
    rewrite Hrun. cbn [ret value store events].
    by rewrite writesVerified_homeTmp.
  - rewrite <- (app_nil_r (events _)).
    rewrite writesVerified_homeTmp; [done |].
    apply getTmpPath_homeTmp.
  - apply generic_writes.
Qed.

(* ===================================================================== *)
(** ** Mirroring in the non-blocking spawn *)
(* ===================================================================== *)

Lemma outputData_events (data : Data) (ch : Channel) (opts : Opts)
    (c : Caches) :
  flag (o_read opts) = true →
  flag (o_output opts) = true →
  events (outputData (Some data) ch (o_outputPrefix opts) c)
    = mirrored opts (ChildData ch data).
Proof.
  intros Hread Hout. unfold outputData, mirrored. rewrite Hread, Hout.
  cbn [andb].
  destruct (Js.is_empty (Js.trim (data_toString data))); [done |].
  cbn [negb]. destruct (o_outputPrefix opts) as [p|]; [| done].
  cbn [Js.truthy_opt default]. by destruct (Js.truthy p).
Qed.

(** A chunk that arrives is mirrored as [mirrored] says, and captured. *)
Lemma onData_run (ch : Channel) (data : Data) (s : SpawnState) (c : Caches) :
  flag (o_read (s_opts s)) = true →
  onData ch data s c =
    mkRun (Ok (mkSpawn (capture ch data (s_result s)) (s_opts s)
                       (s_exited s) (s_calls s)))
          c (mirrored (s_opts s) (ChildData ch data)).
Proof.
  intros Hread. unfold onData.
  destruct (flag (o_output (s_opts s))) eqn:Hout.
  - destruct (outputData_some data ch (o_outputPrefix (s_opts s)) c)
      as [Hv Hs].
    rewrite (bind_ok _ _ _ tt Hv). cbn [ret value store events].
    rewrite Hs, app_nil_r. by rewrite outputData_events.
  - rewrite bind_ret. unfold mirrored. rewrite Hout, andb_false_r. done.
Qed.

(** The close handler writes nothing to the parent's streams. *)
Lemma onClose_run (st : option Z) (sg : option string) (s : SpawnState)
    (c : Caches) :
  ∃ s',
    onClose st sg s c = mkRun (Ok s') c []
    ∧ (if s_exited s then s_opts s' = s_opts s
       else s_opts s' = setOutput (s_opts s) (Some false))
    ∧ (s_exited s = false → s_exited s' = true).
Proof.
  unfold onClose. destruct (s_exited s).
  - by eexists.
  - rewrite (bind_ok _ _ _ _) by by rewrite updateExecutableResult_quiet.
    rewrite updateExecutableResult_quiet by done.
    by eexists.
Qed.

(** An error writes nothing to the parent's streams, leaves the options
    as they are, and ends the run. *)
Lemma onError_run (err : JsError) (s : SpawnState) (c : Caches) :
  ∃ s',
    onError err s c = mkRun (Ok s') c []
    ∧ s_opts s' = s_opts s
    ∧ s_exited s' = true.
Proof.
  unfold onError. destruct (s_exited s) eqn:Hexited; by eexists.
Qed.

(** Once mirroring is off, nothing the child does reaches the parent. *)
Lemma childEvents_quiet (evs : list ChildEvent) (s : SpawnState)
    (c : Caches) :
  flag (o_output (s_opts s)) = false →
  ∃ s', childEvents evs s c = mkRun (Ok s') c [].
Proof.
  revert s. induction evs as [|[ch data | st sg | err] evs IH]; intros s Hout.
  - by exists s.
  - cbn [childEvents].
    destruct (flag (o_read (s_opts s))) eqn:Hread.
    + rewrite (bind_ok _ _ _ _) by by rewrite onData_run.
      rewrite onData_run by done. cbn [value store events].
      unfold mirrored. rewrite Hout, andb_false_r. cbn [andb app].
      destruct (IH (mkSpawn (capture ch data (s_result s)) (s_opts s)
                            (s_exited s) (s_calls s)) Hout) as [s' Hrun].
      exists s'. by rewrite Hrun.
    + rewrite bind_ret. by apply IH.
  - cbn [childEvents].
    destruct (onClose_run st sg s c) as (s1 & Hrun & Hopts & _).
    rewrite (bind_ok _ _ _ s1) by by rewrite Hrun.
    rewrite Hrun. cbn [value store events app].
    destruct (IH s1) as [s' Hrun'].
    { destruct (s_exited s); rewrite Hopts; [done |]. done. }
    exists s'. by rewrite Hrun'.
  - cbn [childEvents].
    destruct (onError_run err s c) as (s1 & Hrun & Hopts & _).
    rewrite (bind_ok _ _ _ s1) by by rewrite Hrun.
    rewrite Hrun. cbn [value store events app].
    destruct (IH s1) as [s' Hrun']; [by rewrite Hopts |].
    exists s'. by rewrite Hrun'.
Qed.

(** Once the run has ended, no ['close'] changes the options any more:
    what the child still writes is mirrored as the options say. *)
Lemma childEvents_ended (evs : list ChildEvent) (s : SpawnState)
    (c : Caches) :
  s_exited s = true →
  ∃ s', childEvents evs s c = mkRun (Ok s') c (evs ≫= mirrored (s_opts s)).
Proof.
  revert s. induction evs as [|[ch data | st sg | err] evs IH];
    intros s Hexited.
  - by exists s.
  - cbn [childEvents]. rewrite bind_cons.
    destruct (flag (o_read (s_opts s))) eqn:Hread.
    + rewrite (bind_ok _ _ _ _) by by rewrite onData_run.
      rewrite onData_run by done. cbn [value store events].
      destruct (IH (mkSpawn (capture ch data (s_result s)) (s_opts s)
                            (s_exited s) (s_calls s)) Hexited) as [s' Hrun].
      exists s'. by rewrite Hrun.
    + rewrite bind_ret. destruct (IH s Hexited) as [s' Hrun].
      exists s'. rewrite Hrun. unfold mirrored at 2. by rewrite Hread.
  - cbn [childEvents]. rewrite bind_cons.
    destruct (onClose_run st sg s c) as (s1 & Hrun & Hopts & Hex).
    rewrite (bind_ok _ _ _ s1) by by rewrite Hrun.
    rewrite Hrun. cbn [value store events app mirrored].
    rewrite Hexited in Hopts.
    destruct (IH s1) as [s' Hrun'].
    { revert Hrun. unfold onClose. rewrite Hexited.
      by intros [= <-]. }
    exists s'. by rewrite Hrun', Hopts.
  - cbn [childEvents]. rewrite bind_cons.
    destruct (onError_run err s c) as (s1 & Hrun & Hopts & Hex).
    rewrite (bind_ok _ _ _ s1) by by rewrite Hrun.
    rewrite Hrun. cbn [value store events app mirrored].
    destruct (IH s1 Hex) as [s' Hrun'].
    exists s'. by rewrite Hrun', Hopts.
Qed.

(** Until the child closes, every chunk is mirrored as it arrives. *)
Lemma childEvents_mirror (evs : list ChildEvent) (s : SpawnState)
    (c : Caches) :
  s_exited s = false →
  ∃ s',
    childEvents evs s c =
      mkRun (Ok s') c (beforeClose evs ≫= mirrored (s_opts s)).
Proof.
  revert s. induction evs as [|[ch data | st sg | err] evs IH];
    intros s Hexited.
  - by exists s.
  - cbn [childEvents beforeClose]. rewrite bind_cons.
    destruct (flag (o_read (s_opts s))) eqn:Hread.
    + rewrite (bind_ok _ _ _ _) by by rewrite onData_run.
      rewrite onData_run by done. cbn [value store events].
      destruct (IH (mkSpawn (capture ch data (s_result s)) (s_opts s)
                            (s_exited s) (s_calls s)) Hexited) as [s' Hrun].
      exists s'. by rewrite Hrun.
    + rewrite bind_ret. destruct (IH s Hexited) as [s' Hrun].
      exists s'. rewrite Hrun. unfold mirrored at 2. by rewrite Hread.
  - cbn [childEvents beforeClose].
    destruct (onClose_run st sg s c) as (s1 & Hrun & Hopts & _).
    rewrite (bind_ok _ _ _ s1) by by rewrite Hrun.
    rewrite Hrun. cbn [value store events app].
    rewrite Hexited in Hopts.
    destruct (childEvents_quiet evs s1 c) as [s' Hrun'].
    { by rewrite Hopts. }
    exists s'. by rewrite Hrun'.
  - cbn [childEvents beforeClose]. rewrite bind_cons.
    destruct (onError_run err s c) as (s1 & Hrun & Hopts & Hex).
    rewrite (bind_ok _ _ _ s1) by by rewrite Hrun.
    rewrite Hrun. cbn [value store events app mirrored].
    destruct (childEvents_ended evs s1 c Hex) as [s' Hrun'].
    exists s'. by rewrite Hrun', Hopts.
Qed.

(** C10. In the non-blocking spawn the ['close'] handler turns
    [opts.output] off before it finalizes the result, so it writes nothing
    to the parent's streams whatever the buffers hold; over the whole life
    of a child what reaches the parent's streams is, in order, the mirror
    of each chunk that arrived before the close, and the mirror of a chunk
    is at most one write. *)
Theorem close_never_reemits (opts : Opts) (evs : list ChildEvent)
    (st : option Z) (sg : option string) (s : SpawnState) (c : Caches) :
  (∃ s', onClose st sg s c = mkRun (Ok s') c []
         ∧ (s_exited s = false → o_output (s_opts s') = Some false))
  ∧ (∃ s', childEvents evs (mkSpawn emptyResult opts false []) c
           = mkRun (Ok s') c (beforeClose evs ≫= mirrored opts))
  ∧ (∀ ev, (length (mirrored opts ev) ≤ 1)%nat).
Proof.
  split; [| split].
  - destruct (onClose_run st sg s c) as (s' & Hrun & Hopts & _).
    exists s'. split; [done |]. intros Hexited.
    rewrite Hexited in Hopts. by rewrite Hopts.
  - by apply (childEvents_mirror evs (mkSpawn emptyResult opts false []) c).
  - intros [ch data | st' sg' | err]; cbn [mirrored]; [| cbn; lia ..].
    destruct (_ && _); cbn; lia.
Qed.

(* ===================================================================== *)
(** ** Batches *)
(* ===================================================================== *)

Section BatchFacts.

Context {Cmd Args : Type}.
Variable invoke : Cmd → Args.
Variable failure : Args → option JsError.

Lemma fireNextItems_keeps (concurrency : nat) (todo : list Cmd)
    (g : @Group Cmd Args) :
  groupError (fireNextItems concurrency todo g) = groupError g
  ∧ results (fireNextItems concurrency todo g) = results g.
Proof.
  revert g. induction todo as [|item rest IH]; intros g; [done |].
  cbn [fireNextItems].
  destruct (negb (shouldPause g) && hasSlots concurrency g); [| done].
  destruct (IH (mkGroup rest (running g ++ [item]) (groupError g)
                        (results g))) as [He Hr].
  by rewrite He, Hr.
Qed.

Lemma firstFailure_snoc (outcomes : list Args) (args : Args) :
  firstFailure failure (outcomes ++ [args]) =
    match firstFailure failure outcomes with
    | Some e => Some e
    | None => failure args
    end.
Proof.
  induction outcomes as [|a outcomes IH]; cbn [app firstFailure].
  - by destruct (failure args).
  - by destruct (failure a).
Qed.

Lemma itemCompleted_errorIsFirst (concurrency i : nat) (g : @Group Cmd Args) :
  errorIsFirst failure g →
  errorIsFirst failure (itemCompleted invoke failure concurrency i g).
Proof.
  unfold errorIsFirst, itemCompleted, fire. intros Hg.
  destruct (running g !! i) as [command|]; [| done].
  match goal with
  | |- context [fireNextItems ?n ?todo ?g'] =>
      destruct (fireNextItems_keeps n todo g') as [He Hr]
  end.
  rewrite He, Hr. cbn [groupError results].
  rewrite firstFailure_snoc, <- Hg. by destruct (groupError g).
Qed.

Lemma runGroup_errorIsFirst (concurrency : nat) (choose : nat → nat → nat)
    (fuel step : nat) (g : @Group Cmd Args) :
  errorIsFirst failure g →
  errorIsFirst failure
    (runGroup invoke failure concurrency choose fuel step g).
Proof.
  revert step g. induction fuel as [|fuel IH]; intros step g Hg; [done |].
  cbn [runGroup]. destruct (running g); [done |].
  by apply IH, itemCompleted_errorIsFirst.
Qed.

(** With one slot, an item in flight blocks everything behind it. *)
Lemma fireNextItems_full (todo : list Cmd) (item : Cmd)
    (err : option JsError) (outcomes : list Args) (old : list Cmd) :
  fireNextItems 1 todo (mkGroup old [item] err outcomes) =
    mkGroup todo [item] err outcomes.
Proof.
  destruct todo as [|next rest]; [done |].
  cbn. by rewrite andb_false_r.
Qed.

Lemma fire_next (next : Cmd) (rest : list Cmd) (outcomes : list Args) :
  fire 1 (mkGroup (next :: rest) [] None outcomes) =
    mkGroup rest [next] None outcomes.
Proof. unfold fire. cbn. apply fireNextItems_full. Qed.

Lemma fire_paused (concurrency : nat) (todo : list Cmd) (e : JsError)
    (outcomes : list Args) :
  fire concurrency (mkGroup todo [] (Some e) outcomes) =
    mkGroup todo [] (Some e) outcomes.
Proof. by destruct todo. Qed.

Lemma runGroup_idle (concurrency : nat) (choose : nat → nat → nat)
    (fuel step : nat) (todo : list Cmd) (err : option JsError)
    (outcomes : list Args) :
  runGroup invoke failure concurrency choose fuel step
    (mkGroup todo [] err outcomes) = mkGroup todo [] err outcomes.
Proof. by destruct fuel. Qed.

(** The one item in flight is the one that completes. *)
Lemma runGroup_single (choose : nat → nat → nat) (fuel step : nat)
    (todo : list Cmd) (command : Cmd) (outcomes : list Args) :
  runGroup invoke failure 1 choose (S fuel) step
    (mkGroup todo [command] None outcomes) =
  runGroup invoke failure 1 choose fuel (S step)
    (fire 1 (mkGroup todo [] (failure (invoke command))
                     (outcomes ++ [invoke command]))).
Proof. cbn [runGroup running length]. by rewrite Nat.mod_1_r. Qed.

Lemma throughFirstFailure_fail (command : Cmd) (rest : list Cmd)
    (e : JsError) :
  failure (invoke command) = Some e →
  throughFirstFailure invoke failure (command :: rest) = [command].
Proof. intros H. cbn [throughFirstFailure]. by rewrite H. Qed.

Lemma throughFirstFailure_ok (command : Cmd) (rest : list Cmd) :
  failure (invoke command) = None →
  throughFirstFailure invoke failure (command :: rest) =
    command :: throughFirstFailure invoke failure rest.
Proof. intros H. cbn [throughFirstFailure]. by rewrite H. Qed.

(** A sequential group runs its commands in the order they were added
    and stops after the first one that fails. *)
Lemma runGroup_sequential (choose : nat → nat → nat) (rest : list Cmd) :
  ∀ (command : Cmd) (outcomes : list Args) (fuel step : nat),
    (length rest < fuel)%nat →
    ∃ left,
      runGroup invoke failure 1 choose fuel step
        (mkGroup rest [command] None outcomes) =
      mkGroup left []
        (firstFailure failure
           (invoke <$> throughFirstFailure invoke failure (command :: rest)))
        (outcomes
         ++ (invoke <$> throughFirstFailure invoke failure (command :: rest))).
Proof.
  induction rest as [|next rest IH];
    intros command outcomes fuel step Hfuel;
    (destruct fuel as [|fuel]; [cbn in Hfuel; lia |]);
    rewrite runGroup_single;
    destruct (failure (invoke command)) as [e|] eqn:Hfail.
  - rewrite fire_paused, runGroup_idle.
    rewrite (throughFirstFailure_fail _ _ e Hfail).
    exists []. cbn [fmap list_fmap firstFailure]. by rewrite Hfail.
  - change (fire 1 (mkGroup [] [] None (outcomes ++ [invoke command])))
      with (mkGroup (@nil Cmd) [] None (outcomes ++ [invoke command])).
    rewrite runGroup_idle, (throughFirstFailure_ok _ _ Hfail).
    exists []. cbn [throughFirstFailure fmap list_fmap firstFailure].
    by rewrite Hfail.
  - rewrite fire_paused, runGroup_idle.
    rewrite (throughFirstFailure_fail _ _ e Hfail).
    exists (next :: rest). cbn [fmap list_fmap firstFailure].
    by rewrite Hfail.
  - rewrite fire_next, (throughFirstFailure_ok _ _ Hfail).
    destruct (IH next (outcomes ++ [invoke command]) fuel (S step))
      as [left Hrun]; [cbn in Hfuel; lia |].
    exists left. rewrite Hrun, fmap_cons.
    cbn [firstFailure]. rewrite Hfail.
    by rewrite <- app_assoc.
Qed.








Lemma runMultiple_errorIsFirst (commands : list Cmd)
    (concurrency : option nat) (choose : nat → nat → nat) :
  (runMultiple invoke failure commands concurrency choose).1 =
    firstFailure failure
      (runMultiple invoke failure commands concurrency choose).2.
Proof.
  unfold runMultiple. cbn [fst snd].
  apply runGroup_errorIsFirst. unfold errorIsFirst, fire.
  match goal with
  | |- context [fireNextItems ?n ?todo ?g'] =>
      destruct (fireNextItems_keeps n todo g') as [He Hr]
  end.
  by rewrite He, Hr.
Qed.

Lemma runMultiple_sequential (commands : list Cmd)
    (concurrency : option nat) (choose : nat → nat → nat) :
  default 1%nat concurrency = 1%nat →
  (runMultiple invoke failure commands concurrency choose).2 =
    invoke <$> throughFirstFailure invoke failure commands.
Proof.
  intros Hseq. unfold runMultiple. rewrite Hseq. cbn [snd].
  destruct commands as [|command rest]; [done |].
  rewrite fire_next.
  destruct (runGroup_sequential choose rest command [] (length (command :: rest))
              0%nat) as [left Hrun]; [cbn; lia |].
  by rewrite Hrun.
Qed.

End BatchFacts.




(* ===================================================================== *)
(** ** What a resolution touches *)
(* ===================================================================== *)

Lemma forallb_weaken {A} (P Q : A → bool) (l : list A) :
  (∀ a, P a = true → Q a = true) →
  forallb P l = true → forallb Q l = true.
Proof.
  intros HPQ. induction l as [|a l IH]; [done |].
  cbn [forallb]. intros [Ha Hl]%andb_true_iff.
  by rewrite (HPQ a Ha), IH.
Qed.

Lemma bind_events_forall {A B} (Q : Event → bool) (m : M A) (k : A → M B)
    (c : Caches) :
  forallb Q (events (m c)) = true →
  (∀ a c', forallb Q (events (k a c')) = true) →
  forallb Q (events (bind m k c)) = true.
Proof.
  intros Hm Hk. unfold bind. destruct (value (m c)); cbn [events]; [| done].
  rewrite forallb_app, Hm. cbn [andb]. apply Hk.
Qed.

Lemma replay_app (a b : list Event) (c : Caches) :
  replay (a ++ b) c = replay b (replay a c).
Proof.
  revert c. induction a as [|e a IH]; intros c; [done |].
  destruct e; cbn [app replay]; apply IH.
Qed.

Lemma replay_verifies (evs : list Event) (c : Caches) :
  forallb isVerify evs = true → replay evs c = c.
Proof.
  induction evs as [|e evs IH]; [done |].
  cbn [forallb]. intros [He Hevs]%andb_true_iff.
  destruct e; try done. by apply IH.
Qed.

Lemma recorded_ret {A} (a : A) : recorded (ret a).
Proof. by intros c. Qed.

Lemma recorded_throw {A} (e : JsError) : recorded (throw (A := A) e).
Proof. by intros c. Qed.

Lemma recorded_bind {A B} (m : M A) (k : A → M B) :
  recorded m → (∀ a, recorded (k a)) → recorded (bind m k).
Proof.
  intros Hm Hk c. unfold bind.
  destruct (value (m c)) as [a | e]; cbn [store events]; [| apply Hm].
  by rewrite replay_app, <- Hm, <- Hk.
Qed.

Lemma recorded_readSlot (s : Slot) : recorded (readSlot s).
Proof. by intros c. Qed.

Lemma recorded_writeSlot (s : Slot) (v : option string) :
  recorded (writeSlot s v).
Proof. by intros c. Qed.

Lemma recorded_pure {A} (m : M A) : pureM m → recorded m.
Proof. intros [v Hm] c. by rewrite Hm. Qed.

Lemma recorded_determineExecPath (w : World) (candidates : list string)
    (opts : Opts) :
  recorded (determineExecPath w candidates opts).
Proof.
  intros c. unfold determineExecPath.
  destruct (determineExecPath_from_run w opts candidates None c)
    as (found & evs & Hrun & Hver & _).
  rewrite Hrun. cbn [store events]. by rewrite replay_verifies.
Qed.

Lemma recorded_homePath (w : World) (opts : Opts) : recorded (homePath w opts).
Proof.
  unfold homePath. apply recorded_bind.
  - destruct (cacheOn opts); [apply recorded_readSlot | apply recorded_ret].
  - intros cached. destruct (cacheOn opts && Js.truthy_opt cached);
      [apply recorded_ret |].
    apply recorded_bind; [| intros; apply recorded_ret].
    destruct (cacheOn opts); [apply recorded_writeSlot | apply recorded_ret].
Qed.

Lemma recorded_getTmpPath (w : World) (opts : Opts) :
  recorded (getTmpPath w opts).
Proof.
  unfold getTmpPath. apply recorded_bind.
  { destruct (cacheOn opts); [apply recorded_readSlot | apply recorded_ret]. }
  intros cached. destruct (cacheOn opts && Js.truthy_opt cached);
    [apply recorded_ret |].
  apply recorded_bind.
  - destruct (Js.truthy_opt (firstTruthy _)); [apply recorded_ret |].
    apply recorded_bind; [apply recorded_homePath |].
    intros home. apply recorded_bind.
    + destruct home; [apply recorded_ret | apply recorded_throw].
    + intros tmpPath. destruct (Js.truthy tmpPath); [apply recorded_ret |].
      destruct (isWindows w); apply recorded_ret.
  - intros tmpPath. apply recorded_bind.
    + destruct (cacheOn opts); [apply recorded_writeSlot | apply recorded_ret].
    + intros []. destruct (Js.truthy_opt tmpPath); apply recorded_ret.
Qed.

Lemma recorded_locate (w : World) (opts : Opts) (slot : Slot)
    (notFound : string) (possibleExecPaths : M (list string)) :
  pureM possibleExecPaths →
  recorded (locate w opts slot notFound possibleExecPaths).
Proof.
  intros Hpure. unfold locate.
  apply recorded_bind; [by apply recorded_pure |].
  intros candidates. apply recorded_bind;
    [apply recorded_determineExecPath |].
  intros execPath. unfold located.
  destruct (negb (Js.truthy_opt execPath)); [apply recorded_ret |].
  apply recorded_bind; [| intros; apply recorded_ret].
  destruct (cacheOn opts); [apply recorded_writeSlot | apply recorded_ret].
Qed.

Lemma recorded_cachedOr (w : World) (opts : Opts) (slot : Slot)
    (notFound : string) (possibleExecPaths : M (list string)) :
  pureM possibleExecPaths →
  recorded (cachedOr w opts slot notFound possibleExecPaths).
Proof.
  intros Hpure. unfold cachedOr. apply recorded_bind.
  - destruct (cacheOn opts); [apply recorded_readSlot | apply recorded_ret].
  - intros cached. destruct (cacheOn opts && Js.truthy_opt cached);
      [apply recorded_ret | by apply recorded_locate].
Qed.

Lemma recorded_generic (w : World) (execName : string) (opts : Opts) :
  recorded (getExecPath_generic w execName opts).
Proof.
  unfold getExecPath_generic. apply recorded_bind.
  - unfold readExecPathCache. destruct (cacheOn opts); [| apply recorded_ret].
    by intros c.
  - intros cached. destruct (pathVal_truthy cached); [apply recorded_ret |].
    apply recorded_locate, getPossibleExecPaths_pure.
Qed.

(** The caches after a resolution are the caches before it with the writes
    of the run applied: nothing is written behind the back of the trace. *)
Lemma recorded_getExecPath (w : World) (execName : string) (opts : Opts) :
  recorded (getExecPath w execName opts).
Proof.
  unfold getExecPath. destruct (isAbsolute execName); [apply recorded_ret |].
  apply recorded_bind.
  - destruct execName; [apply recorded_throw | apply recorded_ret].
  - intros method.
    destruct (specialMethod method) as [[| | | | |]|].
    + apply recorded_throw.
    + unfold getHomePath. apply recorded_bind; [apply recorded_homePath |].
      intros; apply recorded_ret.
    + apply recorded_getTmpPath.
    + apply recorded_cachedOr, toolPaths_pure.
    + apply recorded_cachedOr, toolPaths_pure.
    + apply recorded_cachedOr, toolPaths_pure.
    + apply recorded_generic.
Qed.

Lemma homePath_events (w : World) (opts : Opts) (own : Slot → bool)
    (c : Caches) :
  own SlotHome = true →
  forallb (resolutionEvent (cacheOn opts) own) (events (homePath w opts c))
    = true.
Proof.
  intros Hown. unfold homePath. apply bind_events_forall.
  - destruct (cacheOn opts); cbn; [by rewrite Hown | done].
  - intros cached c1. destruct (cacheOn opts && Js.truthy_opt cached);
      [done |].
    apply bind_events_forall; [| done].
    destruct (cacheOn opts); cbn; [by rewrite Hown | done].
Qed.

Lemma getTmpPath_events (w : World) (opts : Opts) (own : Slot → bool)
    (c : Caches) :
  own SlotHome = true → own SlotTmp = true →
  forallb (resolutionEvent (cacheOn opts) own) (events (getTmpPath w opts c))
    = true.
Proof.
  intros Hhome Htmp. unfold getTmpPath. apply bind_events_forall.
  { destruct (cacheOn opts); cbn; [by rewrite Htmp | done]. }
  intros cached c1. destruct (cacheOn opts && Js.truthy_opt cached); [done |].
  apply bind_events_forall.
  - destruct (Js.truthy_opt (firstTruthy _)); [done |].
    apply bind_events_forall; [by apply homePath_events |].
    intros home c2. apply bind_events_forall; [by destruct home |].
    intros tmpPath c3. destruct (Js.truthy tmpPath); [done |].
    by destruct (isWindows w).
  - intros tmpPath c2. apply bind_events_forall.
    + destruct (cacheOn opts); cbn; [by rewrite Htmp | done].
    + intros [] c3. by destruct (Js.truthy_opt tmpPath).
Qed.

Lemma verifies_resolution (cache : bool) (own : Slot → bool)
    (evs : list Event) :
  forallb isVerify evs = true →
  forallb (resolutionEvent cache own) evs = true.
Proof. apply forallb_weaken. by intros []. Qed.

Lemma locate_events (w : World) (opts : Opts) (slot : Slot)
    (notFound : string) (possibleExecPaths : M (list string))
    (own : Slot → bool) (c : Caches) :
  pureM possibleExecPaths → own slot = true →
  forallb (resolutionEvent (cacheOn opts) own)
    (events (locate w opts slot notFound possibleExecPaths c)) = true.
Proof.
  intros Hpure Hown.
  destruct (locate_run w opts slot notFound possibleExecPaths c Hpure)
    as [(e & Hrun) | [(evs & Hrun & Hevs)
                     | (q & evs & Hrun & Hq & Hevs & Hin)]];
    rewrite Hrun; cbn [events].
  - done.
  - by apply verifies_resolution.
  - rewrite forallb_app, verifies_resolution by done.
    destruct (cacheOn opts); [| done].
    cbn. by rewrite Hown, Hq, orb_true_r.
Qed.

Lemma cachedOr_events (w : World) (opts : Opts) (slot : Slot)
    (notFound : string) (possibleExecPaths : M (list string))
    (own : Slot → bool) (c : Caches) :
  pureM possibleExecPaths → own slot = true →
  forallb (resolutionEvent (cacheOn opts) own)
    (events (cachedOr w opts slot notFound possibleExecPaths c)) = true.
Proof.
  intros Hpure Hown. unfold cachedOr. apply bind_events_forall.
  - destruct (cacheOn opts); cbn; [by rewrite Hown | done].
  - intros cached c1. destruct (cacheOn opts && Js.truthy_opt cached);
      [done | by apply locate_events].
Qed.

Lemma generic_events (w : World) (execName : string) (opts : Opts)
    (own : Slot → bool) (c : Caches) :
  own (SlotExec execName) = true →
  forallb (resolutionEvent (cacheOn opts) own)
    (events (getExecPath_generic w execName opts c)) = true.
Proof.
  intros Hown. unfold getExecPath_generic. apply bind_events_forall.
  - unfold readExecPathCache. destruct (cacheOn opts); cbn;
      [by rewrite Hown | done].
  - intros cached c1. destruct (pathVal_truthy cached); [done |].
    apply locate_events; [apply getPossibleExecPaths_pure | done].
Qed.

(** All a resolution does is verify candidates and, with caching on, read
    and write the slots of the name it resolves. *)
Lemma getExecPath_events (w : World) (execName : string) (opts : Opts)
    (c : Caches) :
  forallb (resolutionEvent (cacheOn opts) (slotsOf execName))
    (events (getExecPath w execName opts c)) = true.
Proof.
  unfold getExecPath. destruct (isAbsolute execName); [done |].
  destruct execName as [|ch rest]; [done |].
  cbn [getExecMethodName]. rewrite bind_ret.
  set (name := String ch rest).
  destruct (specialMethod _) as [[| | | | |]|] eqn:Hmethod.
  - done.
  - unfold getHomePath. apply bind_events_forall; [| done].
    apply homePath_events. unfold name, slotsOf. by rewrite Hmethod.
  - apply getTmpPath_events; unfold name, slotsOf; by rewrite Hmethod.
  - apply cachedOr_events; [apply toolPaths_pure |].
    unfold name, slotsOf. by rewrite Hmethod.
  - apply cachedOr_events; [apply toolPaths_pure |].
    unfold name, slotsOf. by rewrite Hmethod.
  - apply cachedOr_events; [apply toolPaths_pure |].
    unfold name, slotsOf. by rewrite Hmethod.
  - apply generic_events. unfold name, slotsOf. rewrite Hmethod.
    by apply bool_decide_eq_true_2.
Qed.

(** Replaying events that write nothing, or only into slots outside a
    set, leaves what is outside that set. *)
Lemma replay_entry (cache : bool) (own : Slot → bool) (evs : list Event)
    (c : Caches) (other : string) :
  own (SlotExec other) = false →
  forallb (resolutionEvent cache own) evs = true →
  execPathCache (replay evs c) !! other = execPathCache c !! other.
Proof.
  intros Hother. revert c. induction evs as [|e evs IH]; intros c; [done |].
  cbn [forallb]. intros [He Hevs]%andb_true_iff.
  destruct e as [s | s v | | | |]; cbn [replay]; try by apply IH.
  rewrite IH by done.
  cbn [resolutionEvent] in He.
  apply andb_true_iff in He as [[_ Hown]%andb_true_iff _].
  destruct s as [name | | | | |]; try done.
  cbn [slot_put]. destruct v as [p|]; [| done].
  destruct (bool_decide (name = "__proto__")); [done |].
  cbn [execPathCache]. apply lookup_insert_ne. intros ->. congruence.
Qed.

Lemma replay_cache_off (own : Slot → bool) (evs : list Event) (c : Caches) :
  forallb (resolutionEvent false own) evs = true →
  replay evs c = c ∧ forallb isVerify evs = true.
Proof.
  revert c. induction evs as [|e evs IH]; intros c; [done |].
  cbn [forallb]. intros [He Hevs]%andb_true_iff.
  destruct e; try done. cbn [replay forallb isVerify andb]. by apply IH.
Qed.

Lemma slot_get_put_other (s s' : Slot) (v : option string) (c : Caches) :
  s ≠ s' → slot_get s (slot_put s' v c) = slot_get s c.
Proof.
  intros Hne. destruct s' as [name' | | | | |]; destruct s as [name | | | | |];
    try done;
    cbn [slot_put slot_get]; (destruct v as [p|]; [| done]);
    (destruct (bool_decide (name' = "__proto__")); [done |]);
    cbn [execPathCache cachedHomePath cachedTmpPath cachedGitPath
         cachedNodePath cachedNpmPath]; try done.
  apply lookup_insert_ne. intros ->. done.
Qed.

Lemma replay_slot (cache : bool) (own : Slot → bool) (evs : list Event)
    (c : Caches) (s : Slot) :
  own s = false →
  forallb (resolutionEvent cache own) evs = true →
  slot_get s (replay evs c) = slot_get s c.
Proof.
  intros Hs. revert c. induction evs as [|e evs IH]; intros c; [done |].
  cbn [forallb]. intros [He Hevs]%andb_true_iff.
  destruct e as [s' | s' v | | | |]; cbn [replay]; try by apply IH.
  rewrite IH by done.
  cbn [resolutionEvent] in He.
  apply andb_true_iff in He as [[_ Hown]%andb_true_iff _].
  apply slot_get_put_other. intros ->. congruence.
Qed.

Lemma replay_noEmptyEntry (cache : bool) (own : Slot → bool)
    (evs : list Event) (c : Caches) :
  forallb (resolutionEvent cache own) evs = true →
  noEmptyEntry c → noEmptyEntry (replay evs c).
Proof.
  revert c. induction evs as [|e evs IH]; intros c; [done |].
  cbn [forallb]. intros [He Hevs]%andb_true_iff Hc.
  destruct e as [s | s v | | | |]; cbn [replay]; try by apply IH.
  apply IH; [done |].
  cbn [resolutionEvent] in He.
  apply andb_true_iff in He as [_ Hv].
  destruct s as [name | | | | |]; try done.
  cbn [slot_put]. destruct v as [p|]; [| done].
  destruct (bool_decide (name = "__proto__")); [done |].
  intros other. cbn [execPathCache].
  destruct (decide (name = other)) as [-> | Hne].
  - rewrite lookup_insert_eq. intros [= ->]. done.
  - rewrite lookup_insert_ne by done. apply Hc.
Qed.

(** X1. With [cache: false] a resolution never looks at a cache and never
    writes one: the caches are left as they were and all the run does is
    call the verifier. *)
Theorem getExecPath_cache_off (w : World) (execName : string) (opts : Opts)
    (c : Caches) (Hoff : cacheOn opts = false) :
  store (getExecPath w execName opts c) = c
  ∧ forallb isVerify (events (getExecPath w execName opts c)) = true.
Proof.
  pose proof (getExecPath_events w execName opts c) as Hevs.
  rewrite Hoff in Hevs.
  rewrite recorded_getExecPath.
  by apply (replay_cache_off (slotsOf execName)).
Qed.

Lemma getExecPath_cache_off_witness :
  let opts := mkOpts None None None None None None EnvUnset (Some false)
                     None None in
  store (getExecPath posixWorld "ls" opts noCaches) = noCaches
  ∧ events (getExecPath posixWorld "ls" opts noCaches)
    = [EvVerify "/work/ls" false; EvVerify "/usr/bin/ls" true].
Proof.
  split; [| reflexivity].
  apply (getExecPath_cache_off posixWorld "ls"
           (mkOpts None None None None None None EnvUnset (Some false)
                   None None) noCaches eq_refl).
Defined.

(** X2. A resolution only touches the slots of the name it resolves: the
    run consists of verifier calls and of reads and writes of those slots,
    and every other slot, the entry of every other name included, holds
    after the run what it held before. *)
Theorem getExecPath_own_slots (w : World) (execName : string) (opts : Opts)
    (c : Caches) :
  forallb (resolutionEvent (cacheOn opts) (slotsOf execName))
    (events (getExecPath w execName opts c)) = true
  ∧ (∀ s, slotsOf execName s = false →
          slot_get s (store (getExecPath w execName opts c)) = slot_get s c)
  ∧ (∀ other, other ≠ execName →
          execPathCache (store (getExecPath w execName opts c)) !! other
          = execPathCache c !! other).
Proof.
  pose proof (getExecPath_events w execName opts c) as Hevs.
  split; [done |].
  assert (Hslots : ∀ s, slotsOf execName s = false →
            slot_get s (store (getExecPath w execName opts c))
            = slot_get s c).
  { intros s Hs. rewrite recorded_getExecPath.
    by apply (replay_slot (cacheOn opts) (slotsOf execName)). }
  split; [done |].
  intros other Hother. apply (Hslots (SlotExec other)).
  unfold slotsOf. destruct execName as [|ch rest]; [done |].
  destruct (specialMethod _) as [[| | | | |]|]; try done.
  by apply bool_decide_eq_false_2.
Qed.

(** X3. An entry of [execPathCache] is never the empty string: a
    resolution keeps that so, whatever the name and the options. *)
Theorem getExecPath_noEmptyEntry (w : World) (execName : string)
    (opts : Opts) (c : Caches) (Hc : noEmptyEntry c) :
  noEmptyEntry (store (getExecPath w execName opts c)).
Proof.
  rewrite recorded_getExecPath.
  apply (replay_noEmptyEntry (cacheOn opts) (slotsOf execName));
    [apply getExecPath_events | done].
Qed.

Lemma getExecPath_noEmptyEntry_witness :
  noEmptyEntry noCaches
  ∧ noEmptyEntry (store (getExecPath posixWorld "ls" noOpts noCaches)).
Proof.
  assert (H : noEmptyEntry noCaches).
  { intros name. change (execPathCache noCaches) with (∅ : gmap string string).
    by rewrite lookup_empty. }
  split; [done |].
  apply (getExecPath_noEmptyEntry posixWorld "ls" noOpts noCaches H).
Defined.

Lemma bind_value_inv {A B} (m : M A) (k : A → M B) (c : Caches) (b : B) :
  value (bind m k c) = Ok b →
  ∃ a, value (m c) = Ok a ∧ value (k a (store (m c))) = Ok b.
Proof.
  unfold bind. destruct (value (m c)) as [a | e]; [| done].
  intros H. by exists a.
Qed.

Lemma cachedOr_failed (w : World) (opts : Opts) (slot : Slot)
    (notFound : string) (possibleExecPaths : M (list string)) (c : Caches)
    (e : JsError) (more : list Reply) :
  pureM possibleExecPaths →
  value (cachedOr w opts slot notFound possibleExecPaths c)
    = Ok (ReplyErr e, more) →
  store (cachedOr w opts slot notFound possibleExecPaths c) = c.
Proof.
  intros Hpure. unfold cachedOr.
  assert (∃ cached evs,
            (if cacheOn opts then readSlot slot else ret None) c
            = mkRun (Ok cached) c evs) as (cached & evs & Hread).
  { destruct (cacheOn opts); by eexists _, _. }
  rewrite !(bind_ok _ _ c cached) by by rewrite Hread.
  rewrite Hread. cbn [value store events].
  destruct (cacheOn opts && Js.truthy_opt cached); [done |].
  destruct (locate_run w opts slot notFound possibleExecPaths c Hpure)
    as [(e' & Hrun) | [(evs' & Hrun & _) | (q & evs' & Hrun & _)]];
    by rewrite Hrun.
Qed.

Lemma generic_failed (w : World) (execName : string) (opts : Opts)
    (c : Caches) (e : JsError) (more : list Reply) :
  value (getExecPath_generic w execName opts c) = Ok (ReplyErr e, more) →
  store (getExecPath_generic w execName opts c) = c.
Proof.
  unfold getExecPath_generic.
  assert (∃ cached evs,
            readExecPathCache opts execName c = mkRun (Ok cached) c evs)
    as (cached & evs & Hread).
  { unfold readExecPathCache. destruct (cacheOn opts); by eexists _, _. }
  rewrite !(bind_ok _ _ c cached) by by rewrite Hread.
  rewrite Hread. cbn [value store events].
  destruct (pathVal_truthy cached); [done |].
  destruct (locate_run w opts (SlotExec execName) (notLocated execName)
              (getPossibleExecPaths w execName) c
              (getPossibleExecPaths_pure w execName))
    as [(e' & Hrun) | [(evs' & Hrun & _) | (q & evs' & Hrun & _)]];
    by rewrite Hrun.
Qed.

(** The temp resolver calls back once exactly when it calls back with a
    path. *)
Lemma getTmpPath_single (w : World) (opts : Opts) (c : Caches) (e : JsError) :
  value (getTmpPath w opts c) ≠ Ok (ReplyErr e, []).
Proof.
  unfold getTmpPath. intros H.
  apply bind_value_inv in H as (cached & _ & H).
  destruct (cacheOn opts && Js.truthy_opt cached); [done |].
  apply bind_value_inv in H as (tmpPath & _ & H).
  apply bind_value_inv in H as ([] & _ & H).
  by destruct (Js.truthy_opt tmpPath).
Qed.

(** X4. A failure is not remembered: when a resolution calls back once,
    with an error, the caches are what they were before it, so that asking
    again tries the candidates again. *)
Theorem getExecPath_failure_not_cached (w : World) (execName : string)
    (opts : Opts) (c : Caches) (e : JsError)
    (Hfailed : value (getExecPath w execName opts c) = Ok (ReplyErr e, [])) :
  store (getExecPath w execName opts c) = c.
Proof.
  revert Hfailed. unfold getExecPath.
  destruct (isAbsolute execName); [done |].
  destruct execName as [|ch rest]; [done |].
  cbn [getExecMethodName]. rewrite !bind_ret.
  destruct (specialMethod _) as [[| | | | |]|].
  - done.
  - unfold getHomePath. intros H.
    by apply bind_value_inv in H as (home & _ & H).
  - intros H. by apply getTmpPath_single in H.
  - apply cachedOr_failed, toolPaths_pure.
  - apply cachedOr_failed, toolPaths_pure.
  - apply cachedOr_failed, toolPaths_pure.
  - apply generic_failed.
Qed.

Lemma getExecPath_failure_not_cached_witness :
  value (getExecPath posixWorld "git" noOpts noCaches)
    = Ok (ReplyErr (newError "Could not locate git binary"), [])
  ∧ store (getExecPath posixWorld "git" noOpts noCaches) = noCaches.
Proof.
  split; [reflexivity |].
  apply (getExecPath_failure_not_cached posixWorld "git" noOpts noCaches
           (newError "Could not locate git binary") eq_refl).
Defined.

(* ===================================================================== *)
(** ** The search for the executable *)
(* ===================================================================== *)

Lemma determineExecPath_from_tested (w : World) (opts : Opts)
    (candidates : list string) (execPath : option string) (c : Caches) :
  (∀ p, path_resolve w [p] ≠ "") →
  Js.truthy_opt execPath = false →
  determineExecPath_from w opts candidates execPath c =
    mkRun (Ok (match firstVerified w opts candidates with
               | Some p => Some p
               | None => execPath
               end))
          c ((λ p, EvVerify p (verdict w opts p))
             <$> testedPaths w opts candidates).
Proof.
  intros Hresolve.
  revert execPath. induction candidates as [|p rest IH];
    intros execPath Hnone; [done |].
  cbn [determineExecPath_from firstVerified testedPaths]. rewrite Hnone.
  unfold Js.truthy. destruct (Js.is_empty p); cbn [negb andb].
  - by apply IH.
  - rewrite (bind_ok _ _ _ (verdict w opts (path_resolve w [p])))
      by by rewrite isExecutable_run.
    rewrite isExecutable_run. cbn [value store events].
    destruct (verdict w opts (path_resolve w [p])) eqn:Hp.
    + rewrite determineExecPath_from_found.
      * cbn [value store events fmap list_fmap app]. by rewrite Hp.
      * cbn [Js.truthy_opt]. by apply truthy_nonempty.
    + rewrite IH by done. cbn [value store events fmap list_fmap app].
      by rewrite Hp.
Qed.

Lemma testedPaths_rejected (w : World) (opts : Opts)
    (candidates : list string) (pre post : list string) (p : string) :
  testedPaths w opts candidates = pre ++ p :: post →
  post ≠ [] → verdict w opts p = false.
Proof.
  revert pre. induction candidates as [|cand rest IH]; intros pre.
  - by destruct pre.
  - cbn [testedPaths]. destruct (Js.is_empty cand); [apply IH |].
    destruct (verdict w opts (path_resolve w [cand])) eqn:Hcand.
    + destruct pre as [|q [|q' pre]]; [| done | done].
      intros [= <- <-]. done.
    + destruct pre as [|q pre].
      * intros [= <- _]. done.
      * intros [= _ Hrest]. by apply (IH pre).
Qed.

(** X5. [determineExecPath] shows the candidates to the verifier one at a
    time, in list order, skipping the empty ones, and stops at the first
    one accepted: every path tested before another one was rejected, so no
    candidate behind the accepted one is ever tested.  The caches are not
    touched and the result is the accepted path, if any. *)
Theorem determineExecPath_stops (w : World) (candidates : list string)
    (opts : Opts) (c : Caches)
    (Hresolve : ∀ p, path_resolve w [p] ≠ "") :
  determineExecPath w candidates opts c =
    mkRun (Ok (firstVerified w opts candidates)) c
          ((λ p, EvVerify p (verdict w opts p))
           <$> testedPaths w opts candidates)
  ∧ (length (testedPaths w opts candidates) ≤ length candidates)%nat
  ∧ (∀ pre p post,
       testedPaths w opts candidates = pre ++ p :: post →
       post ≠ [] → verdict w opts p = false).
Proof.
  split; [| split].
  - unfold determineExecPath.
    rewrite determineExecPath_from_tested by done.
    by destruct (firstVerified w opts candidates).
  - induction candidates as [|cand rest IH]; [done |].
    cbn [testedPaths length]. destruct (Js.is_empty cand); [lia |].
    destruct (verdict w opts _); cbn [length]; lia.
  - intros pre p post. apply testedPaths_rejected.
Qed.

Lemma posixResolve_nonempty (p : string) : path_resolve posixWorld [p] ≠ "".
Proof.
  cbn. destruct (Js.starts_with "/" p) eqn:Hp.
  - intros ->. done.
  - by destruct (Js.is_empty p).
Qed.

Lemma determineExecPath_stops_witness :
  determineExecPath posixWorld
    ["/work/ls"; ""; "/usr/bin/ls"; "/opt/tools/bin/ls"] noOpts noCaches
  = mkRun (Ok (Some "/usr/bin/ls")) noCaches
      [EvVerify "/work/ls" false; EvVerify "/usr/bin/ls" true].
Proof.
  pose proof (determineExecPath_stops posixWorld
                ["/work/ls"; ""; "/usr/bin/ls"; "/opt/tools/bin/ls"]
                noOpts noCaches posixResolve_nonempty) as [H _].
  rewrite H. reflexivity.
Defined.

Lemma determineExecPath_from_sound (w : World) (opts : Opts)
    (candidates : list string) (execPath : option string) (c : Caches) :
  ∃ found evs,
    determineExecPath_from w opts candidates execPath c
      = mkRun (Ok found) c evs
    ∧ (found = execPath
       ∨ ∃ cand, cand ∈ candidates ∧ Js.truthy cand = true
                 ∧ verdict w opts (path_resolve w [cand]) = true
                 ∧ found = Some (path_resolve w [cand]))
    ∧ (found = None →
       execPath = None
       ∧ ∀ cand, cand ∈ candidates → Js.truthy cand = true →
                 verdict w opts (path_resolve w [cand]) = false).
Proof.
  revert execPath. induction candidates as [|p rest IH]; intros execPath.
  - exists execPath, []. split; [done |]. split; [by left |].
    intros ->. split; [done |]. intros cand Hin. by apply elem_of_nil in Hin.
  - cbn [determineExecPath_from].
    destruct (Js.is_empty p) eqn:Hempty.
    { destruct (IH execPath) as (found & evs & Hrun & Hfrom & Hnone).
      exists found, evs. split; [done |]. split.
      - destruct Hfrom as [-> | (cand & Hin & Hrest)]; [by left |].
        right. exists cand. split; [by apply list_elem_of_further | done].
      - intros Hf. destruct (Hnone Hf) as [He Hall]. split; [done |].
        intros cand [-> | Hin]%elem_of_cons Hcand.
        + unfold Js.truthy in Hcand. by rewrite Hempty in Hcand.
        + by apply Hall. }
    destruct (Js.truthy_opt execPath) eqn:Htruthy.
    { rewrite determineExecPath_from_found by done.
      exists execPath, []. split; [done |]. split; [by left |].
      intros ->. done. }
    set (q := path_resolve w [p]).
    rewrite (bind_ok _ _ _ (verdict w opts q)) by by rewrite isExecutable_run.
    rewrite isExecutable_run. cbn [value store events].
    destruct (verdict w opts q) eqn:Hq.
    + destruct (IH (Some q)) as (found & evs & Hrun & Hfrom & Hnone).
      exists found, (EvVerify q true :: evs). rewrite Hrun.
      split; [done |]. split.
      * right. destruct Hfrom as [-> | (cand & Hin & Hrest)].
        -- exists p. split; [apply list_elem_of_here |].
           unfold Js.truthy. by rewrite Hempty.
        -- exists cand. split; [by apply list_elem_of_further | done].
      * intros Hf. by destruct (Hnone Hf) as [? _].
    + destruct (IH execPath) as (found & evs & Hrun & Hfrom & Hnone).
      exists found, (EvVerify q false :: evs). rewrite Hrun.
      split; [done |]. split.
      * destruct Hfrom as [-> | (cand & Hin & Hrest)]; [by left |].
        right. exists cand. split; [by apply list_elem_of_further | done].
      * intros Hf. destruct (Hnone Hf) as [He Hall]. split; [done |].
        intros cand [-> | Hin]%elem_of_cons Hcand; [done | by apply Hall].
Qed.

(** X6. Whatever [path.resolve] does, [determineExecPath] never throws
    and never touches the caches; a path it hands on is a candidate of the
    list, made absolute, that the verifier accepted; and it hands on
    nothing exactly when the verifier rejects every candidate that is not
    empty. *)
Theorem determineExecPath_sound (w : World) (candidates : list string)
    (opts : Opts) (c : Caches) :
  ∃ found evs,
    determineExecPath w candidates opts c = mkRun (Ok found) c evs
    ∧ (∀ p, found = Some p →
            verdict w opts p = true
            ∧ ∃ cand, cand ∈ candidates ∧ p = path_resolve w [cand])
    ∧ (found = None ↔
       ∀ cand, cand ∈ candidates → Js.truthy cand = true →
               verdict w opts (path_resolve w [cand]) = false).
Proof.
  unfold determineExecPath.
  destruct (determineExecPath_from_sound w opts candidates None c)
    as (found & evs & Hrun & Hfrom & Hnone).
  exists found, evs. split; [done |]. split.
  - intros p ->. destruct Hfrom as [? | (cand & Hin & _ & Hv & [= ->])];
      [done |].
    split; [done |]. by exists cand.
  - split; [intros Hf; by apply Hnone |].
    intros Hall. destruct Hfrom as [-> | (cand & Hin & Ht & Hv & _)];
      [done |].
    by rewrite (Hall cand Hin Ht) in Hv.
Qed.

(* ===================================================================== *)
(** ** Resolution failures *)
(* ===================================================================== *)

Lemma getStandardExecPaths_unset (w : World) (execName : string)
    (c : Caches) :
  getenv w "PATH" = None →
  getStandardExecPaths w execName c =
    mkRun (Throw (typeError "Cannot read property 'split' of undefined")) c [].
Proof.
  intros Hpath. unfold getStandardExecPaths, getEnvironmentPaths.
  by rewrite Hpath.
Qed.

Lemma getPossibleExecPaths_unset (w : World) (execName : string)
    (c : Caches) :
  getenv w "PATH" = None →
  getPossibleExecPaths w execName c =
    mkRun (Throw (typeError "Cannot read property 'split' of undefined")) c [].
Proof.
  intros Hpath. unfold getPossibleExecPaths.
  destruct (isWindows w && negb (Js.has_char "." execName)).
  - rewrite (bind_throw _ _ _ _)
      by by rewrite (getStandardExecPaths_unset _ _ _ Hpath).
    by rewrite (getStandardExecPaths_unset _ _ _ Hpath).
  - by apply getStandardExecPaths_unset.
Qed.

Lemma locate_throws (w : World) (opts : Opts) (slot : Slot)
    (notFound : string) (possibleExecPaths : M (list string)) (c : Caches)
    (e : JsError) :
  possibleExecPaths c = mkRun (Throw e) c [] →
  locate w opts slot notFound possibleExecPaths c = mkRun (Throw e) c [].
Proof.
  intros Hthrow. unfold locate.
  rewrite (bind_throw _ _ _ e) by by rewrite Hthrow.
  by rewrite Hthrow.
Qed.

Lemma cachedOr_throws (w : World) (opts : Opts) (slot : Slot)
    (notFound : string) (possibleExecPaths : M (list string)) (c : Caches)
    (e : JsError) :
  cacheOn opts = false ∨ Js.truthy_opt (slot_get slot c) = false →
  possibleExecPaths c = mkRun (Throw e) c [] →
  value (cachedOr w opts slot notFound possibleExecPaths c) = Throw e
  ∧ store (cachedOr w opts slot notFound possibleExecPaths c) = c.
Proof.
  intros Hmiss Hthrow. unfold cachedOr.
  destruct (cacheOn opts) eqn:Hcache.
  - destruct Hmiss as [? | Hmiss]; [done |].
    rewrite !(bind_ok _ _ c (slot_get slot c)) by by rewrite readSlot_run.
    rewrite readSlot_run. cbn [value store events andb]. rewrite Hmiss.
    by rewrite (locate_throws _ _ _ _ _ _ e).
  - rewrite !bind_ret. cbn [andb].
    by rewrite (locate_throws _ _ _ _ _ _ e).
Qed.

Lemma toolPaths_unset (w : World) (execName : string)
    (k : list string → list string) (c : Caches) :
  getenv w "PATH" = None →
  (standard <- getStandardExecPaths w execName ;; ret (k standard)) c =
    mkRun (Throw (typeError "Cannot read property 'split' of undefined")) c [].
Proof.
  intros Hpath.
  rewrite (bind_throw _ _ _ _)
    by by rewrite (getStandardExecPaths_unset _ _ _ Hpath).
  by rewrite (getStandardExecPaths_unset _ _ _ Hpath).
Qed.

(** X7. Without a [PATH] in the environment nothing can be searched for:
    for a name that is not absolute, has no resolver of its own and is not
    answered from the cache, [getExecPath] throws the [TypeError] of
    [process.env.PATH.split] instead of calling back; the git, node and npm
    resolvers do the same when their slot does not answer, whatever their
    override variables hold.  The caches are left as they were. *)
Theorem getExecPath_no_PATH (w : World) (execName : string) (opts : Opts)
    (c : Caches) (method : string)
    (Hpath : getenv w "PATH" = None)
    (Hrelative : isAbsolute execName = false)
    (Hmethod : value (getExecMethodName execName c) = Ok method)
    (Hgeneric : specialMethod method = None)
    (Huncached : cacheOn opts = false
                 ∨ pathVal_truthy (execPathCache_get c execName) = false) :
  let e := typeError "Cannot read property 'split' of undefined" in
  (value (getExecPath w execName opts c) = Throw e
   ∧ store (getExecPath w execName opts c) = c)
  ∧ (cacheOn opts = false ∨ Js.truthy_opt (cachedGitPath c) = false →
     value (getGitPath w opts c) = Throw e ∧ store (getGitPath w opts c) = c)
  ∧ (cacheOn opts = false ∨ Js.truthy_opt (cachedNodePath c) = false →
     value (getNodePath w opts c) = Throw e
     ∧ store (getNodePath w opts c) = c)
  ∧ (cacheOn opts = false ∨ Js.truthy_opt (cachedNpmPath c) = false →
     value (getNpmPath w opts c) = Throw e ∧ store (getNpmPath w opts c) = c).
Proof.
  intros e. split; [| split; [| split]].
  - unfold getExecPath. rewrite Hrelative.
    destruct execName as [|ch rest]; [done |].
    cbn [getExecMethodName] in *. rewrite !bind_ret.
    injection Hmethod as <-. rewrite Hgeneric.
    unfold getExecPath_generic.
    assert (∃ v evs,
              readExecPathCache opts (String ch rest) c = mkRun (Ok v) c evs
              ∧ pathVal_truthy v = false) as (v & evs & Hread & Hv).
    { unfold readExecPathCache. destruct Huncached as [Hoff | Hmiss].
      - rewrite Hoff. by exists None, [].
      - destruct (cacheOn opts); [| by exists None, []].
        by exists (execPathCache_get c (String ch rest)),
                  [EvCacheRead (SlotExec (String ch rest))]. }
    rewrite !(bind_ok _ _ _ v) by by rewrite Hread.
    rewrite Hread. cbn [value store events]. rewrite Hv.
    by rewrite (locate_throws _ _ _ _ _ _ e)
      by by apply getPossibleExecPaths_unset.
  - intros Hmiss. apply cachedOr_throws; [done |]. by apply toolPaths_unset.
  - intros Hmiss. apply cachedOr_throws; [done |]. by apply toolPaths_unset.
  - intros Hmiss. apply cachedOr_throws; [done |]. by apply toolPaths_unset.
Qed.

Lemma getExecPath_no_PATH_witness :
  getenv bareWorld "PATH" = None
  ∧ value (getExecPath bareWorld "ls" noOpts noCaches)
    = Throw (typeError "Cannot read property 'split' of undefined").
Proof.
  split; [reflexivity |].
  pose proof (getExecPath_no_PATH bareWorld "ls" noOpts noCaches "getLsPath"
                eq_refl eq_refl eq_refl eq_refl (or_intror eq_refl))
    as [[H _] _].
  exact H.
Defined.

(* ===================================================================== *)
(** ** Spawning after resolution *)
(* ===================================================================== *)

Lemma try_ok {A} (m : M A) (c : Caches) (a : A) :
  value (m c) = Ok a →
  try_ m c = mkRun (Ok (inr a)) (store (m c)) (events (m c)).
Proof. intros H. unfold try_. by rewrite H. Qed.

Lemma try_throw {A} (m : M A) (c : Caches) (e : JsError) :
  value (m c) = Throw e →
  try_ m c = mkRun (Ok (inl e)) (store (m c)) (events (m c)).
Proof. intros H. unfold try_. by rewrite H. Qed.

Lemma prepared_safe_on (w : World) (opts : Opts) :
  default true (o_safe opts) = true →
  flag (o_safe (prepareExecutableOptions w opts)) = true
  ∧ flag (o_safe (setSync (prepareExecutableOptions w opts))) = true.
Proof.
  intros Hsafe. destruct (prepared_safe w opts) as [Hs _].
  cbn [setSync o_safe]. by rewrite Hs, Hsafe.
Qed.

(** When the resolution of the executable does not give a path, the
    non-blocking spawn ends there: one call of [next], with the error. *)
Lemma spawn_aborted (w : World) (command : Command) (opts : Opts)
    (c : Caches) (err : JsError) :
  flag (o_sync opts) = false →
  default true (o_safe opts) = true →
  let resolution :=
    getExecPathOf w (executableName (normalizeCommand command))
      (prepareExecutableOptions w opts) c in
  (value resolution = Throw err
   ∨ ∃ more, value resolution = Ok (ReplyErr err, more)) →
  spawn w command opts c =
    mkRun (Ok [mkOutcome (Some err) None None None None])
          (store resolution) (events resolution).
Proof.
  intros Hsync Hsafe resolution Hfail. unfold spawn.
  destruct (prepared_safe w opts) as [_ Hy]. rewrite Hy, Hsync.
  destruct (prepared_safe_on w opts Hsafe) as [Hs _]. rewrite Hs.
  fold resolution.
  destruct Hfail as [Hthrow | (more & Herr)].
  - rewrite (bind_ok _ _ c (inl err)).
    + rewrite (bind_ok _ _ c (inl err)) by by rewrite (try_throw _ _ err).
      rewrite (try_throw _ _ err) by done.
      cbn [ret value store events]. by rewrite !app_nil_r.
    + rewrite (bind_ok _ _ c (inl err)) by by rewrite (try_throw _ _ err).
      by rewrite (try_throw _ _ err).
  - rewrite (bind_ok _ _ c (inl err)).
    + rewrite (bind_ok _ _ c (inr (ReplyErr err, more)))
        by by rewrite (try_ok _ _ (ReplyErr err, more)).
      rewrite (try_ok _ _ (ReplyErr err, more)) by done.
      cbn [ret value store events]. by rewrite !app_nil_r.
    + rewrite (bind_ok _ _ c (inr (ReplyErr err, more)))
        by by rewrite (try_ok _ _ (ReplyErr err, more)).
      by rewrite (try_ok _ _ (ReplyErr err, more)).
Qed.

Lemma resolution_never_spawns (cache : bool) (own : Slot → bool)
    (evs : list Event) :
  forallb (resolutionEvent cache own) evs = true →
  forallb (λ e, negb (isSpawnEvent e)) evs = true.
Proof. apply forallb_weaken. by intros []. Qed.

Lemma getExecPathOf_never_spawns (w : World) (file : option string)
    (opts : Opts) (c : Caches) :
  forallb (λ e, negb (isSpawnEvent e)) (events (getExecPathOf w file opts c))
    = true.
Proof.
  destruct file as [execName|]; [| done].
  apply (resolution_never_spawns (cacheOn opts) (slotsOf execName)),
    getExecPath_events.
Qed.

(** X8. When the resolution of the executable fails, with an error handed
    to its callback or with an exception, the non-blocking [spawn] creates
    no child process: it calls [next] exactly once, with that error and
    with [null] for stdout, stderr, status and signal. *)
Theorem spawn_unresolved (w : World) (command : Command) (opts : Opts)
    (c : Caches) (err : JsError)
    (Hasync : flag (o_sync opts) = false)
    (Hsafe : default true (o_safe opts) = true)
    (Hfailed :
       value (getExecPathOf w (executableName (normalizeCommand command))
                (prepareExecutableOptions w opts) c) = Throw err
       ∨ ∃ more,
           value (getExecPathOf w (executableName (normalizeCommand command))
                    (prepareExecutableOptions w opts) c)
           = Ok (ReplyErr err, more)) :
  value (spawn w command opts c)
    = Ok [mkOutcome (Some err) None None None None]
  ∧ forallb (λ e, negb (isSpawnEvent e)) (events (spawn w command opts c))
    = true.
Proof.
  rewrite (spawn_aborted w command opts c err Hasync Hsafe Hfailed).
  split; [done |]. apply getExecPathOf_never_spawns.
Qed.

Lemma spawn_unresolved_witness :
  spawn posixWorld (CmdString "nothere -l") noOpts noCaches
  = mkRun
      (Ok [mkOutcome
             (Some (newError "Could not locate the nothere executable path"))
             None None None None])
      noCaches
      [EvCacheRead (SlotExec "nothere"); EvVerify "/work/nothere" false;
       EvVerify "/usr/bin/nothere" false;
       EvVerify "/opt/tools/bin/nothere" false]
  ∧ forallb (λ e, negb (isSpawnEvent e))
      (events (spawn posixWorld (CmdString "nothere -l") noOpts noCaches))
    = true.
Proof.
  split; [reflexivity |].
  apply (spawn_unresolved posixWorld (CmdString "nothere -l") noOpts noCaches
           (newError "Could not locate the nothere executable path")
           eq_refl eq_refl).
  right. by exists [].
Defined.

Lemma emptyToken (line : string) :
  line = "" ∨ Js.starts_with " " line = true →
  ∃ args, normalizeCommand (CmdString line) = "" :: args.
Proof.
  intros [-> | Hspace]; [by exists [] |].
  destruct line as [|ch rest]; [done |].
  unfold Js.starts_with in Hspace.
  change (String.prefix " " (String ch rest))
    with (if ascii_dec " " ch then String.prefix "" rest else false)
    in Hspace.
  destruct (ascii_dec " " ch) as [<- | Hne]; [| done].
  unfold normalizeCommand, Js.split. cbn [Js.split_go]. rewrite Ascii.eqb_refl.
  by eexists.
Qed.

(** X9. A command line that is empty or starts with a space has the empty
    string as its executable name, and the empty name cannot be resolved
    ([execName[0]] is [undefined]): with path resolution on, [spawnSync]
    throws that [TypeError], while the non-blocking [spawn] starts no child
    and hands the [TypeError] to [next]. *)
Theorem spawn_empty_name (w : World) (line : string) (opts : Opts)
    (c : Caches)
    (Hline : line = "" ∨ Js.starts_with " " line = true)
    (Hsafe : default true (o_safe opts) = true) :
  let e := typeError "Cannot read property 'toUpperCase' of undefined" in
  spawnSync w (CmdString line) opts c = mkRun (Throw e) c []
  ∧ (flag (o_sync opts) = false →
     spawn w (CmdString line) opts c =
       mkRun (Ok [mkOutcome (Some e) None None None None]) c []).
Proof.
  intros e. destruct (emptyToken line Hline) as [args Hargs].
  assert (Hres : ∀ opts', getExecPathOf w (Some "") opts' c
                          = mkRun (Throw e) c []) by done.
  split.
  - unfold spawnSync.
    destruct (prepared_safe_on w opts Hsafe) as [_ Hs]. rewrite Hs, Hargs.
    cbn [executableName head].
    rewrite (bind_throw _ _ c e).
    + rewrite (bind_throw _ _ c e) by by rewrite Hres. by rewrite Hres.
    + rewrite (bind_throw _ _ c e) by by rewrite Hres. by rewrite Hres.
  - intros Hasync.
    rewrite (spawn_aborted w (CmdString line) opts c e Hasync Hsafe).
    + rewrite Hargs. cbn [executableName head]. by rewrite Hres.
    + left. rewrite Hargs. cbn [executableName head]. by rewrite Hres.
Qed.

Lemma spawn_empty_name_witness :
  spawn posixWorld (CmdString " ls") noOpts noCaches
  = mkRun
      (Ok [mkOutcome
             (Some (typeError
                      "Cannot read property 'toUpperCase' of undefined"))
             None None None None])
      noCaches [].
Proof.
  pose proof (spawn_empty_name posixWorld " ls" noOpts noCaches
                (or_intror eq_refl) eq_refl) as [_ H].
  exact (H eq_refl).
Defined.

(** The blocking spawn after a resolution that called back: the child is
    started on what the callback left in [command[0]], and the warning is
    written when no call of the callback carried a path. *)
Lemma spawnSync_after_resolution (w : World) (command : Command)
    (opts : Opts) (c : Caches) (file : string) (args : list string)
    (replies : Reply * list Reply) (target : string) (resolved : bool) :
  default true (o_safe opts) = true →
  normalizeCommand command = file :: args →
  value (getExecPath w file (setSync (prepareExecutableOptions w opts)) c)
    = Ok replies →
  syncResolved replies (Some (PStr file)) = (Some (PStr target), resolved) →
  ∃ rest,
    events (spawnSync w command opts c) =
      events (getExecPath w file (setSync (prepareExecutableOptions w opts)) c)
      ++ (if resolved then [] else [EvWrite ChStderr syncWarning])
      ++ EvSpawn target args :: rest.
Proof.
  intros Hsafe Hcmd Hres Hsync. unfold spawnSync.
  destruct (prepared_safe_on w opts Hsafe) as [_ Hs]. rewrite Hs, Hcmd.
  cbn [executableName arguments head tail getExecPathOf fmap option_fmap
       option_map].
  set (opts' := setSync (prepareExecutableOptions w opts)) in *.
  pose (res := getExecPath w file opts' c).
  assert (Hinner :
    (replies0 <- getExecPath w file opts' ;;
     let '(file0, wasSync) := syncResolved replies0 (Some (PStr file)) in
     (if wasSync then ret tt else
        write ChStderr
          "safeps.spawnSync: was unable to get the executable path synchronously") ;;;
     ret file0) c
    = mkRun (Ok (Some (PStr target))) (store res)
        (events res ++ if resolved then [] else [EvWrite ChStderr syncWarning])).
  { rewrite (bind_ok _ _ c replies Hres). rewrite Hsync.
    destruct resolved.
    - rewrite bind_ret. cbn [ret value store events]. done.
    - cbn [write emit bind ret value store events app]. done. }
  rewrite (bind_ok _ _ c (Some (PStr target))) by by rewrite Hinner.
  rewrite Hinner. cbn [value store events childSpawnSync].
  rewrite (bind_ok _ _ (store res) (cp_spawnSync w target args)) by done.
  cbn [emit bind ret value store events app].
  eexists. by rewrite <- !app_assoc.
Qed.

(** X10. The blocking [spawnSync] does not give up when the executable
    cannot be resolved: when the resolution calls back with an error, it
    writes its warning to the parent's stderr and then starts the child on
    the name as it was given, with the arguments of the command. *)
Theorem spawnSync_unresolved (w : World) (command : Command) (opts : Opts)
    (c : Caches) (file : string) (args : list string) (err : JsError)
    (Hsafe : default true (o_safe opts) = true)
    (Hcommand : normalizeCommand command = file :: args)
    (Hfailed :
       value (getExecPath w file (setSync (prepareExecutableOptions w opts)) c)
       = Ok (ReplyErr err, [])) :
  ∃ rest,
    events (spawnSync w command opts c) =
      events (getExecPath w file (setSync (prepareExecutableOptions w opts)) c)
      ++ EvWrite ChStderr syncWarning :: EvSpawn file args :: rest.
Proof.
  apply (spawnSync_after_resolution w command opts c file args
           (ReplyErr err, []) file false); done.
Qed.

Lemma spawnSync_unresolved_witness :
  events (spawnSync posixWorld (CmdString "nothere -l") noOpts noCaches)
  = [EvCacheRead (SlotExec "nothere"); EvVerify "/work/nothere" false;
     EvVerify "/usr/bin/nothere" false; EvVerify "/opt/tools/bin/nothere" false;
     EvWrite ChStderr syncWarning; EvSpawn "nothere" ["-l"]].
Proof.
  destruct (spawnSync_unresolved posixWorld (CmdString "nothere -l") noOpts
              noCaches "nothere" ["-l"]
              (newError "Could not locate the nothere executable path")
              eq_refl eq_refl eq_refl) as [rest H].
  reflexivity.
Defined.

(** The same for the non-blocking spawn when the resolution gave a path. *)
Lemma spawn_after_resolution (w : World) (command : Command) (opts : Opts)
    (c : Caches) (file : string) (args : list string) (target : string)
    (more : list Reply) :
  flag (o_sync opts) = false →
  default true (o_safe opts) = true →
  normalizeCommand command = file :: args →
  value (getExecPath w file (prepareExecutableOptions w opts) c)
    = Ok (ReplyPath (Some (PStr target)), more) →
  ∃ rest,
    events (spawn w command opts c) =
      events (getExecPath w file (prepareExecutableOptions w opts) c)
      ++ EvSpawn target args :: rest.
Proof.
  intros Hsync Hsafe Hcmd Hres. unfold spawn.
  destruct (prepared_safe w opts) as [_ Hy]. rewrite Hy, Hsync.
  destruct (prepared_safe_on w opts Hsafe) as [Hs _]. rewrite Hs, Hcmd.
  cbn [executableName arguments head tail getExecPathOf].
  set (opts' := prepareExecutableOptions w opts) in *.
  pose (res := getExecPath w file opts' c).
  assert (Hinner :
    (found <- try_ (getExecPath w file opts') ;;
     match found with
     | inl err => ret (inl err)
     | inr (ReplyErr err, _) => ret (inl err)
     | inr (ReplyPath execPath0, _) => ret (inr execPath0)
     end) c
    = mkRun (Ok (inr (Some (PStr target)))) (store res) (events res)).
  { rewrite (bind_ok _ _ c (inr (ReplyPath (Some (PStr target)), more)))
      by by rewrite (try_ok _ _ _ Hres).
    rewrite (try_ok _ _ _ Hres).
    cbn [ret value store events]. by rewrite app_nil_r. }
  rewrite (bind_ok _ _ c (inr (Some (PStr target)))) by by rewrite Hinner.
  rewrite Hinner. cbn [value store events childSpawn].
  unfold bind at 1. unfold try_ at 1.
  cbn [emit bind ret value store events app].
  unfold try_ at 1. cbn [emit bind ret value store events app].
  by eexists.
Qed.

(** X11. With path resolution on, the child is started on the resolved
    path, not on the name: when the resolution calls back with a path,
    [spawnSync] and the non-blocking [spawn] both create the child with
    that path as its file and the remaining tokens of the command as its
    arguments, and [spawnSync] writes no warning. *)
Theorem spawn_resolved (w : World) (command : Command) (opts : Opts)
    (c : Caches) (file : string) (args : list string) (target : string)
    (Hsafe : default true (o_safe opts) = true)
    (Hcommand : normalizeCommand command = file :: args) :
  (value (getExecPath w file (setSync (prepareExecutableOptions w opts)) c)
     = Ok (ReplyPath (Some (PStr target)), []) →
   ∃ rest,
     events (spawnSync w command opts c) =
       events (getExecPath w file (setSync (prepareExecutableOptions w opts)) c)
       ++ EvSpawn target args :: rest)
  ∧ (flag (o_sync opts) = false →
     value (getExecPath w file (prepareExecutableOptions w opts) c)
       = Ok (ReplyPath (Some (PStr target)), []) →
     ∃ rest,
       events (spawn w command opts c) =
         events (getExecPath w file (prepareExecutableOptions w opts) c)
         ++ EvSpawn target args :: rest).
Proof.
  split.
  - intros Hres.
    apply (spawnSync_after_resolution w command opts c file args
             (ReplyPath (Some (PStr target)), []) target true); done.
  - intros Hasync Hres.
    by apply (spawn_after_resolution w command opts c file args target []).
Qed.

Lemma spawn_resolved_witness :
  events (spawn posixWorld (CmdString "deploy now") noOpts noCaches)
  = [EvCacheRead (SlotExec "deploy"); EvVerify "/work/deploy" false;
     EvVerify "/usr/bin/deploy" false; EvVerify "/opt/tools/bin/deploy" true;
     EvCacheWrite (SlotExec "deploy") (Some "/opt/tools/bin/deploy");
     EvSpawn "/opt/tools/bin/deploy" ["now"]].
Proof.
  destruct (spawn_resolved posixWorld (CmdString "deploy now") noOpts
              noCaches "deploy" ["now"] "/opt/tools/bin/deploy"
              eq_refl eq_refl) as [_ H].
  destruct (H eq_refl eq_refl) as [rest Hrest].
  reflexivity.
Defined.

(* ===================================================================== *)
(** ** The completion of the non-blocking spawn *)
(* ===================================================================== *)

Lemma callbackArgs_own (result : ExecResult) :
  callbackArgs (error result) result = callbackArgs None result.
Proof. unfold callbackArgs. by destruct (error result). Qed.

(** What a stream of one channel has been captured into after [chunks],
    starting from [old]. *)
Lemma capture_other (ch ch' : Channel) (data : Data) (r : ExecResult) :
  sameChannel ch ch' = false →
  match ch with
  | ChStdout => stdout (capture ch' data r) = stdout r
  | ChStderr => stderr (capture ch' data r) = stderr r
  end.
Proof. by destruct ch, ch'. Qed.

Lemma capture_same (ch : Channel) (data : Data) (r : ExecResult) :
  match ch with
  | ChStdout => stdout (capture ch data r) = accumulate (stdout r) data
  | ChStderr => stderr (capture ch data r) = accumulate (stderr r) data
  end.
Proof. by destruct ch. Qed.

Lemma childEvents_exited (evs : list ChildEvent) (s : SpawnState)
    (c : Caches) :
  s_exited s = true →
  ∃ s', value (childEvents evs s c) = Ok s' ∧ s_calls s' = s_calls s.
Proof.
  revert s c. induction evs as [|[ch data | st sg | err] evs IH];
    intros s c Hexited.
  - by exists s.
  - cbn [childEvents].
    destruct (flag (o_read (s_opts s))) eqn:Hread.
    + rewrite (bind_ok _ _ _ _) by by rewrite onData_run.
      rewrite onData_run by done. cbn [value store events].
      apply (IH (mkSpawn (capture ch data (s_result s)) (s_opts s)
                         (s_exited s) (s_calls s))). done.
    + rewrite bind_ret. by apply IH.
  - cbn [childEvents]. unfold onClose. rewrite Hexited. rewrite bind_ret.
    match goal with
    | |- context [childEvents evs ?s1 c] => destruct (IH s1 c) as (s' & H & Hc)
    end; [done |].
    by exists s'.
  - cbn [childEvents]. unfold onError. rewrite Hexited, bind_ret.
    by apply IH.
Qed.

(** The state a child's events leave behind: [next] has been called once
    more if the run of the child ended, at its first ['close'] with the
    result as it stood then, finalized, at its first ['error'] with that
    error and the result as it stood then. *)
Lemma childEvents_calls (evs : list ChildEvent) (s : SpawnState)
    (c : Caches) :
  s_exited s = false →
  let r := s_result s in
  let read := flag (o_read (s_opts s)) in
  let out := if read then foldl accumulate (stdout r)
                            (chunksBefore ChStdout evs) else stdout r in
  let err := if read then foldl accumulate (stderr r)
                            (chunksBefore ChStderr evs) else stderr r in
  ∃ s',
    value (childEvents evs s c) = Ok s'
    ∧ s_calls s' =
        s_calls s
        ++ match firstEnd evs with
           | None => []
           | Some (EndClose st sg) =>
               [callbackArgs None
                  (classify (mkResult (pid r) out err st sg (error r)))]
           | Some (EndError e) =>
               [callbackArgs (Some e)
                  (mkResult (pid r) out err (status r) (signal r) (error r))]
           end.
Proof.
  revert s c. induction evs as [|[ch data | st sg | e] evs IH];
    intros s c Hexited.
  - exists s. cbn [firstEnd]. by rewrite app_nil_r.
  - cbn [childEvents firstEnd chunksBefore].
    destruct (flag (o_read (s_opts s))) eqn:Hread.
    + rewrite (bind_ok _ _ _ _) by by rewrite onData_run.
      rewrite onData_run by done. cbn [value store events].
      destruct (IH (mkSpawn (capture ch data (s_result s)) (s_opts s)
                            (s_exited s) (s_calls s)) c Hexited)
        as (s' & Hrun & Hcalls).
      exists s'. split; [done |]. rewrite Hcalls.
      cbn [s_result s_opts s_calls]. rewrite Hread.
      by destruct ch, (s_result s).
    + rewrite bind_ret.
      destruct (IH s c Hexited) as (s' & Hrun & Hcalls).
      exists s'. split; [done |]. rewrite Hcalls, Hread. done.
  - cbn [childEvents firstEnd chunksBefore foldl].
    unfold onClose. rewrite Hexited.
    rewrite (bind_ok _ _ c _)
      by (rewrite (bind_ok _ _ c _)
            by (by rewrite updateExecutableResult_quiet);
          by rewrite updateExecutableResult_quiet).
    rewrite (bind_ok _ _ c _) by by rewrite updateExecutableResult_quiet.
    rewrite updateExecutableResult_quiet by done.
    cbn [ret value store events].
    match goal with
    | |- context [childEvents evs ?s1 c] =>
        destruct (childEvents_exited evs s1 c) as (s' & Hrun & Hcalls)
    end; [done |].
    exists s'. split; [done |]. rewrite Hcalls.
    cbn [tasksDone s_calls s_result]. rewrite callbackArgs_own.
    by destruct (flag (o_read (s_opts s))).
  - cbn [childEvents firstEnd chunksBefore foldl].
    unfold onError. rewrite Hexited, bind_ret.
    destruct (childEvents_exited evs (tasksDone (Some e) s) c)
      as (s' & Hrun & Hcalls); [done |].
    exists s'. split; [done |]. rewrite Hcalls.
    cbn [tasksDone s_calls s_result].
    destruct (flag (o_read (s_opts s))); by destruct (s_result s).
Qed.

Lemma accumulate_text (old data : Data) :
  data_toString <$> accumulate (Some old) data
  = Some (data_toString old +:+ data_toString data).
Proof.
  cbn [accumulate]. destruct (data_truthy old) eqn:Hold; [done |].
  destruct old as [b | s]; [done |].
  cbn in Hold. apply negb_false_iff in Hold. by destruct s.
Qed.

Lemma accumulate_some (old : option Data) (data : Data) :
  ∃ d, accumulate old data = Some d.
Proof.
  destruct old as [o|]; cbn; [| by eexists].
  destruct (data_truthy o); by eexists.
Qed.

Lemma captured_text_from (old : Data) (chunks : list Data) :
  data_toString <$> foldl accumulate (Some old) chunks
  = Some (data_toString old
          +:+ foldr (λ d s, data_toString d +:+ s) EmptyString chunks).
Proof.
  revert old. induction chunks as [|d chunks IH]; intros old.
  - cbn. by rewrite str_app_nil_r.
  - cbn [foldl foldr].
    destruct (accumulate_some (Some old) d) as [d' Hd'].
    pose proof (accumulate_text old d) as Htext.
    rewrite Hd' in *. cbn in Htext. injection Htext as Htext.
    by rewrite IH, Htext, str_app_assoc.
Qed.

(** What is captured from nothing is the text of the chunks. *)
Lemma captured_text (chunks : list Data) :
  data_toString <$> foldl accumulate None chunks = textOf chunks.
Proof.
  destruct chunks as [|d chunks]; [done |].
  cbn [foldl accumulate textOf foldr]. apply captured_text_from.
Qed.

Lemma prepared_read (w : World) (opts : Opts) :
  flag (o_read (prepareExecutableOptions w opts))
  = negb (Js.truthy_opt (o_stdio opts)) && default true (o_read opts).
Proof.
  unfold prepareExecutableOptions.
  by destruct (Js.truthy_opt (o_stdio opts)).
Qed.

(** Writing to the child's stdin changes nothing for the parent. *)
Lemma writeStdin_run (opts : Opts) (c : Caches) :
  ∃ written, writeStdin opts c = mkRun (Ok tt) c written.
Proof.
  unfold writeStdin. destruct (o_stdin opts) as [text|]; [| by eexists].
  destruct (Js.truthy text && hasStdin opts); by eexists.
Qed.

(** Once the non-blocking [spawn] has the file to run, whether the first
    token itself or the path it resolved to, what [next] receives is what
    the child's events leave in the state. *)
Lemma spawn_started (w : World) (command : Command) (opts : Opts)
    (c : Caches) (file : string) (args : list string) (target : string) :
  flag (o_sync opts) = false →
  normalizeCommand command = file :: args →
  o_safe opts = Some false ∧ target = file
  ∨ default true (o_safe opts) = true
    ∧ value (getExecPath w file (prepareExecutableOptions w opts) c)
      = Ok (ReplyPath (Some (PStr target)), []) →
  ∃ c1 s',
    value (childEvents (cp_spawn w target args)
             (mkSpawn emptyResult (prepareExecutableOptions w opts) false [])
             c1) = Ok s'
    ∧ value (spawn w command opts c) = Ok (s_calls s').
Proof.
  intros Hsync Hcmd Hstart. unfold spawn.
  destruct (prepared_safe w opts) as [Hs Hy]. rewrite Hy, Hsync.
  set (opts' := prepareExecutableOptions w opts) in *.
  set (s0 := mkSpawn emptyResult opts' false []).
  assert (Htail : ∀ c1,
    ∃ s', value (childEvents (cp_spawn w target args) s0 c1) = Ok s'
          ∧ value ((child <- try_ (childSpawn w (Some (PStr target)) args) ;;
                    match child with
                    | inl err => ret (s_calls (tasksDone (Some err) s0))
                    | inr evs =>
                        writeStdin opts' ;;;
                        s <- childEvents evs s0 ;; ret (s_calls s)
                    end) c1) = Ok (s_calls s')).
  { intros c1.
    destruct (childEvents_calls (cp_spawn w target args) s0 c1 eq_refl)
      as (s' & Hrun & _).
    exists s'. split; [done |].
    cbn [childSpawn].
    assert (Hspawn : try_ (emit (EvSpawn target args) ;;;
                           ret (cp_spawn w target args)) c1
                     = mkRun (Ok (inr (cp_spawn w target args))) c1
                             [EvSpawn target args]) by done.
    rewrite (bind_ok _ _ c1 (inr (cp_spawn w target args)))
      by by rewrite Hspawn.
    rewrite Hspawn. cbn [value store events].
    destruct (writeStdin_run opts' c1) as [written Hstdin].
    rewrite (bind_ok _ _ c1 tt) by by rewrite Hstdin.
    rewrite Hstdin. cbn [value store events].
    rewrite (bind_ok _ _ c1 s') by done. done. }
  destruct Hstart as [[Hsafe ->] | [Hsafe Hres]].
  - rewrite Hs, Hsafe, Hcmd. cbn [default from_option id flag].
    rewrite bind_ret.
    cbn [executableName arguments head tail fmap option_fmap option_map].
    destruct (Htail c) as (s' & Hrun & Hval). by exists c, s'.
  - rewrite Hs, Hsafe, Hcmd. cbn [default from_option id flag].
    cbn [executableName arguments head tail getExecPathOf].
    pose (res := getExecPath w file opts' c).
    assert (Hinner :
      (found <- try_ (getExecPath w file opts') ;;
       match found with
       | inl err => ret (inl err)
       | inr (ReplyErr err, _) => ret (inl err)
       | inr (ReplyPath execPath0, _) => ret (inr execPath0)
       end) c
      = mkRun (Ok (inr (Some (PStr target)))) (store res) (events res)).
    { rewrite (bind_ok _ _ c (inr (ReplyPath (Some (PStr target)), [])))
        by by rewrite (try_ok _ _ _ Hres).
      rewrite (try_ok _ _ _ Hres).
      cbn [ret value store events]. by rewrite app_nil_r. }
    rewrite (bind_ok _ _ c (inr (Some (PStr target)))) by by rewrite Hinner.
    rewrite Hinner. cbn [value store events].
    destruct (Htail (store res)) as (s' & Hrun & Hval).
    by exists (store res), s'.
Qed.

(** X12. The non-blocking [spawn] calls [next] at most once.  When the
    child is started (on the first token of the command when path
    resolution is off, else on the path the resolution replied), [next] is
    called exactly once if the run of the child ends, with a ['close'] or
    with an ['error'], and not at all if it never does; what comes after
    the first of these changes nothing.  When a ['close'] comes first the
    call carries its status and signal, and the error is set exactly when
    that status is a number other than 0.  When an ['error'] comes first,
    as it does for a program that cannot be started, the call carries that
    error, with no status and no signal: the ['close'] that follows is
    dropped. *)
Theorem spawn_calls_back_once (w : World) (command : Command) (opts : Opts)
    (c : Caches) (file : string) (args : list string) (target : string)
    (Hasync : flag (o_sync opts) = false)
    (Hcommand : normalizeCommand command = file :: args)
    (Hstart :
       o_safe opts = Some false ∧ target = file
       ∨ default true (o_safe opts) = true
         ∧ value (getExecPath w file (prepareExecutableOptions w opts) c)
           = Ok (ReplyPath (Some (PStr target)), [])) :
  ∃ calls,
    value (spawn w command opts c) = Ok calls
    ∧ match firstEnd (cp_spawn w target args) with
      | None => calls = []
      | Some (EndClose st sg) =>
          ∃ o, calls = [o]
               ∧ c_status o = st
               ∧ c_signal o = sg
               ∧ (c_error o ≠ None ↔ ∃ n, st = Some n ∧ n ≠ 0)
      | Some (EndError err) =>
          ∃ o, calls = [o]
               ∧ c_error o = Some err
               ∧ c_status o = None
               ∧ c_signal o = None
      end.
Proof.
  destruct (spawn_started w command opts c file args target
              Hasync Hcommand Hstart) as (c1 & s' & Hrun & Hval).
  destruct (childEvents_calls (cp_spawn w target args)
              (mkSpawn emptyResult (prepareExecutableOptions w opts) false [])
              c1 eq_refl) as (s'' & Hrun' & Hcalls).
  rewrite Hrun in Hrun'. injection Hrun' as <-.
  exists (s_calls s'). split; [done |]. rewrite Hcalls.
  cbn [s_calls s_result app].
  destruct (firstEnd (cp_spawn w target args)) as [[st sg | err]|];
    [| by eexists | done].
  eexists. split; [done |].
  match goal with
  | |- context [classify ?r] =>
      destruct (classify_error r) as (Herr & _ & _ & Hst & Hsg & _)
  end.
  cbn [callbackArgs c_status c_signal c_error].
  rewrite Hst, Hsg. cbn [status signal]. split; [done |]. split; [done |].
  rewrite Herr. cbn [error status]. split.
  - by intros [H | H].
  - intros H. by right.
Qed.

Lemma spawn_calls_back_once_witness :
  ∃ calls,
    value (spawn brokenWorld (CmdString "deploy now") noOpts noCaches)
      = Ok calls
    ∧ ∃ o, calls = [o]
           ∧ c_error o = Some (mkError "spawn /opt/tools/bin/deploy ENOENT"
                                       (CodeStr "ENOENT") None)
           ∧ c_status o = None
           ∧ c_signal o = None.
Proof.
  exact (spawn_calls_back_once brokenWorld (CmdString "deploy now") noOpts
           noCaches "deploy" ["now"] "/opt/tools/bin/deploy" eq_refl eq_refl
           (or_intror (conj eq_refl eq_refl))).
Defined.

(** X13. What the non-blocking [spawn] hands to [next] as stdout and stderr
    is the text the child wrote to that stream before its run ended, with
    its first ['close'] or its first ['error']: the chunks of the stream in
    their order of arrival, one after the other, with the chunks of the
    other stream left out, and nothing at all when the stream gave no
    chunk.  With [read] off, or with a [stdio] option, both are null
    whatever the child writes. *)
Theorem spawn_captures_chunks (w : World) (command : Command) (opts : Opts)
    (c : Caches) (file : string) (args : list string) (target : string)
    (Hasync : flag (o_sync opts) = false)
    (Hcommand : normalizeCommand command = file :: args)
    (Hstart :
       o_safe opts = Some false ∧ target = file
       ∨ default true (o_safe opts) = true
         ∧ value (getExecPath w file (prepareExecutableOptions w opts) c)
           = Ok (ReplyPath (Some (PStr target)), [])) :
  ∃ calls,
    value (spawn w command opts c) = Ok calls
    ∧ ∀ o, o ∈ calls →
        let reading :=
          negb (Js.truthy_opt (o_stdio opts)) && default true (o_read opts) in
        let written ch :=
          if reading then textOf (chunksBefore ch (cp_spawn w target args))
          else None in
        data_toString <$> c_stdout o = written ChStdout
        ∧ data_toString <$> c_stderr o = written ChStderr.
Proof.
  destruct (spawn_started w command opts c file args target
              Hasync Hcommand Hstart) as (c1 & s' & Hrun & Hval).
  destruct (childEvents_calls (cp_spawn w target args)
              (mkSpawn emptyResult (prepareExecutableOptions w opts) false [])
              c1 eq_refl) as (s'' & Hrun' & Hcalls).
  rewrite Hrun in Hrun'. injection Hrun' as <-.
  exists (s_calls s'). split; [done |]. rewrite Hcalls.
  cbn [s_calls s_result s_opts app]. rewrite prepared_read.
  intros o Ho.
  destruct (firstEnd (cp_spawn w target args)) as [[st sg | e]|];
    [| | by apply elem_of_nil in Ho].
  - apply list_elem_of_singleton in Ho as ->.
    match goal with
    | |- context [classify ?r] =>
        destruct (classify_error r) as (_ & _ & _ & _ & _ & Hout & Herr)
    end.
    cbn [callbackArgs c_stdout c_stderr]. rewrite Hout, Herr.
    cbn [stdout stderr emptyResult].
    destruct (negb _ && _); [| done].
    by rewrite !captured_text.
  - apply list_elem_of_singleton in Ho as ->.
    cbn [callbackArgs c_stdout c_stderr stdout stderr emptyResult].
    destruct (negb _ && _); [| done].
    by rewrite !captured_text.
Qed.

Lemma spawn_captures_chunks_witness :
  ∃ calls,
    value (spawn interruptedWorld (CmdString "deploy now") noOpts noCaches)
      = Ok calls
    ∧ ∀ o, o ∈ calls →
        data_toString <$> c_stdout o = Some "partial"
        ∧ data_toString <$> c_stderr o = None.
Proof.
  exact (spawn_captures_chunks interruptedWorld (CmdString "deploy now")
           noOpts noCaches "deploy" ["now"] "/opt/tools/bin/deploy" eq_refl
           eq_refl (or_intror (conj eq_refl eq_refl))).
Defined.

(* ===================================================================== *)
(** ** Exec *)
(* ===================================================================== *)

(** Whether [execSync] and [exec] mirror: only with a prefix, without a
    [stdio] option, and unless [output] is [false]. *)
Lemma exec_mirrors (w : World) (opts : Opts) :
  flag (o_output (inheritOutput (prepareExecutableOptions w opts)))
  = negb (Js.truthy_opt (o_stdio opts))
    && Js.truthy_opt (o_outputPrefix opts)
    && negb (bool_decide (o_output opts = Some false))
  ∧ (Js.truthy_opt (o_stdio opts) = false →
     o_outputPrefix (inheritOutput (prepareExecutableOptions w opts))
     = o_outputPrefix opts).
Proof.
  unfold inheritOutput, prepareExecutableOptions.
  destruct (Js.truthy_opt (o_stdio opts)); [done |].
  cbn [o_output o_outputPrefix].
  destruct (o_output opts) as [[|]|];
    destruct (Js.truthy_opt (o_outputPrefix opts)); done.
Qed.

Lemma execSync_mirrors (w : World) (opts : Opts) :
  flag (o_output (inheritOutput (setSync (prepareExecutableOptions w opts))))
  = negb (Js.truthy_opt (o_stdio opts))
    && Js.truthy_opt (o_outputPrefix opts)
    && negb (bool_decide (o_output opts = Some false))
  ∧ (Js.truthy_opt (o_stdio opts) = false →
     o_outputPrefix
       (inheritOutput (setSync (prepareExecutableOptions w opts)))
     = o_outputPrefix opts).
Proof.
  unfold inheritOutput, setSync, prepareExecutableOptions.
  destruct (Js.truthy_opt (o_stdio opts)); [done |].
  cbn [o_output o_outputPrefix].
  destruct (o_output opts) as [[|]|];
    destruct (Js.truthy_opt (o_outputPrefix opts)); done.
Qed.

(** X14. [execSync] cannot mirror.  Its result has no stderr, so when the
    options ask it to mirror with a prefix (a prefix, no [stdio] option,
    [output] not [false]), finalization reads the missing buffer and the
    call throws instead of returning, whatever the command did: after at
    most one write, the mirror of the command's stdout. *)
Theorem execSync_mirror_throws (w : World) (command : string) (opts : Opts)
    (c : Caches)
    (Hstdio : Js.truthy_opt (o_stdio opts) = false)
    (Hprefix : Js.truthy_opt (o_outputPrefix opts) = true)
    (Houtput : o_output opts ≠ Some false) :
  ∃ e written,
    execSync w command opts c = mkRun (Throw e) c written
    ∧ written =
        match cp_execSync w command with
        | inr (Some out) =>
            if Js.is_empty (Js.trim (data_toString out)) then []
            else [EvWrite ChStdout
                    (prefixData (Some out)
                       (default EmptyString (o_outputPrefix opts)))]
        | _ => []
        end.
Proof.
  unfold execSync.
  destruct (execSync_mirrors w opts) as [Hflag Hpre].
  specialize (Hpre Hstdio).
  rewrite Hstdio, Hprefix in Hflag.
  rewrite bool_decide_eq_false_2 in Hflag by done.
  cbn [negb andb] in Hflag.
  rewrite updateExecutableResult_unfold, Hflag, Hpre.
  destruct (o_outputPrefix opts) as [p|] eqn:Hp; [| done].
  cbn [Js.truthy_opt] in Hprefix.
  destruct (cp_execSync w command) as [err | [out|]];
    cbn [stdout stderr default from_option id].
  - by eexists _, _.
  - unfold outputData at 1.
    destruct (Js.is_empty (Js.trim (data_toString out))).
    + by eexists _, _.
    + rewrite Hprefix. by eexists _, _.
  - by eexists _, _.
Qed.

Lemma execSync_mirror_throws_witness :
  ∃ e written,
    execSync chattyWorld "ls"
      (mkOpts None None None None None (Some "> ") EnvUnset None None None)
      noCaches = mkRun (Throw e) noCaches written
    ∧ written = [EvWrite ChStdout ("> listing" +:+ nl)].
Proof.
  exact (execSync_mirror_throws chattyWorld "ls"
           (mkOpts None None None None None (Some "> ") EnvUnset None None
              None) noCaches eq_refl eq_refl
           (λ H, eq_ind (o_output
                           (mkOpts None None None None None (Some "> ")
                              EnvUnset None None None))
                        (λ v, match v with Some _ => False | None => True end)
                        I (Some false) H)).
Defined.

(** X15. Without mirroring, [execSync] and the non-blocking [exec] add
    nothing of their own: nothing is written, no cache is touched, the
    call never throws, and the error handed back is the one
    [child_process] gave, or none.  A status is never looked at, so no
    error is made up from an exit code. *)
Theorem exec_passes_through (w : World) (command : string) (opts : Opts)
    (c : Caches)
    (Hquiet : Js.truthy_opt (o_stdio opts) = true
              ∨ Js.truthy_opt (o_outputPrefix opts) = false
              ∨ o_output opts = Some false) :
  execSync w command opts c =
    mkRun (Ok match cp_execSync w command with
              | inr out => mkResult None out None None None None
              | inl err => mkResult None None None None None (Some err)
              end) c []
  ∧ (flag (o_sync opts) = false →
     exec w command opts c =
       mkRun (Ok [mkOutcome (x_error (cp_exec w command))
                            (x_stdout (cp_exec w command))
                            (x_stderr (cp_exec w command)) None None]) c []).
Proof.
  assert (Hoff : negb (Js.truthy_opt (o_stdio opts))
                 && Js.truthy_opt (o_outputPrefix opts)
                 && negb (bool_decide (o_output opts = Some false)) = false).
  { destruct Hquiet as [-> | [-> | ->]]; [done | |].
    - by rewrite andb_false_r.
    - by rewrite andb_false_r. }
  split.
  - unfold execSync.
    destruct (execSync_mirrors w opts) as [Hflag _]. rewrite Hoff in Hflag.
    rewrite updateExecutableResult_quiet by done.
    by destruct (cp_execSync w command) as [err | out].
  - intros Hasync. unfold exec.
    destruct (prepared_safe w opts) as [_ Hy]. rewrite Hy, Hasync.
    destruct (exec_mirrors w opts) as [Hflag _]. rewrite Hoff in Hflag.
    rewrite (bind_ok _ _ c _) by by rewrite updateExecutableResult_quiet.
    rewrite updateExecutableResult_quiet by done.
    cbn [ret value store events app]. unfold callbackArgs, classify.
    cbn [error status failedStatus stdout stderr signal].
    by destruct (x_error (cp_exec w command)).
Qed.

Lemma exec_passes_through_witness :
  exec posixWorld "ls" noOpts noCaches =
    mkRun (Ok [mkOutcome None None None None None]) noCaches [].
Proof.
  destruct (exec_passes_through posixWorld "ls" noOpts noCaches) as [_ H].
  - right. left. reflexivity.
  - apply H. reflexivity.
Defined.

(* ===================================================================== *)
(** ** Options prepared more than once *)
(* ===================================================================== *)

(** X16. The entry points prepare the options they are given, and hand the
    prepared options to one another ([spawn] to [spawnSync], [exec] to
    [execSync], the batch runners to each command), so options are
    prepared again and again.  A second preparation changes nothing,
    except for [env: false]: the first turns it into [null] (do not
    inherit the environment), and the second takes that [null] for a
    missing option and puts the parent's environment back. *)
Theorem prepareExecutableOptions_twice (w : World) (opts : Opts) :
  let once := prepareExecutableOptions w opts in
  let twice := prepareExecutableOptions w once in
  (o_env opts ≠ EnvFalse → twice = once)
  ∧ (o_env opts = EnvFalse →
     o_env once = EnvNull
     ∧ o_env twice = EnvMap (env w)
     ∧ twice = mkOpts (o_stdin once) (o_stdio once) (o_safe once)
                 (o_read once) (o_output once) (o_outputPrefix once)
                 (EnvMap (env w)) (o_cache once) (o_sync once)
                 (o_concurrency once)).
Proof.
  cbn zeta. unfold prepareExecutableOptions.
  destruct opts as [stdin stdio safe read output prefix env0 cache sync conc].
  cbn [o_stdin o_stdio o_safe o_read o_output o_outputPrefix o_env o_cache
       o_sync o_concurrency].
  destruct (Js.truthy_opt stdio) eqn:Hstdio.
  - cbn [o_stdin o_stdio o_safe o_read o_output o_outputPrefix o_env o_cache
         o_sync o_concurrency].
    rewrite Hstdio. split.
    + intros Hne. by destruct env0.
    + by intros ->.
  - cbn [o_stdin o_stdio o_safe o_read o_output o_outputPrefix o_env o_cache
         o_sync o_concurrency].
    rewrite Hstdio. split.
    + intros Hne. destruct env0, output, safe, read; done.
    + intros ->. destruct output, safe, read; done.
Qed.

Lemma prepareExecutableOptions_twice_witness :
  let opts :=
    mkOpts None None None None None None EnvFalse None (Some true) None in
  o_env (prepareExecutableOptions posixWorld opts) = EnvNull
  ∧ o_env (prepareExecutableOptions posixWorld
             (prepareExecutableOptions posixWorld opts))
    = EnvMap (env posixWorld).
Proof.
  cbn zeta.
  destruct (prepareExecutableOptions_twice posixWorld
              (mkOpts None None None None None None EnvFalse None (Some true)
                 None)) as [_ H].
  destruct (H eq_refl) as (H1 & H2 & _). by split.
Defined.

(* ===================================================================== *)
(** ** The temporary directory *)
(* ===================================================================== *)

Lemma firstTruthy_truthy (vs : list (option string)) (p : string) :
  firstTruthy vs = Some p → Js.truthy p = true.
Proof.
  unfold firstTruthy.
  destruct (Js.truthy_opt (foldr Js.or_else None vs)) eqn:H; [| done].
  intros Hp. by rewrite Hp in H.
Qed.

Lemma firstTruthy_none (vs : list (option string)) :
  Js.truthy_opt (firstTruthy vs) = false → firstTruthy vs = None.
Proof.
  unfold firstTruthy.
  destruct (Js.truthy_opt (foldr Js.or_else None vs)) eqn:H; [| done].
  by rewrite H.
Qed.

(** X17. [getTmpPath] has no way to fail politely.  Where
    [path.resolve] never gives the empty string (it never does), or off
    Windows, a call ends in one of two ways: it calls back once with a
    path that is not empty, or it throws out of [path.resolve], which
    happens only when none of [TMPDIR], [TMP], [TEMP] and none of
    [USERPROFILE], [HOME] is set to something.  The error that the code
    prepares for "no temporary path" is never sent. *)
Theorem getTmpPath_never_fails (w : World) (opts : Opts) (c : Caches)
    (Hresolve : isWindows w = false ∨ ∀ segments, path_resolve w segments ≠ "") :
  match value (getTmpPath w opts c) with
  | Ok (ReplyPath (Some (PStr p)), []) => Js.truthy p = true
  | Throw _ =>
      firstTruthy [getenv w "TMPDIR"; getenv w "TMP"; getenv w "TEMP"] = None
      ∧ firstTruthy [getenv w "USERPROFILE"; getenv w "HOME"] = None
  | _ => False
  end.
Proof.
  unfold getTmpPath.
  set (tmpEnv := firstTruthy [getenv w "TMPDIR"; getenv w "TMP";
                              getenv w "TEMP"]).
  set (homeEnv := firstTruthy [getenv w "USERPROFILE"; getenv w "HOME"]).
  assert (Hany : ∀ (cached : option string) (c0 : Caches),
    match value
      ((if cacheOn opts && Js.truthy_opt cached
        then ret (ReplyPath (PStr <$> cached), [])
        else
          tmpPath <-
            (if Js.truthy_opt tmpEnv then ret tmpEnv
             else
               homePath <- homePath w opts ;;
               tmpPath <- resolveIn w homePath
                            (if isWindows w then "temp" else "tmp") ;;
               if Js.truthy tmpPath then ret (Some tmpPath)
               else if isWindows w then
                 ret (Some (path_resolve w
                        [default "C:\Windows"
                           (Js.or_else (getenv w "windir")
                                       (Some "C:\Windows"));
                         if isWindows w then "temp" else "tmp"]))
               else ret (Some "/tmp")) ;;
          (if cacheOn opts then writeSlot SlotTmp tmpPath else ret tt) ;;;
          if Js.truthy_opt tmpPath then ret (ReplyPath (PStr <$> tmpPath), [])
          else ret (ReplyErr (newError "Wan't able to find a temporary path"),
                    [ReplyPath (PStr <$> tmpPath)])) c0) with
    | Ok (ReplyPath (Some (PStr p)), []) => Js.truthy p = true
    | Throw _ => tmpEnv = None ∧ homeEnv = None
    | _ => False
    end).
  { intros cached c0.
    destruct (cacheOn opts && Js.truthy_opt cached) eqn:Hhit.
    { apply andb_true_iff in Hhit as [_ Hhit].
      destruct cached as [p|]; [| done]. done. }
    assert (Hfinish : ∀ (p : string) (c1 : Caches),
      Js.truthy p = true →
      value (((if cacheOn opts then writeSlot SlotTmp (Some p) else ret tt) ;;;
              if Js.truthy_opt (Some p)
              then ret (ReplyPath (PStr <$> Some p), [])
              else ret (ReplyErr
                          (newError "Wan't able to find a temporary path"),
                        [ReplyPath (PStr <$> Some p)])) c1)
      = Ok (ReplyPath (Some (PStr p)), [])).
    { intros p c1 Hp. cbn [Js.truthy_opt]. rewrite Hp.
      by destruct (cacheOn opts). }
    destruct (Js.truthy_opt tmpEnv) eqn:Henv.
    { rewrite bind_ret.
      destruct tmpEnv as [p|] eqn:Hp; [| done].
      rewrite (Hfinish p c0 Henv). done. }
    destruct (homePath_run w opts c0) as (home & c1 & evs & Hhome & _).
    assert (Htmp : tmpEnv = None).
    { by apply firstTruthy_none. }
    destruct home as [h|].
    - assert (Hinner : ∃ p evs',
        Js.truthy p = true
        ∧ (homePath <- homePath w opts ;;
           tmpPath <- resolveIn w homePath
                        (if isWindows w then "temp" else "tmp") ;;
           if Js.truthy tmpPath then ret (Some tmpPath)
           else if isWindows w then
             ret (Some (path_resolve w
                    [default "C:\Windows"
                       (Js.or_else (getenv w "windir") (Some "C:\Windows"));
                     if isWindows w then "temp" else "tmp"]))
           else ret (Some "/tmp")) c0
          = mkRun (Ok (Some p)) c1 evs').
      { rewrite (bind_ok _ _ c0 (Some h)) by by rewrite Hhome.
        rewrite Hhome. cbn [value store events resolveIn]. rewrite bind_ret.
        destruct (Js.truthy (path_resolve w [h; _])) eqn:Hres.
        - eexists _, _. split; [exact Hres |]. done.
        - destruct (isWindows w) eqn:Hwin.
          + destruct Hresolve as [Hposix | Hnonempty]; [done |].
            eexists _, _. split; [| done].
            match goal with
            | |- Js.truthy ?s = true =>
                pose proof (Hnonempty
                  [default "C:\Windows"
                     (Js.or_else (getenv w "windir") (Some "C:\Windows"));
                   "temp"]) as Hne; by destruct s
            end.
          + eexists "/tmp", _. split; [done |]. done. }
      destruct Hinner as (p & evs' & Hp & Hinner).
      rewrite (bind_ok _ _ c0 (Some p)) by by rewrite Hinner.
      rewrite Hinner. cbn [value store events].
      rewrite (Hfinish p c1 Hp). done.
    - assert (Hhomeless : homeEnv = None).
      { revert Hhome. unfold homePath.
        destruct (cacheOn opts) eqn:Hcache.
        - rewrite (bind_ok _ _ c0 (slot_get SlotHome c0))
            by by rewrite readSlot_run.
          rewrite readSlot_run. cbn [value store events andb].
          destruct (Js.truthy_opt (slot_get SlotHome c0)) eqn:Hslot.
          + cbn [ret value store events]. intros [= H _ _].
            change (slot_get SlotHome c0) with (cachedHomePath c0) in Hslot.
            by rewrite H in Hslot.
          + fold homeEnv. rewrite (bind_ok _ _ c0 tt) by done.
            cbn [writeSlot ret value store events]. by intros [= H _ _].
        - rewrite bind_ret. cbn [andb]. fold homeEnv. rewrite bind_ret.
          cbn [ret value store events]. by intros [= H _ _]. }
      assert (Hthrow : ∃ e,
        value ((homePath <- homePath w opts ;;
                tmpPath <- resolveIn w homePath
                             (if isWindows w then "temp" else "tmp") ;;
                if Js.truthy tmpPath then ret (Some tmpPath)
                else if isWindows w then
                  ret (Some (path_resolve w
                         [default "C:\Windows"
                            (Js.or_else (getenv w "windir")
                                        (Some "C:\Windows"));
                          if isWindows w then "temp" else "tmp"]))
                else ret (Some "/tmp")) c0) = Throw e).
      { rewrite (bind_ok _ _ c0 None) by by rewrite Hhome.
        rewrite Hhome. cbn [value store events resolveIn]. by eexists. }
      destruct Hthrow as (e & Hthrow).
      rewrite (bind_throw _ _ c0 e) by done. done. }
  destruct (cacheOn opts) eqn:Hcache.
  - rewrite (bind_ok _ _ c (slot_get SlotTmp c)) by by rewrite readSlot_run.
    rewrite readSlot_run. cbn [value store events].
    exact (Hany (slot_get SlotTmp c) c).
  - rewrite bind_ret. exact (Hany None c).
Qed.

Lemma getTmpPath_never_fails_witness :
  value (getTmpPath posixWorld noOpts noCaches)
    = Ok (ReplyPath (Some (PStr "/home/u/tmp")), [])
  ∧ match value (getTmpPath posixWorld noOpts noCaches) with
    | Ok (ReplyPath (Some (PStr p)), []) => Js.truthy p = true
    | _ => False
    end.
Proof.
  split; [reflexivity |].
  exact (getTmpPath_never_fails posixWorld noOpts noCaches
           (or_introl eq_refl)).
Defined.

(* ===================================================================== *)
(** ** Overrides from the environment *)
(* ===================================================================== *)

Lemma determineExecPath_first_accepted (w : World) (opts : Opts)
    (first : string) (rest : list string) (c : Caches) :
  Js.truthy first = true →
  Js.truthy (path_resolve w [first]) = true →
  verdict w opts (path_resolve w [first]) = true →
  determineExecPath w (first :: rest) opts c =
    mkRun (Ok (Some (path_resolve w [first]))) c
          [EvVerify (path_resolve w [first]) true].
Proof.
  intros Hfirst Hresolved Haccepted.
  unfold determineExecPath. cbn [determineExecPath_from Js.truthy_opt].
  unfold Js.truthy in Hfirst. apply negb_true_iff in Hfirst.
  rewrite Hfirst.
  rewrite (bind_ok _ _ _ (verdict w opts (path_resolve w [first])))
    by by rewrite isExecutable_run.
  rewrite isExecutable_run. cbn [value store events].
  rewrite Haccepted.
  by rewrite determineExecPath_from_found.
Qed.

(** A tool resolver whose slot does not answer and whose first candidate
    is accepted: one verification, and that candidate is the answer. *)
Lemma cachedOr_first (w : World) (opts : Opts) (slot : Slot)
    (notFound : string) (possibleExecPaths : M (list string)) (c : Caches)
    (first : string) (rest : list string) :
  cacheOn opts && Js.truthy_opt (slot_get slot c) = false →
  (∀ c, possibleExecPaths c = mkRun (Ok (first :: rest)) c []) →
  Js.truthy first = true →
  Js.truthy (path_resolve w [first]) = true →
  verdict w opts (path_resolve w [first]) = true →
  cachedOr w opts slot notFound possibleExecPaths c =
    mkRun (Ok (ReplyPath (Some (PStr (path_resolve w [first]))), []))
          (if cacheOn opts
           then slot_put slot (Some (path_resolve w [first])) c else c)
          ((if cacheOn opts then [EvCacheRead slot] else [])
           ++ [EvVerify (path_resolve w [first]) true]
           ++ (if cacheOn opts
               then [EvCacheWrite slot (Some (path_resolve w [first]))]
               else [])).
Proof.
  intros Hmiss Hpaths Hfirst Hresolved Haccepted.
  assert (Hlocate : ∀ c,
    locate w opts slot notFound possibleExecPaths c =
      mkRun (Ok (ReplyPath (Some (PStr (path_resolve w [first]))), []))
            (if cacheOn opts
             then slot_put slot (Some (path_resolve w [first])) c else c)
            ([EvVerify (path_resolve w [first]) true]
             ++ (if cacheOn opts
                 then [EvCacheWrite slot (Some (path_resolve w [first]))]
                 else []))).
  { intros c0. unfold locate.
    rewrite (bind_ok _ _ c0 (first :: rest)) by by rewrite Hpaths.
    rewrite Hpaths. cbn [value store events app].
    rewrite (bind_ok _ _ c0 (Some (path_resolve w [first])))
      by by rewrite determineExecPath_first_accepted.
    rewrite determineExecPath_first_accepted by done.
    cbn [value store events]. unfold located. cbn [Js.truthy_opt].
    rewrite Hresolved. cbn [negb].
    destruct (cacheOn opts).
    - rewrite (bind_ok _ _ c0 tt) by by rewrite writeSlot_run.
      by rewrite writeSlot_run.
    - by rewrite bind_ret. }
  unfold cachedOr. destruct (cacheOn opts) eqn:Hcache.
  - rewrite (bind_ok _ _ c (slot_get slot c)) by by rewrite readSlot_run.
    rewrite readSlot_run. cbn [value store events].
    cbn [andb] in Hmiss. rewrite Hmiss. cbn [andb].
    by rewrite Hlocate.
  - rewrite bind_ret. cbn [andb]. by rewrite Hlocate.
Qed.

(** X18. The environment overrides the search for git, node and npm.  When
    [GIT_PATH] names something the verifier accepts (and the slot of the
    tool does not answer already), [getGitPath] answers with it, made
    absolute, after that one verification: neither the working directory
    nor [PATH] nor the usual places are tried, whatever they hold.  The
    same goes for [NODE_PATH] with [getNodePath] and for [NPM_PATH] with
    [getNpmPath].  [PATH] has to be set all the same, as the candidates
    are all listed before the first is tried. *)
Theorem tool_path_override (w : World) (opts : Opts) (c : Caches)
    (path : string) (Hpath : getenv w "PATH" = Some path) :
  let unanswered slot :=
    cacheOn opts && Js.truthy_opt (slot_get slot c) = false in
  let accepted g :=
    Js.truthy g = true
    ∧ Js.truthy (path_resolve w [g]) = true
    ∧ verdict w opts (path_resolve w [g]) = true in
  let answer slot g :=
    mkRun (Ok (ReplyPath (Some (PStr (path_resolve w [g]))), []))
          (if cacheOn opts
           then slot_put slot (Some (path_resolve w [g])) c else c)
          ((if cacheOn opts then [EvCacheRead slot] else [])
           ++ [EvVerify (path_resolve w [g]) true]
           ++ (if cacheOn opts
               then [EvCacheWrite slot (Some (path_resolve w [g]))]
               else [])) in
  (∀ g, getenv w "GIT_PATH" = Some g → unanswered SlotGit → accepted g →
        getGitPath w opts c = answer SlotGit g)
  ∧ (∀ g, getenv w "NODE_PATH" = Some g → unanswered SlotNode → accepted g →
          getNodePath w opts c = answer SlotNode g)
  ∧ (∀ g, getenv w "NPM_PATH" = Some g → unanswered SlotNpm → accepted g →
          getNpmPath w opts c = answer SlotNpm g).
Proof.
  cbn zeta. split; [| split]; intros g Hg Hmiss (Htruthy & Hresolved & Hacc).
  - unfold getGitPath.
    eapply (cachedOr_first w opts SlotGit _ _ c g); try done.
    intros c0.
    rewrite (bind_ok _ _ c0 _) by by rewrite (getStandardExecPaths_set _ _ path).
    rewrite (getStandardExecPaths_set _ _ path) by done.
    rewrite Hg. cbn [pushIf]. rewrite Htruthy.
    cbn [value store events ret app]. done.
  - unfold getNodePath.
    eapply (cachedOr_first w opts SlotNode _ _ c g); try done.
    intros c0.
    rewrite (bind_ok _ _ c0 _) by by rewrite (getStandardExecPaths_set _ _ path).
    rewrite (getStandardExecPaths_set _ _ path) by done.
    rewrite Hg. cbn [pushIf]. rewrite Htruthy.
    cbn [value store events ret app]. done.
  - unfold getNpmPath.
    eapply (cachedOr_first w opts SlotNpm _ _ c g); try done.
    intros c0.
    rewrite (bind_ok _ _ c0 _) by by rewrite (getStandardExecPaths_set _ _ path).
    rewrite (getStandardExecPaths_set _ _ path) by done.
    rewrite Hg. cbn [pushIf]. rewrite Htruthy.
    cbn [value store events ret app]. done.
Qed.

Lemma tool_path_override_witness :
  getGitPath overrideWorld noOpts noCaches =
    mkRun (Ok (ReplyPath (Some (PStr "/opt/tools/bin/deploy")), []))
          (slot_put SlotGit (Some "/opt/tools/bin/deploy") noCaches)
          [EvCacheRead SlotGit; EvVerify "/opt/tools/bin/deploy" true;
           EvCacheWrite SlotGit (Some "/opt/tools/bin/deploy")].
Proof.
  destruct (tool_path_override overrideWorld noOpts noCaches
              "/usr/bin:/opt/tools/bin" eq_refl) as [H _].
  apply (H "/opt/tools/bin/deploy"); [reflexivity | reflexivity |].
  repeat split; reflexivity.
Defined.

(* ===================================================================== *)
(** ** Locale codes *)
(* ===================================================================== *)

Lemma lower_idem (c : ascii) : lower (lower c) = lower c.
Proof. destruct c as [[] [] [] [] [] [] [] []]; reflexivity. Qed.

Lemma lower_dash (c : ascii) : lower c = "-"%char → c = "-"%char.
Proof. destruct c as [[] [] [] [] [] [] [] []]; vm_compute; congruence. Qed.

Lemma letter_fixed (c : ascii) :
  letter c = true → lower c = c → lowerLetter c = true.
Proof. destruct c as [[] [] [] [] [] [] [] []]; vm_compute; congruence. Qed.

Lemma letter_lower (c : ascii) :
  letter c = true → lowerLetter (lower c) = true.
Proof. destruct c as [[] [] [] [] [] [] [] []]; vm_compute; congruence. Qed.

Lemma lowerLetter_letter (c : ascii) : lowerLetter c = true → letter c = true.
Proof. destruct c as [[] [] [] [] [] [] [] []]; vm_compute; congruence. Qed.

Lemma toLowerCase_idem (s : string) : toLowerCase (toLowerCase s) = toLowerCase s.
Proof.
  induction s as [|c s IH]; [done |].
  cbn [toLowerCase]. by rewrite lower_idem, IH.
Qed.

Lemma toLowerCase_app (a b : string) :
  toLowerCase (a +:+ b) = toLowerCase a +:+ toLowerCase b.
Proof.
  induction a as [|c a IH]; [done |].
  rewrite str_app_cons. cbn [toLowerCase]. by rewrite IH, str_app_cons.
Qed.

Lemma toLowerCase_fixed_app (a r : string) :
  toLowerCase (a +:+ r) = a +:+ r →
  toLowerCase a = a ∧ toLowerCase r = r.
Proof.
  induction a as [|c a IH]; [done |].
  rewrite str_app_cons. cbn [toLowerCase]. intros [= Hc Hrest].
  destruct (IH Hrest) as [Ha Hr]. by rewrite Hc, Ha.
Qed.

Lemma word_cons (c : ascii) (s : string) :
  word (String c s) = letter c && (Js.is_empty s || word s).
Proof. destruct s; cbn; by destruct (letter c). Qed.

Lemma lowerWord_cons (c : ascii) (s : string) :
  lowerWord (String c s) = lowerLetter c && (Js.is_empty s || lowerWord s).
Proof. destruct s; cbn; by destruct (lowerLetter c). Qed.

Lemma word_truthy (a : string) : word a = true → Js.truthy a = true.
Proof. by destruct a. Qed.

Lemma word_fixed (a : string) :
  word a = true → toLowerCase a = a → lowerWord a = true.
Proof.
  induction a as [|c a IH]; [done |].
  rewrite word_cons, lowerWord_cons. cbn [toLowerCase].
  intros [Hc Ha]%andb_true_iff [= Hlc Hla].
  rewrite (letter_fixed c Hc Hlc). cbn [andb].
  destruct a as [|d a]; [done |]. cbn [Js.is_empty orb] in *. by apply IH.
Qed.

Lemma word_toLowerCase (a : string) :
  word a = true → lowerWord (toLowerCase a) = true.
Proof.
  induction a as [|c a IH]; [done |].
  rewrite word_cons. cbn [toLowerCase]. rewrite lowerWord_cons.
  intros [Hc Ha]%andb_true_iff.
  rewrite (letter_lower c Hc). cbn [andb].
  destruct a as [|d a]; [done |]. cbn [Js.is_empty orb] in *.
  cbn [toLowerCase Js.is_empty orb] in *. by apply IH.
Qed.

Lemma lowerWord_word (a : string) : lowerWord a = true → word a = true.
Proof.
  induction a as [|c a IH]; [done |].
  rewrite word_cons, lowerWord_cons.
  intros [Hc Ha]%andb_true_iff.
  rewrite (lowerLetter_letter c Hc). cbn [andb].
  destruct a as [|d a]; [done |]. cbn [Js.is_empty orb] in *. by apply IH.
Qed.

Lemma word_no_char (c : ascii) (a : string) :
  letter c = false → word a = true → Js.has_char c a = false.
Proof.
  intros Hc. induction a as [|d a IH]; [done |].
  rewrite word_cons. cbn [Js.has_char].
  intros [Hd Ha]%andb_true_iff.
  destruct (Ascii.eqb_spec c d) as [-> | Hne]; [congruence |].
  cbn [orb]. destruct a as [|e a]; [done |]. by apply IH.
Qed.

Lemma lettersPrefix_app (s : string) :
  (lettersPrefix s).1 +:+ (lettersPrefix s).2 = s.
Proof.
  induction s as [|c s IH]; [done |].
  cbn [lettersPrefix]. destruct (letter c); [| done].
  destruct (lettersPrefix s) as [a r]. cbn [fst snd] in *.
  by rewrite str_app_cons, IH.
Qed.

Lemma localeParts_some (s a b : string) :
  localeParts s = Some (a, b) →
  ∃ sep, s = a +:+ String sep b
         ∧ (sep = "_"%char ∨ sep = "-"%char)
         ∧ word a = true ∧ word b = true.
Proof.
  unfold localeParts. pose proof (lettersPrefix_app s) as Happ.
  destruct (lettersPrefix s) as [a' r]. cbn [fst snd] in Happ.
  destruct r as [|sep b']; [done |].
  destruct ((Ascii.eqb sep "_" || Ascii.eqb sep "-")%char) eqn:Hsep; [| done].
  destruct (word a') eqn:Ha; [| done].
  destruct (word b') eqn:Hb; [| done].
  cbn [andb]. intros [= <- <-]. exists sep. split; [done |].
  split; [| done].
  apply orb_true_iff in Hsep as [H | H]; apply Ascii.eqb_eq in H; auto.
Qed.

Lemma lettersPrefix_word (a : string) (sep : ascii) (b : string) :
  word a = true → letter sep = false →
  lettersPrefix (a +:+ String sep b) = (a, String sep b).
Proof.
  intros Ha Hsep. induction a as [|c a IH]; [done |].
  rewrite word_cons in Ha. apply andb_true_iff in Ha as [Hc Ha].
  rewrite str_app_cons. cbn [lettersPrefix]. rewrite Hc.
  destruct a as [|d a].
  - change ("" +:+ String sep b) with (String sep b).
    cbn [lettersPrefix]. by rewrite Hsep.
  - cbn [Js.is_empty orb] in Ha. by rewrite (IH Ha).
Qed.

Lemma localeParts_words (a b : string) :
  word a = true → word b = true →
  localeParts (a +:+ String "_" b) = Some (a, b).
Proof.
  intros Ha Hb. unfold localeParts.
  rewrite (lettersPrefix_word a "_" b Ha eq_refl).
  by rewrite Ha, Hb.
Qed.

(** After [replace('-', '_')], a hyphen has an underscore before it. *)
Lemma underscoreFirst_dash (v a b : string) :
  toLowerCase (underscoreFirst v) = a +:+ String "-" b →
  Js.has_char "_" a = true.
Proof.
  revert a. induction v as [|c v IH]; intros a.
  - by destruct a.
  - cbn [underscoreFirst].
    destruct (Ascii.eqb_spec c "-") as [-> | Hne]; cbn [toLowerCase].
    + destruct a as [|x a]; [done |].
      rewrite str_app_cons. by intros [= <- _].
    + destruct a as [|x a].
      * intros [= Hc _]. by apply lower_dash in Hc.
      * rewrite str_app_cons. intros [= _ Hrest].
        cbn [Js.has_char]. rewrite (IH a Hrest). by rewrite orb_true_r.
Qed.

Lemma underscoreFirst_none (s : string) :
  Js.has_char "-" s = false → underscoreFirst s = s.
Proof.
  induction s as [|c s IH]; [done |].
  cbn [Js.has_char underscoreFirst].
  intros [Hc Hs]%orb_false_iff.
  rewrite Ascii.eqb_sym, Hc. by rewrite IH.
Qed.

Lemma underscoreFirst_word (a b : string) :
  word a = true →
  underscoreFirst (a +:+ String "-" b) = a +:+ String "_" b.
Proof.
  intros Ha. induction a as [|c a IH]; [done |].
  rewrite word_cons in Ha. apply andb_true_iff in Ha as [Hc Ha].
  rewrite !str_app_cons. cbn [underscoreFirst].
  destruct (Ascii.eqb_spec c "-") as [-> | Hne]; [done |].
  destruct a as [|d a]; [done |].
  cbn [Js.is_empty orb] in Ha. by rewrite (IH Ha).
Qed.

Lemma afterLine_oneLine (s : string) : oneLine s = true → afterLine s = "".
Proof.
  induction s as [|c s IH]; [done |].
  cbn [oneLine afterLine]. intros [Hc Hs]%andb_true_iff.
  apply negb_true_iff in Hc. rewrite Hc. by apply IH.
Qed.

Lemma stripEncoding_none (s : string) :
  Js.has_char "." s = false → stripEncoding s = s.
Proof.
  induction s as [|c s IH]; [done |].
  cbn [Js.has_char stripEncoding].
  intros [Hc Hs]%orb_false_iff.
  rewrite Ascii.eqb_sym, Hc. by rewrite IH.
Qed.

Lemma stripEncoding_dot (a enc : string) :
  Js.has_char "." a = false →
  Js.truthy enc = true → oneLine enc = true →
  stripEncoding (a +:+ String "." enc) = a.
Proof.
  intros Ha Henc Hline. induction a as [|c a IH].
  - destruct enc as [|d enc]; [done |].
    change ("" +:+ String "." (String d enc)) with (String "." (String d enc)).
    cbn [stripEncoding]. cbn [oneLine] in Hline.
    apply andb_true_iff in Hline as [Hd Hline].
    apply negb_true_iff in Hd.
    change (Ascii.eqb "." ".")%char with true. cbn iota.
    rewrite Hd. cbn [afterLine]. rewrite Hd. by apply afterLine_oneLine.
  - cbn [Js.has_char] in Ha. apply orb_false_iff in Ha as [Hc Ha].
    rewrite str_app_cons. cbn [stripEncoding].
    rewrite Ascii.eqb_sym, Hc. by rewrite (IH Ha).
Qed.

(** What [getLocaleCode] returns is in lower case, comes out of
    [replace('-', '_')], and is never the empty string. *)
Lemma getLocaleCode_shape (w : World) (lang : option string) :
  toLowerCase (default "" (getLocaleCode w lang))
    = default "" (getLocaleCode w lang)
  ∧ orNull (default "" (getLocaleCode w lang)) = getLocaleCode w lang
  ∧ (getLocaleCode w lang = None
     ∨ ∃ v, getLocaleCode w lang = Some (toLowerCase (underscoreFirst v))).
Proof.
  unfold getLocaleCode.
  set (v := stripEncoding _). unfold orNull.
  destruct (Js.truthy (toLowerCase (underscoreFirst v))) eqn:Hv;
    cbn [default from_option id].
  - rewrite toLowerCase_idem, Hv. split; [done |]. split; [done |].
    right. by exists v.
  - split; [done |]. split; [done |]. by left.
Qed.

(** X19. The three locale functions fit together.  Either the locale code
    is a language and a country, two words of lower-case letters, joined
    by an underscore (a hyphen in the input has become an underscore), and
    then [getLanguageCode] and [getCountryCode] return exactly these two
    words; or it is not of that form, and then [getLanguageCode] and
    [getCountryCode] both return the whole locale code, so that a locale
    with no country, such as [C], has itself as its country code. *)
Theorem locale_code_parts (w : World) (lang : option string) :
  (getLanguageCode w lang = getLocaleCode w lang
   ∧ getCountryCode w lang = getLocaleCode w lang
   ∧ ∀ language country,
       word language = true → word country = true →
       getLocaleCode w lang ≠ Some (language +:+ "_" +:+ country))
  ∨ ∃ language country,
      getLocaleCode w lang = Some (language +:+ "_" +:+ country)
      ∧ getLanguageCode w lang = Some language
      ∧ getCountryCode w lang = Some country
      ∧ lowerWord language = true
      ∧ lowerWord country = true.
Proof.
  destruct (getLocaleCode_shape w lang) as (Hfixed & HorNull & Hsource).
  unfold getLanguageCode, getCountryCode.
  destruct (localeParts (default "" (getLocaleCode w lang)))
    as [[a b]|] eqn:Hparts.
  - right. exists a, b.
    apply localeParts_some in Hparts as (sep & Hlc & Hsep & Ha & Hb).
    rewrite Hlc in Hfixed.
    apply toLowerCase_fixed_app in Hfixed as [Hfa Hfb].
    cbn [toLowerCase] in Hfb. injection Hfb as _ Hfb.
    assert (Hlocale : getLocaleCode w lang = Some (a +:+ String sep b)).
    { rewrite <- HorNull, Hlc. unfold orNull.
      destruct a; [done |]. done. }
    assert (sep = "_"%char) as ->.
    { destruct Hsep as [-> | ->]; [done |]. exfalso.
      destruct Hsource as [Hnone | [v Hv]]; [congruence |].
      rewrite Hlocale in Hv. injection Hv as Hv. symmetry in Hv.
      apply underscoreFirst_dash in Hv.
      by rewrite (word_no_char "_" a eq_refl Ha) in Hv. }
    rewrite Hfa, Hfb. unfold orNull.
    rewrite (word_truthy a Ha), (word_truthy b Hb).
    repeat split; try done.
    + by apply word_fixed.
    + by apply word_fixed.
  - left. rewrite Hfixed, HorNull. split; [done |]. split; [done |].
    intros language country Hl Hc Hlocale.
    rewrite Hlocale in Hparts. cbn [default from_option id] in Hparts.
    change (language +:+ "_" +:+ country)
      with (language +:+ String "_" country) in Hparts.
    by rewrite localeParts_words in Hparts.
Qed.

(** X20. A locale as POSIX or a browser writes it, a language and a
    country joined by an underscore or a hyphen, with or without an
    encoding after a dot, gives: as locale code the two in lower case
    joined by an underscore, as language code the language in lower case,
    as country code the country in lower case.  The locale is the argument
    or, without one, the [LANG] of the environment. *)
Theorem locale_of_posix (w : World) (lang : option string)
    (language country : string) (sep : ascii) (encoding : option string)
    (Hsep : sep = "_"%char ∨ sep = "-"%char)
    (Hlanguage : word language = true)
    (Hcountry : word country = true)
    (Hencoding : ∀ enc, encoding = Some enc →
                        Js.truthy enc = true ∧ oneLine enc = true)
    (Hlang :
       Js.or_else lang (getenv w "LANG")
       = Some (language
               +:+ String sep
                     (country
                      +:+ match encoding with
                          | Some enc => String "." enc
                          | None => ""
                          end))) :
  getLocaleCode w lang
    = Some (toLowerCase language +:+ "_" +:+ toLowerCase country)
  ∧ getLanguageCode w lang = Some (toLowerCase language)
  ∧ getCountryCode w lang = Some (toLowerCase country).
Proof.
  assert (Hl := word_toLowerCase language Hlanguage).
  assert (Hc := word_toLowerCase country Hcountry).
  assert (Hlocale :
    getLocaleCode w lang
    = Some (toLowerCase language +:+ String "_" (toLowerCase country))).
  { unfold getLocaleCode. rewrite Hlang.
    assert (Htruthy : ∀ s, Js.or_else (Some (language +:+ s)) (Some "")
                           = Some (language +:+ s)).
    { intros s. cbn [Js.or_else]. by destruct language. }
    rewrite Htruthy. cbn [default from_option id].
    assert (Hstrip :
      stripEncoding
        (language
         +:+ String sep
               (country
                +:+ match encoding with
                    | Some enc => String "." enc
                    | None => ""
                    end))
      = language +:+ String sep country).
    { assert (Hdots : Js.has_char "." (language +:+ String sep country)
                      = false).
      { rewrite has_char_app. cbn [Js.has_char].
        rewrite (word_no_char "." language eq_refl Hlanguage).
        rewrite (word_no_char "." country eq_refl Hcountry).
        by destruct Hsep as [-> | ->]. }
      destruct encoding as [enc|].
      - destruct (Hencoding enc eq_refl) as [Henc Hline].
        change (language +:+ String sep (country +:+ String "." enc))
          with (language +:+ (String sep country +:+ String "." enc)).
        rewrite <- str_app_assoc.
        by apply stripEncoding_dot.
      - rewrite str_app_nil_r. by apply stripEncoding_none. }
    rewrite Hstrip.
    assert (Hunder : underscoreFirst (language +:+ String sep country)
                     = language +:+ String "_" country).
    { destruct Hsep as [-> | ->].
      - apply underscoreFirst_none.
        rewrite has_char_app. cbn [Js.has_char].
        rewrite (word_no_char "-" language eq_refl Hlanguage).
        by rewrite (word_no_char "-" country eq_refl Hcountry).
      - by apply underscoreFirst_word. }
    rewrite Hunder, toLowerCase_app. cbn [toLowerCase].
    change (lower "_") with "_"%char.
    unfold orNull.
    apply lowerWord_word, word_truthy in Hl.
    by destruct (toLowerCase language). }
  split; [exact Hlocale |].
  unfold getLanguageCode, getCountryCode. rewrite Hlocale.
  cbn [default from_option id].
  rewrite localeParts_words by by apply lowerWord_word.
  rewrite !toLowerCase_idem. unfold orNull.
  rewrite (word_truthy _ (lowerWord_word _ Hl)).
  by rewrite (word_truthy _ (lowerWord_word _ Hc)).
Qed.

Lemma locale_of_posix_witness :
  getLocaleCode posixWorld (Some "en-AU.UTF-8") = Some "en_au"
  ∧ getLanguageCode posixWorld (Some "en-AU.UTF-8") = Some "en"
  ∧ getCountryCode posixWorld (Some "en-AU.UTF-8") = Some "au".
Proof.
  apply (locale_of_posix posixWorld (Some "en-AU.UTF-8") "en" "AU" "-"
           (Some "UTF-8")).
  - by right.
  - reflexivity.
  - reflexivity.
  - intros enc [= <-]. split; reflexivity.
  - reflexivity.
Defined.

(* ===================================================================== *)
(** ** Prefixed output *)
(* ===================================================================== *)

Lemma str_rev_snoc (s : string) (c : ascii) :
  String.rev (s +:+ String c "") = String c (String.rev s).
Proof.
  induction s as [|d s IH]; [done |].
  rewrite str_app_cons, !str_rev_cons, IH. by rewrite str_app_cons.
Qed.

Lemma str_rev_involutive (s : string) : String.rev (String.rev s) = s.
Proof.
  induction s as [|c s IH]; [done |].
  by rewrite str_rev_cons, str_rev_snoc, IH.
Qed.

(** Cutting starts from what has been read of the current piece. *)
Lemma split_go_cur (sep : ascii) (cur s : string) :
  Js.split_go sep cur s =
    match Js.split_go sep "" s with
    | first :: more => (String.rev cur +:+ first) :: more
    | [] => []
    end.
Proof.
  revert cur. induction s as [|c s IH]; intros cur.
  - cbn [Js.split_go]. by rewrite str_app_nil_r.
  - cbn [Js.split_go]. destruct (Ascii.eqb c sep).
    + by rewrite str_app_nil_r.
    + rewrite (IH (String c cur)), (IH (String c "")).
      destruct (Js.split_go sep "" s) as [|first more]; [done |].
      by rewrite str_rev_cons, str_app_assoc.
Qed.

Lemma split_go_app (sep : ascii) (cur a b : string) :
  Js.has_char sep a = false →
  Js.split_go sep cur (a +:+ b) =
    match Js.split_go sep "" b with
    | first :: more => (String.rev cur +:+ a +:+ first) :: more
    | [] => []
    end.
Proof.
  revert cur. induction a as [|c a IH]; intros cur Ha.
  - change ("" +:+ b) with b. apply split_go_cur.
  - cbn [Js.has_char] in Ha. apply orb_false_iff in Ha as [Hc Ha].
    rewrite str_app_cons. cbn [Js.split_go].
    rewrite Ascii.eqb_sym, Hc, (IH _ Ha).
    destruct (Js.split_go sep "" b) as [|first more]; [done |].
    by rewrite str_rev_cons, !str_app_assoc.
Qed.

(** A replacement text without a dollar is put in as it is. *)
Lemma substitution_plain (matched before after by_ : string) :
  Js.has_char "$" by_ = false →
  Js.substitution matched before after by_ = by_.
Proof.
  induction by_ as [|c rest IH]; [done |].
  cbn [Js.has_char Js.substitution].
  intros [Hc Hrest]%orb_false_iff.
  rewrite Ascii.eqb_sym, Hc. by rewrite IH.
Qed.

(** The lines of a text whose newlines have been replaced by a newline
    and a prefix, with a newline put at its end. *)
Lemma split_replace_newlines (prefix cur before text : string) :
  Js.has_char "010" prefix = false →
  Js.has_char "$" prefix = false →
  Js.split_go "010" cur
    (Js.replace_newlines_from (nl +:+ prefix) before text +:+ nl) =
    match Js.split_go "010" cur text with
    | first :: more => first :: ((λ line, prefix +:+ line) <$> more)
    | [] => []
    end ++ [""].
Proof.
  intros Hprefix Hdollar. revert cur before.
  induction text as [|c text IH]; intros cur before; [done |].
  cbn [Js.replace_newlines_from Js.split_go].
  destruct (Ascii.eqb_spec c "010") as [-> | Hne].
  - rewrite substitution_plain
      by (change (nl +:+ prefix) with (String "010" prefix);
          cbn [Js.has_char]; by rewrite Hdollar).
    change ((nl +:+ prefix)
            +:+ Js.replace_newlines_from (nl +:+ prefix)
                  (before +:+ String "010" "") text)
      with (String "010"
              (prefix +:+ Js.replace_newlines_from (nl +:+ prefix)
                            (before +:+ String "010" "") text)).
    rewrite str_app_cons. cbn [Js.split_go].
    change (Ascii.eqb "010" "010") with true. cbn iota.
    rewrite str_app_assoc, (split_go_app _ _ _ _ Hprefix).
    pose proof (IH "" (before +:+ String "010" "")) as IH'.
    destruct (Js.split_go "010" ""
                (Js.replace_newlines_from (nl +:+ prefix)
                   (before +:+ String "010" "") text +:+ nl))
      as [|first more] eqn:Hsplit.
    + by destruct (Js.split_go "010" "" text).
    + destruct (Js.split_go "010" "" text) as [|first' more'] eqn:Htext;
        [by apply split_go_nonempty in Htext |].
      cbn [app] in IH'. injection IH' as -> ->.
      cbn [fmap list_fmap app]. done.
  - rewrite str_app_cons. cbn [Js.split_go].
    apply Ascii.eqb_neq in Hne. rewrite Hne. apply IH.
Qed.

(** X22. [prefixData] puts the prefix at the start of every line.  For a
    prefix without a newline and without a dollar, and data that is not
    empty, the lines of what it returns are the lines of the trimmed data,
    each with the prefix before it, in the same order; and the text ends
    with a newline.  This is the form in which output is mirrored under
    [outputPrefix], and in which it is quoted in the message of a non-zero
    status.  (A dollar in the prefix is read by [replace] as the start of a
    replacement pattern on every line but the first.) *)
Theorem prefixData_lines (d : Data) (prefix : string)
    (Hprefix : Js.truthy prefix = true)
    (Hline : Js.has_char "010" prefix = false)
    (Hdollar : Js.has_char "$" prefix = false)
    (Hdata : Js.truthy (data_toString d) = true) :
  Js.split "010" (prefixData (Some d) prefix) =
    ((λ line, prefix +:+ line)
       <$> Js.split "010" (Js.trim (data_toString d)))
    ++ [""].
Proof.
  unfold prefixData.
  assert (Htruthy : data_truthy d = true) by by destruct d.
  rewrite Htruthy, Hprefix, Hdata. cbn [andb].
  unfold Js.split, Js.replace_newlines.
  rewrite (split_go_app _ _ _ _ Hline).
  rewrite (split_replace_newlines prefix "" "" _ Hline Hdollar).
  destruct (Js.split_go "010" "" (Js.trim (data_toString d)))
    as [|first more] eqn:Hsplit; [by apply split_go_nonempty in Hsplit |].
  done.
Qed.

Lemma prefixData_lines_witness :
  Js.split "010" (prefixData (Some (Buffer (" a" +:+ nl +:+ "b" +:+ nl)))
                    defaultPrefix)
  = [defaultPrefix +:+ "a"; defaultPrefix +:+ "b"; ""].
Proof.
  apply (prefixData_lines (Buffer (" a" +:+ nl +:+ "b" +:+ nl))
           defaultPrefix); reflexivity.
Defined.

(* ===================================================================== *)
(** ** Names that the cache object inherits *)
(* ===================================================================== *)

(** X23. The cache of [getExecPath] is a plain object, and a plain object
    answers to the names of [Object.prototype].  Asked, with caching on,
    for a name such as [constructor] or [toString] that has no entry of
    its own, [getExecPath] finds the inherited member in the cache and
    calls back with it at once: with something that is not a string, no
    candidate listed, nothing verified, and no error. *)
Theorem getExecPath_inherited (w : World) (execName : string) (opts : Opts)
    (c : Caches)
    (Hname : execName ∈ objectPrototypeKeys)
    (Hcache : cacheOn opts = true)
    (Hown : execPathCache c !! execName = None) :
  getExecPath w execName opts c =
    mkRun (Ok (ReplyPath (Some (PInherited execName)), [])) c
          [EvCacheRead (SlotExec execName)].
Proof.
  assert (Hdispatch :
    isAbsolute execName = false
    ∧ ∃ method, getExecMethodName execName = ret method
                ∧ specialMethod method = None).
  { unfold objectPrototypeKeys in Hname.
    repeat (apply elem_of_cons in Hname as [-> | Hname]);
      [| | | | | | | | | | | | by apply elem_of_nil in Hname];
      (split; [reflexivity | eexists; split; reflexivity]). }
  destruct Hdispatch as (Habs & method & Hmethod & Hspecial).
  unfold getExecPath. rewrite Habs, Hmethod, bind_ret, Hspecial.
  unfold getExecPath_generic, readExecPathCache. rewrite Hcache.
  assert (Hget : execPathCache_get c execName = Some (PInherited execName)).
  { unfold execPathCache_get. rewrite Hown.
    rewrite (bool_decide_eq_true_2 _ Hname).
    by destruct (bool_decide (execName = "__proto__")). }
  unfold bind, getCaches, emit, ret. cbn [value store events].
  rewrite Hget. done.
Qed.

Lemma getExecPath_inherited_witness :
  getExecPath posixWorld "constructor" noOpts noCaches =
    mkRun (Ok (ReplyPath (Some (PInherited "constructor")), [])) noCaches
          [EvCacheRead (SlotExec "constructor")].
Proof.
  apply (getExecPath_inherited posixWorld "constructor" noOpts noCaches).
  - unfold objectPrototypeKeys. apply elem_of_cons. by left.
  - reflexivity.
  - reflexivity.
Defined.

(* ===================================================================== *)
(** ** Special commands *)
(* ===================================================================== *)

Lemma gitCommands_first (g : GitOpts) :
  ∃ rest, gitCommands g = CmdArray ["git"; "init"] :: rest.
Proof. unfold gitCommands. by eexists. Qed.

(** X21. [initGitRepo] runs its git commands one at a time and in the
    order it prepared them ([init], [remote add] when there is a url,
    [fetch], [pull], [submodule init], [submodule update]), unless the
    options ask for more concurrency.  It stops at the first command that
    fails: [next] receives the outcomes of the commands up to and including
    that one, and its error; the commands after it are not run.  So when
    [git init] itself fails, nothing else is attempted. *)
Theorem initGitRepo_stops (spawned : Command → Outcome) (g : GitOpts)
    (opts : Opts) (choose : nat → nat → nat)
    (Hsequential : default 1%nat (o_concurrency opts) = 1%nat) :
  (initGitRepo spawned g opts choose).2 =
    spawned <$> throughFirstFailure spawned c_error (gitCommands g)
  ∧ (initGitRepo spawned g opts choose).1 =
      firstFailure c_error (initGitRepo spawned g opts choose).2
  ∧ (∀ e, c_error (spawned (CmdArray ["git"; "init"])) = Some e →
          initGitRepo spawned g opts choose =
            (Some e, [spawned (CmdArray ["git"; "init"])])).
Proof.
  unfold initGitRepo, spawnMultiple. cbn [commandList].
  assert (Hresults := runMultiple_sequential spawned c_error (gitCommands g)
                        (o_concurrency opts) choose Hsequential).
  assert (Herror := runMultiple_errorIsFirst spawned c_error (gitCommands g)
                      (o_concurrency opts) choose).
  split; [done |]. split; [done |].
  intros e He.
  destruct (runMultiple spawned c_error (gitCommands g) (o_concurrency opts)
              choose) as [err outcomes].
  cbn [fst snd] in *. subst err outcomes.
  destruct (gitCommands_first g) as [rest ->].
  cbn [throughFirstFailure]. rewrite He.
  cbn [fmap list_fmap firstFailure]. by rewrite He.
Qed.

Lemma initGitRepo_stops_witness :
  let spawned := λ command,
    match command with
    | CmdArray ["git"; "fetch"; _] =>
        mkOutcome (Some (newError "offline")) None None (Some 128) None
    | _ => outcomeOf (joinSpace (normalizeCommand command))
    end in
  initGitRepo spawned (mkGitOpts None None None) noOpts (λ _ _, 0%nat) =
    (Some (newError "offline"),
     [outcomeOf "git init";
      mkOutcome (Some (newError "offline")) None None (Some 128) None]).
Proof.
  cbn zeta.
  match goal with
  | |- initGitRepo ?spawned ?g ?opts ?choose = _ =>
      destruct (initGitRepo_stops spawned g opts choose eq_refl)
        as (Hresults & Herror & _);
      destruct (initGitRepo spawned g opts choose) as [err outcomes]
  end.
  cbn [fst snd] in *. subst err outcomes. reflexivity.
Defined.

(* ===================================================================== *)
(** ** Mirroring in the blocking spawn *)
(* ===================================================================== *)

Lemma outputData_run (data : Data) (ch : Channel) (prefix : option string)
    (c : Caches) :
  outputData (Some data) ch prefix c =
    mkRun (Ok tt) c
      (if Js.is_empty (Js.trim (data_toString data)) then []
       else [EvWrite ch
               (if Js.truthy_opt prefix
                then prefixData (Some data) (default EmptyString prefix)
                else data_toString data)]).
Proof.
  unfold outputData.
  destruct (Js.is_empty (Js.trim (data_toString data))); [done |].
  destruct prefix as [p|]; [| done].
  cbn [Js.truthy_opt default from_option id]. by destruct (Js.truthy p).
Qed.

(** X24. [spawnSync] mirrors after the fact, and only what is there.  With
    mirroring on (and path resolution off), the child is run to its end
    first; then its whole stdout is written to the parent's stdout and its
    whole stderr to the parent's stderr, in that order, each at most once
    and not when blank; then the finalized result is returned.  When the
    child could not be started there are no buffers to mirror, and the
    call throws out of the mirroring instead of returning the launch
    error. *)
Theorem spawnSync_mirror (w : World) (command : Command) (opts : Opts)
    (c : Caches) (file : string) (args : list string)
    (Hsafe : o_safe opts = Some false)
    (Hcommand : normalizeCommand command = file :: args)
    (Hmirror : flag (o_output (prepareExecutableOptions w opts)) = true) :
  let result := cp_spawnSync w file args in
  let prefix := o_outputPrefix (prepareExecutableOptions w opts) in
  let shown ch data :=
    if Js.is_empty (Js.trim (data_toString data)) then []
    else [EvWrite ch
            (if Js.truthy_opt prefix
             then prefixData (Some data) (default EmptyString prefix)
             else data_toString data)] in
  match stdout result, stderr result with
  | Some out, Some err =>
      spawnSync w command opts c =
        mkRun (Ok (classify result)) c
              (EvSpawn file args :: shown ChStdout out ++ shown ChStderr err)
  | Some out, None =>
      ∃ e, spawnSync w command opts c =
             mkRun (Throw e) c (EvSpawn file args :: shown ChStdout out)
  | None, _ =>
      ∃ e, spawnSync w command opts c =
             mkRun (Throw e) c [EvSpawn file args]
  end.
Proof.
  cbn zeta. unfold spawnSync.
  destruct (prepared_safe w opts) as [Hs _].
  assert (Hflag : flag (o_safe (setSync (prepareExecutableOptions w opts)))
                  = false) by (cbn [setSync o_safe]; by rewrite Hs, Hsafe).
  rewrite Hflag, Hcommand, bind_ret.
  cbn [executableName arguments head tail fmap option_fmap option_map
       childSpawnSync].
  assert (Hchild :
    (emit (EvSpawn file args) ;;; ret (cp_spawnSync w file args)) c
    = mkRun (Ok (cp_spawnSync w file args)) c [EvSpawn file args]) by done.
  rewrite (bind_ok _ _ c (cp_spawnSync w file args)) by by rewrite Hchild.
  rewrite Hchild. cbn [value store events].
  rewrite updateExecutableResult_unfold.
  change (o_output (setSync (prepareExecutableOptions w opts)))
    with (o_output (prepareExecutableOptions w opts)).
  change (o_outputPrefix (setSync (prepareExecutableOptions w opts)))
    with (o_outputPrefix (prepareExecutableOptions w opts)).
  rewrite Hmirror.
  destruct (stdout (cp_spawnSync w file args)) as [out|].
  - destruct (stderr (cp_spawnSync w file args)) as [err|].
    + rewrite (bind_ok _ _ c tt)
        by (rewrite (bind_ok _ _ c tt) by (by rewrite outputData_run);
            by rewrite !outputData_run).
      rewrite (bind_ok _ _ c tt) by by rewrite outputData_run.
      rewrite !outputData_run. cbn [ret value store events].
      by rewrite app_nil_r.
    + eexists.
      rewrite (bind_throw _ _ c _)
        by (rewrite (bind_ok _ _ c tt) by (by rewrite outputData_run);
            by rewrite outputData_run).
      rewrite (bind_ok _ _ c tt) by by rewrite outputData_run.
      rewrite outputData_run. cbn [outputData throw value store events].
      by rewrite app_nil_r.
  - by eexists.
Qed.

Lemma spawnSync_mirror_witness :
  let opts :=
    mkOpts None None (Some false) None (Some true) None EnvUnset None None
           None in
  spawnSync chattyWorld (CmdString "ls -l") opts noCaches =
    mkRun (Ok (mkResult (Some 1) (Some (Buffer "listing"))
                        (Some (Buffer "warning")) (Some 0) None None))
          noCaches
          [EvSpawn "ls" ["-l"]; EvWrite ChStdout "listing";
           EvWrite ChStderr "warning"].
Proof.
  exact (spawnSync_mirror chattyWorld (CmdString "ls -l")
           (mkOpts None None (Some false) None (Some true) None EnvUnset None
              None None)
           noCaches "ls" ["-l"] eq_refl eq_refl eq_refl).
Defined.

(* ===================================================================== *)
(** ** The directories of PATH *)
(* ===================================================================== *)

Lemma joinBy_cons (sep : ascii) (part : string) (parts : list string) :
  parts ≠ [] →
  joinBy sep (part :: parts) = part +:+ String sep (joinBy sep parts).
Proof. by destruct parts. Qed.

(** Cutting a list of directories that was written with the delimiter
    between them gives the directories back, in their order. *)
Lemma split_joinBy (sep : ascii) (parts : list string) :
  parts ≠ [] →
  Forall (λ part, Js.has_char sep part = false) parts →
  Js.split sep (joinBy sep parts) = parts.
Proof.
  unfold Js.split. intros Hne Hparts.
  induction parts as [|part parts IH]; [done |].
  apply Forall_cons in Hparts as [Hpart Hparts].
  destruct parts as [|next parts].
  - cbn [joinBy]. rewrite <- (str_app_nil_r part) at 1.
    rewrite (split_go_app _ _ _ _ Hpart). cbn [Js.split_go].
    by rewrite str_app_nil_r.
  - rewrite joinBy_cons by done.
    rewrite (split_go_app _ _ _ _ Hpart).
    cbn [Js.split_go]. rewrite Ascii.eqb_refl.
    rewrite IH by done. by rewrite str_app_nil_r.
Qed.

Lemma split_go_joinBy (sep : ascii) (cur line : string) :
  joinBy sep (Js.split_go sep cur line) = String.rev cur +:+ line.
Proof.
  revert cur. induction line as [|ch line IH]; intros cur.
  - cbn [Js.split_go joinBy]. by rewrite str_app_nil_r.
  - cbn [Js.split_go]. destruct (Ascii.eqb_spec ch sep) as [-> | Hne].
    + rewrite joinBy_cons by apply split_go_nonempty.
      by rewrite IH.
    + by rewrite IH, str_rev_cons, str_app_assoc.
Qed.

Lemma split_go_no_sep (sep : ascii) (cur line : string) :
  Js.has_char sep (String.rev cur) = false →
  Forall (λ part, Js.has_char sep part = false) (Js.split_go sep cur line).
Proof.
  revert cur. induction line as [|ch line IH]; intros cur Hcur.
  - cbn [Js.split_go]. by constructor.
  - cbn [Js.split_go]. destruct (Ascii.eqb ch sep) eqn:Hch.
    + constructor; [done |]. by apply IH.
    + apply IH. rewrite str_rev_cons, has_char_app, Hcur.
      cbn [Js.has_char]. by rewrite Ascii.eqb_sym, Hch.
Qed.

(** Every value of [PATH] lists directories in this way: at least one,
    none of them with the delimiter in it. *)
Lemma path_lists_directories (sep : ascii) (path : string) :
  ∃ dirs,
    dirs ≠ []
    ∧ Forall (λ dir, Js.has_char sep dir = false) dirs
    ∧ path = joinBy sep dirs.
Proof.
  exists (Js.split_go sep "" path). split; [apply split_go_nonempty |].
  split; [by apply split_go_no_sep |].
  by rewrite split_go_joinBy.
Qed.

(** Where the four variants of the [i]-th path sit in the list. *)
Lemma variants_lookup (paths : list string) (i : nat) (p : string) :
  paths !! i = Some p →
  let listed :=
    paths ≫= λ p, [p; p +:+ ".exe"; p +:+ ".cmd"; p +:+ ".bat"] in
  listed !! (4 * i)%nat = Some p
  ∧ listed !! (4 * i + 1)%nat = Some (p +:+ ".exe")
  ∧ listed !! (4 * i + 2)%nat = Some (p +:+ ".cmd")
  ∧ listed !! (4 * i + 3)%nat = Some (p +:+ ".bat").
Proof.
  cbn zeta. revert i. induction paths as [|q paths IH]; intros i Hi; [done |].
  rewrite bind_cons. destruct i as [|i].
  - injection Hi as ->. done.
  - cbn [lookup list_lookup] in Hi. destruct (IH i Hi) as (H0 & H1 & H2 & H3).
    replace (4 * S i)%nat with (S (S (S (S (4 * i))))) by lia.
    cbn [app Nat.add]. by rewrite !lookup_cons_ne_0 by lia.
Qed.

Lemma variants_length (paths : list string) :
  length (paths ≫= λ p, [p; p +:+ ".exe"; p +:+ ".cmd"; p +:+ ".bat"])
  = (4 * length paths)%nat.
Proof.
  induction paths as [|q paths IH]; [done |].
  rewrite bind_cons. cbn [app length]. rewrite IH. lia.
Qed.

(** C6. The candidates, and what happens without [PATH].  When [PATH]
    lists the directories [dirs], with the delimiter of the platform
    between them (every value of [PATH] does, for some [dirs]), the
    candidates are built from the current working directory followed by
    these directories in their order.  On Windows, for a name without a
    dot, every directory contributes its four variants (bare, [.exe],
    [.cmd], [.bat]) in that order before the next directory contributes
    any: the variants of the [i]-th directory are the candidates number
    [4i] to [4i+3].  Otherwise every directory contributes its bare
    candidate only.  When [PATH] is not set no candidate is produced at
    all: [process.env.PATH.split] throws. *)
Theorem getPossibleExecPaths_order (w : World) (execName : string)
    (c : Caches) :
  (∀ dirs,
     dirs ≠ [] →
     Forall (λ dir, Js.has_char (delimiter w) dir = false) dirs →
     getenv w "PATH" = Some (joinBy (delimiter w) dirs) →
     let bare := standardPath w execName <$> cwd w :: dirs in
     let listed :=
       if isWindows w && negb (Js.has_char "." execName)
       then bare ≫= λ p, [p; p +:+ ".exe"; p +:+ ".cmd"; p +:+ ".bat"]
       else bare in
     getPossibleExecPaths w execName c = mkRun (Ok listed) c []
     ∧ (isWindows w && negb (Js.has_char "." execName) = true →
        length listed = (4 * S (length dirs))%nat
        ∧ ∀ i dir,
            (cwd w :: dirs) !! i = Some dir →
            listed !! (4 * i)%nat = Some (standardPath w execName dir)
            ∧ listed !! (4 * i + 1)%nat
              = Some (standardPath w execName dir +:+ ".exe")
            ∧ listed !! (4 * i + 2)%nat
              = Some (standardPath w execName dir +:+ ".cmd")
            ∧ listed !! (4 * i + 3)%nat
              = Some (standardPath w execName dir +:+ ".bat")))
  ∧ (∀ path,
       getenv w "PATH" = Some path →
       ∃ dirs,
         dirs ≠ []
         ∧ Forall (λ dir, Js.has_char (delimiter w) dir = false) dirs
         ∧ path = joinBy (delimiter w) dirs)
  ∧ (getenv w "PATH" = None →
     getPossibleExecPaths w execName c =
       mkRun (Throw (typeError "Cannot read property 'split' of undefined"))
             c [])
  ∧ getPossibleExecPaths pathlessWindows "foo" noCaches =
      mkRun (Throw (typeError "Cannot read property 'split' of undefined"))
            noCaches [].
Proof.
  split; [| split; [| split]].
  - intros dirs Hne Hdirs Hpath. cbn zeta.
    assert (Hstandard :
      getStandardExecPaths w execName c =
        mkRun (Ok (standardPath w execName <$> cwd w :: dirs)) c []).
    { rewrite (getStandardExecPaths_set w execName _ c Hpath).
      by rewrite split_joinBy. }
    split.
    + unfold getPossibleExecPaths.
      destruct (isWindows w && negb (Js.has_char "." execName)); [| done].
      rewrite (bind_ok _ _ _ _) by by rewrite Hstandard.
      by rewrite Hstandard.
    + intros ->. split.
      * rewrite variants_length, length_fmap. done.
      * intros i dir Hi. apply variants_lookup.
        by rewrite list_lookup_fmap, Hi.
  - intros path _. apply path_lists_directories.
  - intros Hpath. unfold getPossibleExecPaths, getStandardExecPaths,
      getEnvironmentPaths. rewrite Hpath.
    by destruct (isWindows w && negb (Js.has_char "." execName)).
  - reflexivity.
Qed.

Lemma getPossibleExecPaths_order_witness :
  getPossibleExecPaths windowsWorld "foo" noCaches =
    mkRun
      (Ok [ "C:\work\foo"; "C:\work\foo.exe"; "C:\work\foo.cmd";
            "C:\work\foo.bat";
            "C:\bin\foo"; "C:\bin\foo.exe"; "C:\bin\foo.cmd";
            "C:\bin\foo.bat";
            "C:\tools\foo"; "C:\tools\foo.exe"; "C:\tools\foo.cmd";
            "C:\tools\foo.bat" ])
      noCaches [].
Proof.
  destruct (getPossibleExecPaths_order windowsWorld "foo" noCaches)
    as [Hlisted _].
  destruct (Hlisted ["C:\bin"; "C:\tools"]) as [Hrun _].
  - discriminate.
  - repeat constructor.
  - reflexivity.
  - exact Hrun.
Defined.
